(** * Arcade AI support bot: retrieval core

    A shallow embedding of the two programs of the repository,
    [scripts/ingest.js] (crawl, chunk, embed, persist) and [src/server.js]
    (load the index, score, rank, answer), the properties of them that the
    specification states, and further properties of the code.

    Conventions.
    - A JavaScript string is its sequence of UTF-16 code units ([jsstring]);
      [String.prototype.length], [slice] and [trim] act on code units.
    - Integral JavaScript numbers (offsets, sizes, counts) are [Z]; every
      value the code computes from them stays far below 2^53, where double
      arithmetic on integers is exact.
    - Embedding components and similarity scores are IEEE 754 binary64, that
      is Rocq's primitive [float].
    - A loop that need not terminate takes fuel and answers [None] when the
      fuel runs out before the loop is left.
    - An array holds at most [max_length] elements, a number the engine
      sets (2^32 - 1 at most); [push] on a full array throws a
      [RangeError]. *)

From stdpp Require Import gmap.
From Stdlib Require Import String Ascii ZArith List Lia Bool Floats.
From Stdlib Require Import Sorted Permutation DecimalNat.
Import ListNotations.
Local Open Scope Z_scope.

(** ** JavaScript strings *)

Module JsString.

Definition jsstring := list N.

(** Code units of an ASCII literal, to write texts down. *)
Fixpoint lit (s : string) : jsstring :=
  match s with
  | EmptyString => []
  | String c r => N_of_ascii c :: lit r
  end.

(** ECMAScript WhiteSpace and LineTerminator code points, the characters
    [String.prototype.trim] strips. *)
Definition is_ws (c : N) : bool :=
  (((9 <=? c) && (c <=? 13)) || (c =? 32) || (c =? 160) || (c =? 5760)
   || ((8192 <=? c) && (c <=? 8202)) || (c =? 8232) || (c =? 8233)
   || (c =? 8239) || (c =? 8287) || (c =? 12288) || (c =? 65279))%N.

Fixpoint trimStart (s : jsstring) : jsstring :=
  match s with
  | [] => []
  | c :: r => if is_ws c then trimStart r else s
  end.

Definition trimEnd (s : jsstring) : jsstring := rev (trimStart (rev s)).

Definition trim (s : jsstring) : jsstring := trimEnd (trimStart s).

Definition len {A} (s : list A) : Z := Z.of_nat (List.length s).

(** [Array.prototype.slice] and [String.prototype.slice] on integral
    arguments: a negative index counts from the end, both are clamped to
    [0 .. length], and an empty range gives the empty sequence. *)
Definition rel_index (n i : Z) : Z :=
  if i <? 0 then Z.max (n + i) 0 else Z.min i n.

Definition slice {A} (s : list A) (start stop : Z) : list A :=
  let from := rel_index (len s) start in
  let to := rel_index (len s) stop in
  firstn (Z.to_nat (Z.max (to - from) 0)) (skipn (Z.to_nat from) s).

(** A string all of whose code units are white space (the empty one
    included). *)
Definition blank (s : jsstring) : bool := forallb is_ws s.

End JsString.

Import JsString.

(** ** The chunker ([scripts/ingest.js], [chunkText]) *)

Module Chunker.

(** The state of the [while] loop: [start] and the [chunks] pushed so far. *)
Record loop_state := LoopState { start : Z; chunks : list jsstring }.

(** [chunks.push(chunk.trim())] under its guard. *)
Definition push_chunk (chunks : list jsstring) (chunk : jsstring) : list jsstring :=
  if 0 <? len (trim chunk) then chunks ++ [trim chunk] else chunks.

(** One pass through the loop body, entered with [start < text.length]:
    the new state and whether the body left the loop through [break]. *)
Definition body (text : jsstring) (chunkSize overlap : Z) (st : loop_state)
  : loop_state * bool :=
  let stop := Z.min (len text) (start st + chunkSize) in
  let chunk := slice text (start st) stop in
  let chunks' := push_chunk (chunks st) chunk in
  let start1 := stop - overlap in
  let start2 := if start1 <? 0 then 0 else start1 in
  (LoopState start2 chunks', len text <=? start2).

Fixpoint loop (fuel : nat) (text : jsstring) (chunkSize overlap : Z)
  (st : loop_state) : option (list jsstring) :=
  if start st <? len text then
    match fuel with
    | O => None
    | S fuel' =>
        let (st', broke) := body text chunkSize overlap st in
        if broke then Some (chunks st')
        else loop fuel' text chunkSize overlap st'
    end
  else Some (chunks st).

Definition chunkText (fuel : nat) (text : jsstring) (chunkSize overlap : Z)
  : option (list jsstring) :=
  loop fuel text chunkSize overlap (LoopState 0 []).

Definition default_chunkSize : Z := 1200.
Definition default_overlap : Z := 150.

(** The loop state after [n] passes through the body, [break] ignored. *)
Fixpoint iterate (n : nat) (text : jsstring) (chunkSize overlap : Z)
  (st : loop_state) : loop_state :=
  match n with
  | O => st
  | S n' => iterate n' text chunkSize overlap (fst (body text chunkSize overlap st))
  end.

(** The windows of the specification for [overlap = 0]: consecutive ranges
    [[i * chunkSize, min (len, (i+1) * chunkSize))]. *)
Definition ceil_div (a b : Z) : Z := (a + b - 1) / b.

Definition window (text : jsstring) (chunkSize : Z) (i : nat) : jsstring :=
  slice text (Z.of_nat i * chunkSize)
        (Z.min (len text) (Z.of_nat i * chunkSize + chunkSize)).

Definition windows (text : jsstring) (chunkSize : Z) : list jsstring :=
  map (window text chunkSize)
      (seq 0 (Z.to_nat (ceil_div (len text) chunkSize))).

Definition kept (ws : list jsstring) : list jsstring :=
  List.filter (fun c => 0 <? len c) (map trim ws).

(** A chunk the loop may push: a trimmed window that is not empty. *)
Definition good_chunk (cs : Z) (c : jsstring) : Prop :=
  0 < len c /\ len c <= cs /\ blank c = false.

(** How a call that ends, ends: with its chunks, or in the [RangeError]
    ("Invalid array length") of a [push]. *)
Inductive outcome :=
  | Returned (chunks : list jsstring)
  | RangeError.

(** The loop on an engine whose arrays hold at most [max_length] elements
    (2^32 - 1 by the language, fewer where the engine says so): a [push] on
    an array that is full throws, and the call ends there. The pass is
    computed as [body] computes it; it threw when its array came out longer
    than [max_length]. *)
Fixpoint call_loop (max_length : Z) (fuel : nat) (text : jsstring) (chunkSize overlap : Z)
  (st : loop_state) : option outcome :=
  if start st <? len text then
    match fuel with
    | O => None
    | S fuel' =>
        let (st', broke) := body text chunkSize overlap st in
        if max_length <? len (chunks st') then Some RangeError
        else if broke then Some (Returned (chunks st'))
        else call_loop max_length fuel' text chunkSize overlap st'
    end
  else Some (Returned (chunks st)).

(** A call [chunkText(text, chunkSize, overlap)] with what ends it; [None]
    when the fuel runs out first. *)
Definition chunkText_call (max_length : Z) (fuel : nat) (text : jsstring)
  (chunkSize overlap : Z) : option outcome :=
  call_loop max_length fuel text chunkSize overlap (LoopState 0 []).

(** Where the start comes to rest when the overlap is positive. *)
Definition rest_start (text : jsstring) (overlap : Z) : Z :=
  Z.max 0 (len text - overlap).

(** What is left to do before the [push] that throws: the way to the rest
    start, and the room left in the array. *)
Definition to_go (max_length : Z) (text : jsstring) (overlap : Z) (st : loop_state) : Z :=
  (if start st =? rest_start text overlap then 0 else len text - start st)
  + (max_length - len (chunks st) + 1).

End Chunker.

(** ** The order of binary64 numbers

    Every binary64 value but NaN has a key in [Z * Z * Z]; the numbers are
    ordered as their keys are, lexicographically (the two zeros share a
    key). *)

Module FloatOrder.

Definition key (s : spec_float) : Z * Z * Z :=
  match s with
  | S754_zero _ => (0, 0, 0)
  | S754_infinity false => (2, 0, 0)
  | S754_infinity true => (-2, 0, 0)
  | S754_nan => (3, 0, 0)
  | S754_finite false m e => (1, e, Zpos m)
  | S754_finite true m e => (-1, - e, Zneg m)
  end.

Definition lexcmp (a b : Z * Z * Z) : comparison :=
  let '(a1, a2, a3) := a in
  let '(b1, b2, b3) := b in
  match a1 ?= b1 with
  | Eq => match a2 ?= b2 with Eq => a3 ?= b3 | c => c end
  | c => c
  end.

Definition lexlt (a b : Z * Z * Z) : Prop :=
  fst (fst a) < fst (fst b)
  \/ (fst (fst a) = fst (fst b)
      /\ (snd (fst a) < snd (fst b)
          \/ (snd (fst a) = snd (fst b) /\ snd a < snd b))).

(** A float that is a number: not NaN. *)
Definition number (x : float) : Prop := is_nan x = false.

Definition fkey (x : float) : Z * Z * Z := key (Prim2SF x).

End FloatOrder.

(** ** Similarity and ranking ([src/server.js]) *)

Module Similarity.

(** The arithmetic [cosineSimilarity] uses: the operations of the loop and
    of the quotient, kept apart from the numbers they act on. The program
    runs them on binary64 numbers. *)
Record arith (num : Type) := Arith {
  zero : num;
  add : num -> num -> num;
  mul : num -> num -> num;
  div : num -> num -> num;
  root : num -> num;
  eps : num;           (* the literal 1e-8 *)
  undef : num          (* a number read past the end of an array *)
}.
Arguments Arith {num}.
Arguments zero {num}.
Arguments add {num}.
Arguments mul {num}.
Arguments div {num}.
Arguments root {num}.
Arguments eps {num}.
Arguments undef {num}.

Section Cosine.

Context {num : Type} (ar : arith num).

(** The three accumulators of the loop. *)
Record sums := Sums { dot : num; normA : num; normB : num }.

(** [for (let i = 0; i < a.length; i++) { ... }], with [n] passes left. *)
Fixpoint loop (n i : nat) (a b : list num) (s : sums) : sums :=
  match n with
  | O => s
  | S n' =>
      let ai := nth i a (undef ar) in
      let bi := nth i b (undef ar) in
      loop n' (S i) a b
           (Sums (add ar (dot s) (mul ar ai bi))
                 (add ar (normA s) (mul ar ai ai))
                 (add ar (normB s) (mul ar bi bi)))
  end.

Definition cosine (a b : list num) : num :=
  let s := loop (length a) 0 a b (Sums (zero ar) (zero ar) (zero ar)) in
  div ar (dot s) (add ar (mul ar (root ar (normA s)) (root ar (normB s))) (eps ar)).


End Cosine.

Arguments Sums {num}.
Arguments dot {num}.
Arguments normA {num}.
Arguments normB {num}.

(** Binary64: [undefined] in a product is NaN; 1e-8 is the double
    0x1.5798ee2308c3ap-27. *)
Definition epsilon : float := 0x1.5798ee2308c3ap-27%float.

Definition binary64 : arith float :=
  Arith 0%float PrimFloat.add PrimFloat.mul PrimFloat.div PrimFloat.sqrt epsilon nan.

Definition vector := list float.

Definition cosineSimilarity (a b : vector) : float := cosine binary64 a b.

End Similarity.

(** ** The formula of the specification

    [similarity = dot(a,b) / (sqrt(sum(a_i^2)) * sqrt(sum(b_i^2)) + eps)],
    written from the words of the specification and not from the loop: the
    sums run over the vectors from left to right, every operation is the
    binary64 one. *)

Module Formula.

Import Similarity.

Definition dot (a b : vector) : float :=
  fold_left (fun s p => (s + fst p * snd p)%float) (combine a b) 0%float.




End Formula.

Module Retriever.

Import Similarity.

(** A record of the index, [{ id, url, title, content, embedding }]. *)
Record VectorRecord := {
  id : jsstring;
  url : jsstring;
  title : jsstring;
  content : jsstring;
  embedding : vector
}.

(** [{ ...v, score }]. *)
Record Scored := { record : VectorRecord; score : float }.

(** The value of [vectorIndex] when it is not [null], seen through the
    properties the server reads: [vectors] is [None] when the property is
    missing or is no array. *)
Record Index := { vectors : option (list VectorRecord); model : option jsstring }.

(** [(a, b) => b.score - a.score]. *)
Definition comparator (a b : Scored) : float := (score b - score a)%float.

Section Sort.

Context {A : Type} (cmp : A -> A -> float).

(** [Array.prototype.sort] is a stable sort: an element ends behind the
    elements that were before it unless the comparator puts it strictly
    first. Insertion from the right does this: [x], which stood before all
    of [l], moves behind the elements the comparator puts before it
    ([cmp x y > 0]). For scores that are numbers a sorted and stable
    arrangement is unique, so every stable sort returns this order. Where
    the comparator returns NaN, [insert] takes it for 0 as the language
    says, but the order then depends on which pairs the engine compares:
    the model gives the engine's order only while no score is NaN. *)
Fixpoint insert (x : A) (l : list A) : list A :=
  match l with
  | [] => [x]
  | y :: l' => if (0 <? cmp x y)%float then y :: insert x l' else x :: l
  end.

Definition sort (l : list A) : list A := fold_right insert [] l.

End Sort.

Definition default_k : Z := 6.

Definition score_all (questionEmbedding : vector) (vs : list VectorRecord) : list Scored :=
  map (fun v => {| record := v; score := cosineSimilarity questionEmbedding (embedding v) |}) vs.

Definition selectTopK (vectorIndex : option Index) (questionEmbedding : vector) (k : Z)
  : list Scored :=
  match vectorIndex with
  | None => []
  | Some index =>
      match vectors index with
      | None => []
      | Some vs =>
          if len vs =? 0 then []
          else slice (sort comparator (score_all questionEmbedding vs)) 0 k
      end
  end.

Section Order.

Context {A : Type} (key : A -> float).

(** A comparator of the shape of the one [selectTopK] passes to [sort]. *)
Definition by_key_desc (x y : A) : float := (key y - key x)%float.

(** [x] ranks no lower than [y]. *)
Definition ranks_above (x y : A) : Prop := (key y <=? key x)%float = true.

(** The elements whose key equals the number [s]. *)
Definition tied (s : float) (x : A) : bool := (key x =? s)%float.

End Order.

(** The records the guard of [selectTopK] lets through. *)
Definition loaded_vectors (vectorIndex : option Index) : list VectorRecord :=
  match vectorIndex with
  | Some index => match vectors index with Some vs => vs | None => [] end
  | None => []
  end.

End Retriever.

(** ** The store of the server

    Arrays and objects are cells of a heap, held by reference: [map] and
    [slice] allocate a new array, the spread [{ ...v, score }] allocates a
    new object, and [sort] rewrites the array it is called on in place. The
    module-level variable [vectorIndex] is part of the state. (The number
    arrays [embedding] are never written by the server and stay values.) *)

Module Store.

Import Similarity Retriever.

Definition loc := positive.

Inductive cell :=
  | Arr (elems : list loc)
  | Obj (fields : VectorRecord) (score_field : option float).

(** The object [vectorIndex] refers to, seen through the properties the
    server reads. *)
Record IndexRef := { vectors_ref : option loc; model_ref : option jsstring }.

Record state := State { vectorIndex : option IndexRef; heap : gmap loc cell }.

(** Computations on the state; [None] is an exception (a [TypeError]). *)
Definition M (A : Type) : Type := state -> option (A * state).

Definition ret {A} (a : A) : M A := fun st => Some (a, st).

Definition bind {A B} (m : M A) (f : A -> M B) : M B :=
  fun st => match m st with
            | Some (a, st') => f a st'
            | None => None
            end.

Definition throw {A} : M A := fun _ => None.

Definition alloc (c : cell) : M loc :=
  fun st =>
    let l := fresh (dom (heap st)) in
    Some (l, State (vectorIndex st) (<[l := c]> (heap st))).

Definition read (l : loc) : M cell :=
  fun st => match heap st !! l with
            | Some c => Some (c, st)
            | None => None
            end.

Definition write (l : loc) (c : cell) : M unit :=
  fun st => Some (tt, State (vectorIndex st) (<[l := c]> (heap st))).

Definition get_vectorIndex : M (option IndexRef) :=
  fun st => Some (vectorIndex st, st).

Fixpoint for_each {A B} (f : A -> M B) (l : list A) : M (list B) :=
  match l with
  | [] => ret []
  | x :: l' => bind (f x) (fun y => bind (for_each f l') (fun ys => ret (y :: ys)))
  end.

(** [v => ({ ...v, score: cosineSimilarity(questionEmbedding, v.embedding) })] *)
Definition with_score (questionEmbedding : vector) (v : loc) : M loc :=
  bind (read v) (fun c =>
    match c with
    | Obj fields _ =>
        alloc (Obj fields (Some (cosineSimilarity questionEmbedding (embedding fields))))
    | Arr _ => throw
    end).

(** [arr.map(f)]: a new array. *)
Definition array_map (f : loc -> M loc) (arr : loc) : M loc :=
  bind (read arr) (fun c =>
    match c with
    | Arr elems => bind (for_each f elems) (fun elems' => alloc (Arr elems'))
    | Obj _ _ => throw
    end).

(** [x.score] of the object at [x]; [undefined] in a difference is NaN. *)
Definition score_of (h : gmap loc cell) (x : loc) : float :=
  match h !! x with
  | Some (Obj _ (Some s)) => s
  | _ => nan
  end.

(** [arr.sort((a, b) => b.score - a.score)]: the array itself is
    rewritten. *)
Definition array_sort (arr : loc) : M unit :=
  fun st =>
    match heap st !! arr with
    | Some (Arr elems) =>
        write arr
          (Arr (sort (fun a b => (score_of (heap st) b - score_of (heap st) a)%float) elems))
          st
    | _ => None
    end.

(** [arr.slice(start, stop)]: a new array. *)
Definition array_slice (arr : loc) (start stop : Z) : M loc :=
  bind (read arr) (fun c =>
    match c with
    | Arr elems => alloc (Arr (slice elems start stop))
    | Obj _ _ => throw
    end).

Definition selectTopK (questionEmbedding : vector) (k : Z) : M loc :=
  bind get_vectorIndex (fun vectorIndex =>
    match vectorIndex with
    | None => alloc (Arr [])
    | Some index =>
        match vectors_ref index with
        | None => alloc (Arr [])
        | Some vs =>
            bind (read vs) (fun c =>
              match c with
              | Obj _ _ => alloc (Arr [])
              | Arr elems =>
                  if len elems =? 0 then alloc (Arr [])
                  else
                    bind (array_map (with_score questionEmbedding) vs) (fun scored =>
                    bind (array_sort scored) (fun _ =>
                    array_slice scored 0 k))
              end)
        end
    end).

(** The scored record an object cell holds. *)
Definition view (h : gmap loc cell) (x : loc) : option Scored :=
  match h !! x with
  | Some (Obj fields (Some s)) => Some {| record := fields; score := s |}
  | _ => None
  end.

(** The array of scored records at [arr], read back as a value. *)
Definition read_scored (st : state) (arr : loc) : option (list Scored) :=
  match heap st !! arr with
  | Some (Arr elems) => mapM (view (heap st)) elems
  | _ => None
  end.

(** The state holds the index [index]: the value of [Retriever] that the
    cells reachable from [vectorIndex] spell out. *)
Definition holds_vectors (h : gmap loc cell) (r : option loc)
  (vs : option (list VectorRecord)) : Prop :=
  match r, vs with
  | None, None => True
  | Some arr, None => exists fields s, h !! arr = Some (Obj fields s)
  | Some arr, Some vs =>
      exists elems,
        h !! arr = Some (Arr elems)
        /\ Forall2 (fun e v => h !! e = Some (Obj v None)) elems vs
  | None, Some _ => False
  end.

Definition holds (st : state) (index : option Index) : Prop :=
  match vectorIndex st, index with
  | None, None => True
  | Some r, Some i =>
      model_ref r = model i /\ holds_vectors (heap st) (vectors_ref r) (vectors i)
  | _, _ => False
  end.

(** [st'] extends [st]: the variable [vectorIndex] is the same and every
    cell of [st] is a cell of [st'], unchanged. *)
Definition extends (st st' : state) : Prop :=
  vectorIndex st' = vectorIndex st /\ heap st ⊆ heap st'.

End Store.

(** ** Decimal numerals *)

Module Numeral.

Fixpoint units (d : Decimal.uint) : jsstring :=
  match d with
  | Decimal.Nil => []
  | Decimal.D0 d => 48%N :: units d
  | Decimal.D1 d => 49%N :: units d
  | Decimal.D2 d => 50%N :: units d
  | Decimal.D3 d => 51%N :: units d
  | Decimal.D4 d => 52%N :: units d
  | Decimal.D5 d => 53%N :: units d
  | Decimal.D6 d => 54%N :: units d
  | Decimal.D7 d => 55%N :: units d
  | Decimal.D8 d => 56%N :: units d
  | Decimal.D9 d => 57%N :: units d
  end.

(** [`${i}`] for a count [i]. *)
Definition decimal (i : nat) : jsstring := units (Nat.to_uint i).

End Numeral.

(** ** The ingestion script ([scripts/ingest.js]) *)

Module Ingest.

Import Similarity Numeral.

(** What the script reads of a parsed [URL]. *)
Record URL := { protocol : jsstring; host : jsstring }.

(** A record of the index as the script writes it; [embedding] is missing
    when the embedding service answered with fewer vectors than chunks. *)
Record VectorRecord := {
  id : jsstring;
  url : jsstring;
  title : jsstring;
  content : jsstring;
  embedding : option vector
}.

Record IndexFile := {
  site : jsstring;
  generatedAt : jsstring;
  model : jsstring;
  vectors : list VectorRecord
}.

(** The result of [parseArgs]. *)
Record Args := { arg_site : jsstring; limit : Z }.

Definition default_args : Args :=
  {| arg_site := lit "https://www.arcade.ai"; limit := 40 |}.

(** What surrounds one run of the script: the environment, and the
    answers of the platform, the network and the embedding service. A
    request is answered the same way throughout the run; [None] is a
    failure (an exception or a rejected promise). *)
Record World := {
  OPENAI_API_KEY : option jsstring;
  EMBEDDING_MODEL : option jsstring;
  (** [new OpenAI({ apiKey })] throws *)
  sdk_rejects : option jsstring -> bool;
  (** [new URL(s)] *)
  parse_url : jsstring -> option URL;
  (** [new URL(href, site).toString()] *)
  resolve : jsstring -> jsstring -> option jsstring;
  (** GET of the sitemap, parsed: the [loc?.[0]] of each [url] entry *)
  sitemap : jsstring -> option (list (option jsstring));
  (** GET of the site, parsed: the [href] of each anchor *)
  anchors : jsstring -> option (list jsstring);
  (** GET of a page *)
  fetch : jsstring -> option jsstring;
  (** [extractTitleAndText] *)
  extractTitleAndText : jsstring -> jsstring * jsstring;
  (** [openai.embeddings.create] on a batch *)
  embedBatch : list jsstring -> option (list vector);
  (** [new Date().toISOString()] *)
  clock : jsstring;
  (** the error of [ensureDir], when the output directory cannot be made *)
  disk_error : option jsstring
}.

(** [!value] for an environment variable: unset or empty. *)
Definition unset (value : option jsstring) : bool :=
  match value with
  | None => true
  | Some [] => true
  | Some (_ :: _) => false
  end.

Definition same (a b : jsstring) : bool := bool_decide (a = b).

Section Script.

Context (w : World).

Definition sameHost (url site : jsstring) : bool :=
  match parse_url w url with
  | None => false
  | Some a =>
      match parse_url w site with
      | None => false
      | Some b => same (host a) (host b) && same (protocol a) (protocol b)
      end
  end.

Definition nonempty (s : jsstring) : bool :=
  match s with [] => false | _ :: _ => true end.

Definition fetchSitemapUrls (site : jsstring) : list jsstring :=
  match sitemap w site with
  | None => []
  | Some entries =>
      List.filter nonempty
        (map (fun loc => trim (match loc with Some s => s | None => [] end)) entries)
  end.

(** [urls.add(abs)] on a [Set]: insertion order, no repetition. *)
Definition set_add (urls : list jsstring) (abs : jsstring) : list jsstring :=
  if existsb (same abs) urls then urls else urls ++ [abs].

Definition fetchHomepageUrls (site : jsstring) : list jsstring :=
  match anchors w site with
  | None => []
  | Some hrefs =>
      fold_left
        (fun urls href =>
           if nonempty href then
             match resolve w href site with
             | Some abs => if sameHost abs site then set_add urls abs else urls
             | None => urls
             end
           else urls)
        hrefs []
  end.

(** The URLs the loop of [main] goes through. *)
Definition discover (args : Args) : list jsstring :=
  let urls := fetchSitemapUrls (arg_site args) in
  let urls := if len urls =? 0 then fetchHomepageUrls (arg_site args) else urls in
  let urls := List.filter (fun u => sameHost u (arg_site args)) urls in
  slice urls 0 (limit args).

(** [`${url}#${i}`] *)
Definition make_id (url : jsstring) (i : nat) : jsstring :=
  url ++ [35%N] ++ decimal i.

(** The records of one page: the inner [for] loop. *)
Definition records (url title : jsstring) (chunks : list jsstring)
  (embeddings : list vector) : list VectorRecord :=
  map (fun i =>
         {| id := make_id url i;
            url := url;
            title := title;
            content := nth i chunks [];
            embedding := nth_error embeddings i |})
      (seq 0 (length chunks)).

(** What a run does that can be seen from outside, in order. *)
Inductive event :=
  | ConsoleError (msg : jsstring)
  | Exit (code : Z)
  | GetSitemap (site : jsstring)
  | GetHomepage (site : jsstring)
  | Get (url : jsstring)
  | Embed (texts : list jsstring)
  | Warn (url : jsstring)
  | WriteIndex (index : IndexFile).

(** The requests of the discovery: the sitemap is asked for, and the
    homepage when the sitemap gave no URL. *)
Definition discovery (args : Args) : list event :=
  GetSitemap (arg_site args)
  :: (if len (fetchSitemapUrls (arg_site args)) =? 0
      then [GetHomepage (arg_site args)] else []).

(** The engine the script runs on, and the fuel of each call of
    [chunkText]. *)
Context (max_length : Z) (fuel : nat).

(** One pass of [for (const url of urls)]: the records pushed and what was
    done; [None] when the pass does not end. Whatever is thrown inside the
    [try], the [RangeError] of [chunkText(text)] included, is caught: the
    page is given up with a warning. *)
Definition ingest_page (url : jsstring) : option (list VectorRecord * list event) :=
  match fetch w url with
  | None => Some ([], [Get url; Warn url])
  | Some data =>
      let (title, text) := extractTitleAndText w data in
      if len text <? 200 then Some ([], [Get url])
      else
        match Chunker.chunkText_call max_length fuel text
                Chunker.default_chunkSize Chunker.default_overlap with
        | None => None
        | Some Chunker.RangeError => Some ([], [Get url; Warn url])
        | Some (Chunker.Returned chunks) =>
            match embedBatch w chunks with
            | None => Some ([], [Get url; Embed chunks; Warn url])
            | Some embeddings =>
                Some (records url title chunks embeddings, [Get url; Embed chunks])
            end
        end
  end.

Fixpoint ingest_pages (urls : list jsstring) : option (list VectorRecord * list event) :=
  match urls with
  | [] => Some ([], [])
  | url :: urls' =>
      match ingest_page url with
      | None => None
      | Some (vs, es) =>
          match ingest_pages urls' with
          | None => None
          | Some (vs', es') => Some (vs ++ vs', es ++ es')
          end
      end
  end.

Definition embedding_model : jsstring :=
  match EMBEDDING_MODEL w with
  | Some (c :: m) => c :: m
  | _ => lit "text-embedding-3-small"
  end.

(** The script from its first line: what it does, in order, or [None]
    when it does not end. *)
Definition main (args : Args) : option (list event) :=
  if sdk_rejects w (OPENAI_API_KEY w) then Some [Exit 1]
  else if unset (OPENAI_API_KEY w) then
    Some [ConsoleError (lit "Missing OPENAI_API_KEY"); Exit 1]
  else
    match disk_error w with
    | Some err => Some [ConsoleError err; Exit 1]
    | None =>
        match ingest_pages (discover args) with
        | None => None
        | Some (vs, es) =>
            Some (discovery args ++ es
                  ++ [WriteIndex {| site := arg_site args;
                                    generatedAt := clock w;
                                    model := embedding_model;
                                    vectors := vs |}])
        end
    end.

End Script.

(** The index a run wrote, if it wrote one. *)
Definition written (events : list event) : option IndexFile :=
  match last events (Exit 0) with
  | WriteIndex index => Some index
  | _ => None
  end.

(** The requests a run sent to the site. *)
Definition fetched (events : list event) : list jsstring :=
  flat_map (fun e => match e with
                     | GetSitemap url | GetHomepage url | Get url => [url]
                     | _ => []
                     end) events.

End Ingest.

(** ** The server ([src/server.js]) *)

Module Server.

Import Similarity Retriever Numeral.

(** The environment and the collaborators of the server; [None] is a
    failure (an exception or a rejected promise). *)
Record World := {
  OPENAI_API_KEY : option jsstring;
  PORT : option Z;
  (** [new OpenAI({ apiKey })] throws *)
  sdk_rejects : option jsstring -> bool;
  (** [JSON.parse]: [None] is a [SyntaxError], [Some None] is [null] *)
  JSON_parse : jsstring -> option (option Index);
  (** [openai.embeddings.create] on one text *)
  embedText : jsstring -> option vector;
  (** [openai.chat.completions.create]: the [content] of the first choice,
      if there is one *)
  complete : jsstring -> jsstring -> option (option jsstring)
}.

Definition unset (value : option jsstring) : bool :=
  match value with
  | None => true
  | Some [] => true
  | Some (_ :: _) => false
  end.

(** *** [loadIndex] *)

Inductive log :=
  | Info (vectors : Z) (model : option jsstring)
  | Warning
  | Failure.

(** [vectorIndex.vectors?.length || 0], for an index whose [vectors] is an
    array or has no [length]: a [vectors] that is no array counts for 0
    here. *)
Definition vector_count (index : Index) : Z :=
  match vectors index with
  | Some vs => len vs
  | None => 0
  end.

(** [loadIndex] awaits twice. Where a call stands: *)
Inductive pc :=
  | AtPathExists    (* awaiting [fs.pathExists] *)
  | AtReadFile      (* awaiting [fs.readFile] *)
  | Returned.

(** From the answer of [pathExists] to the next await or the end. *)
Definition after_pathExists (answer : option bool) : pc * list log :=
  match answer with
  | Some true => (AtReadFile, [])
  | Some false => (Returned, [Warning])
  | None => (Returned, [Failure])
  end.

(** From the answer of [readFile] to the end: the one assignment to
    [vectorIndex], after [JSON.parse] has returned. When the file holds
    [null] the assignment is made and the log statement after it throws. *)
Definition after_readFile (w : World) (answer : option jsstring)
  (vectorIndex : option Index) : option Index * list log :=
  match answer with
  | None => (vectorIndex, [Failure])
  | Some raw =>
      match JSON_parse w raw with
      | None => (vectorIndex, [Failure])
      | Some None => (None, [Failure])
      | Some (Some index) => (Some index, [Info (vector_count index) (model index)])
      end
  end.

(** The file system as one call of [loadIndex] meets it. *)
Record Files := { pathExists : option bool; readFile : option jsstring }.

(** One call of [loadIndex], run to its end. *)
Definition loadIndex (w : World) (files : Files) (vectorIndex : option Index)
  : option Index * list log :=
  match after_pathExists (pathExists files) with
  | (AtReadFile, _) => after_readFile w (readFile files) vectorIndex
  | (_, logs) => (vectorIndex, logs)
  end.

(** Calls of [loadIndex] in flight (the one at startup, one for each
    [POST /admin/reload]) share the variable [vectorIndex]; between two
    awaits of one call, other calls and the request handlers run. [seen]
    records what the handlers read from the variable, latest first. *)
Record system := System {
  index_var : option Index;
  calls : list pc;
  seen : list (option Index)
}.

Inductive step (w : World) : system -> system -> Prop :=
  | step_call s :
      step w s (System (index_var s) (calls s ++ [AtPathExists]) (seen s))
  | step_pathExists s i answer :
      calls s !! i = Some AtPathExists ->
      step w s (System (index_var s)
                       (<[i := fst (after_pathExists answer)]> (calls s))
                       (seen s))
  | step_readFile s i answer :
      calls s !! i = Some AtReadFile ->
      step w s (System (fst (after_readFile w answer (index_var s)))
                       (<[i := Returned]> (calls s))
                       (seen s))
  | step_query s :
      step w s (System (index_var s) (calls s) (index_var s :: seen s)).

(** A value [JSON.parse] returned whole for some text. *)
Definition parsed (w : World) (v : option Index) : Prop :=
  exists raw, JSON_parse w raw = Some v.

(** A value of [vectorIndex] that is not in the making: the one the
    variable started with, or one [JSON.parse] returned. *)
Definition whole (w : World) (v0 v : option Index) : Prop :=
  v = v0 \/ parsed w v.

(** *** Answering *)

Definition newline : jsstring := [10%N].

(** [lines.join(sep)] *)
Fixpoint join (sep : jsstring) (lines : list jsstring) : jsstring :=
  match lines with
  | [] => []
  | [l] => l
  | l :: ls => l ++ sep ++ join sep ls
  end.

Definition buildSystemPrompt : jsstring :=
  join newline
    [ lit "You are the Arcade (https://www.arcade.ai/) AI customer support agent.";
      lit "- Be concise, accurate, and helpful. Use a friendly, professional tone.";
      lit "- Prefer information from the provided CONTEXT. If the answer is not in CONTEXT, say you will connect them to a human agent rather than guessing.";
      lit "- When appropriate, include 1-3 helpful links from CONTEXT.";
      lit "- Never invent product capabilities or pricing." ].

Definition source_block (i : nat) (c : Scored) : jsstring :=
  lit "# Source " ++ decimal (i + 1) ++ newline
  ++ lit "Title: " ++ title (record c) ++ newline
  ++ lit "URL: " ++ url (record c) ++ newline
  ++ lit "-----" ++ newline
  ++ content (record c).

Definition buildUserPrompt (question : jsstring) (contexts : list Scored) : jsstring :=
  let contextBlock :=
    join (newline ++ newline)
         (map (fun ic => source_block (fst ic) (snd ic))
              (combine (seq 0 (length contexts)) contexts)) in
  lit "CONTEXT:" ++ newline ++ contextBlock ++ newline ++ newline
  ++ lit "USER QUESTION:" ++ newline ++ question.

Definition fallback_reply : jsstring :=
  lit "I'm not sure yet; let me connect you with a human teammate.".

(** A call to a service outside the process. *)
Inductive call :=
  | Embedding (text : jsstring)
  | Completion (system user : jsstring).

Record Answer := { reply : jsstring; sources : list (jsstring * jsstring) }.

(** [answerQuestion]: the answer, or [None] when a service failed, and the
    calls made. *)
Definition answerQuestion (w : World) (vectorIndex : option Index) (question : jsstring)
  : option Answer * list call :=
  match embedText w question with
  | None => (None, [Embedding question])
  | Some qEmbedding =>
      let contexts := selectTopK vectorIndex qEmbedding 6 in
      let system := buildSystemPrompt in
      let user := buildUserPrompt question contexts in
      match complete w system user with
      | None => (None, [Embedding question; Completion system user])
      | Some content =>
          let text :=
            match content with
            | Some c => match trim c with [] => fallback_reply | t => t end
            | None => fallback_reply
            end in
          (Some {| reply := text;
                   sources := map (fun c => (title (record c), url (record c)))
                                  (slice contexts 0 3) |},
           [Embedding question; Completion system user])
      end
  end.

(** *** Requests *)

Inductive request :=
  | GET_health
  | POST_bot_answer (question : option jsstring)   (* [req.body?.question] *)
  | GET_test (q : option jsstring)                 (* [req.query.q] *)
  | POST_admin_reload (files : Files).

Inductive body :=
  | Ok
  | Error (message : jsstring)
  | Answered (answer : Answer)
  | Reloaded (vectors : Z).

Record response := { status : Z; payload : body }.

(** [(value || '').toString().trim()] *)
Definition text_of (value : option jsstring) : jsstring :=
  trim (match value with Some s => s | None => [] end).

(** A request handled to its end: the response, the calls made to the
    services, and [vectorIndex] afterwards. *)
Definition handle (w : World) (vectorIndex : option Index) (r : request)
  : response * list call * option Index :=
  match r with
  | GET_health => ({| status := 200; payload := Ok |}, [], vectorIndex)
  | POST_bot_answer q =>
      let question := text_of q in
      if unset (OPENAI_API_KEY w) then
        ({| status := 500; payload := Error (lit "Missing OPENAI_API_KEY") |}, [], vectorIndex)
      else
        match question with
        | [] => ({| status := 400; payload := Error (lit "Missing `question`") |}, [], vectorIndex)
        | _ =>
            match answerQuestion w vectorIndex question with
            | (Some a, made) => ({| status := 200; payload := Answered a |}, made, vectorIndex)
            | (None, made) =>
                ({| status := 500; payload := Error (lit "Internal error") |}, made, vectorIndex)
            end
        end
  | GET_test q =>
      match text_of q with
      | [] => ({| status := 400; payload := Error (lit "Missing q") |}, [], vectorIndex)
      | question =>
          match answerQuestion w vectorIndex question with
          | (Some a, made) => ({| status := 200; payload := Answered a |}, made, vectorIndex)
          | (None, made) =>
              ({| status := 500; payload := Error (lit "Internal error") |}, made, vectorIndex)
          end
      end
  | POST_admin_reload files =>
      let vectorIndex' := fst (loadIndex w files vectorIndex) in
      ({| status := 200;
          payload := Reloaded (match vectorIndex' with
                               | Some index => vector_count index
                               | None => 0
                               end) |},
       [], vectorIndex')
  end.

(** The process from its first line: it ends at once when the client
    cannot be built, and otherwise loads the index and listens. *)
Inductive process :=
  | Aborted
  | Listening (port : Z) (vectorIndex : option Index).

Definition start (w : World) (files : Files) : process :=
  if sdk_rejects w (OPENAI_API_KEY w) then Aborted
  else
    Listening (match PORT w with Some p => p | None => 8787 end)
              (fst (loadIndex w files None)).

(** The requests of a run, served in turn. *)
Fixpoint serve (w : World) (vectorIndex : option Index) (requests : list request)
  : list (response * list call) :=
  match requests with
  | [] => []
  | r :: requests' =>
      let '(res, made, vectorIndex') := handle w vectorIndex r in
      (res, made) :: serve w vectorIndex' requests'
  end.

Definition run (w : World) (files : Files) (requests : list request)
  : option (list (response * list call)) :=
  match start w files with
  | Aborted => None
  | Listening _ vectorIndex => Some (serve w vectorIndex requests)
  end.

End Server.

(** ** The body of a request *)

Module Wire.

Import Retriever Server.

(** [req.body?.question] as the JSON parser leaves it. *)
Inductive question :=
  | Falsy                        (* no body, no property, [null], [false], 0 or '' *)
  | Printable (text : jsstring)  (* a value whose [toString()] returns [text] *)
  | Unprintable.                 (* a value whose [toString] cannot be called *)

(** [POST /bot/answer]. The question is read inside the [try], before the
    key is looked at: a [toString] that throws ends in the [catch]. *)
Definition bot_answer (w : World) (vectorIndex : option Index) (q : question)
  : response * list call * option Index :=
  match q with
  | Falsy => handle w vectorIndex (POST_bot_answer None)
  | Printable text => handle w vectorIndex (POST_bot_answer (Some text))
  | Unprintable =>
      ({| status := 500; payload := Error (lit "Internal error") |}, [], vectorIndex)
  end.

End Wire.

(** ** What a text shows *)

Module Content.

(** The code units of [s] that are not white space, in order. *)
Definition visible (s : jsstring) : jsstring :=
  List.filter (fun c => negb (is_ws c)) s.

End Content.

(** ** The text of a page ([scripts/ingest.js], [extractTitleAndText]) *)

Module Extract.

(** [s.replace(/\s+/g, ' ')]: each maximal run of white space becomes one
    space. [in_run] tells that the code unit before was white space, and the
    space for its run is already written. The class [\s] is the set [trim]
    strips. *)
Fixpoint squeeze_from (in_run : bool) (s : jsstring) : jsstring :=
  match s with
  | [] => []
  | c :: r =>
      if is_ws c then
        if in_run then squeeze_from true r else 32%N :: squeeze_from true r
      else c :: squeeze_from false r
  end.

Definition squeeze (s : jsstring) : jsstring := squeeze_from false s.

Section Page.

(** What cheerio reads from the markup: the text of the first [title]
    element (empty when there is none), and the text of [body] once the
    [script], [noscript] and [style] elements are removed. *)
Context (title_of body_of : jsstring -> jsstring).

Definition extractTitleAndText (html : jsstring) : jsstring * jsstring :=
  (trim (title_of html), trim (squeeze (body_of html))).

End Page.

(** [c] and [d] stand side by side in [s]. *)
Definition adjacent (s : jsstring) (c d : N) : Prop :=
  exists p q, s = p ++ c :: d :: q.

(** No two white-space code units stand side by side in [s], nor does [s]
    start with one when [after_ws] says that one stood before it. *)
Fixpoint spaced (after_ws : bool) (s : jsstring) : Prop :=
  match s with
  | [] => True
  | c :: r => (after_ws = true -> is_ws c = false) /\ spaced (is_ws c) r
  end.

End Extract.

(** ** The command line ([scripts/ingest.js], [parseArgs]) *)

Module Cli.

(** A property of the object [args]: the text after the '=' of its
    argument, or [true] for an argument without '='. *)
Inductive value :=
  | Str (s : jsstring)
  | Flag.

(** The text before the first '=' and, when there is one, the text after
    it. *)
Fixpoint cut (s : jsstring) : jsstring * option jsstring :=
  match s with
  | [] => ([], None)
  | c :: r =>
      if (c =? 61)%N then ([], Some r)
      else let (k, rest) := cut r in (c :: k, rest)
  end.

(** [const [k, v] = kv.split('=')]: the first two parts; [v] is [undefined]
    when [kv] has no '='. *)
Definition split_kv (kv : jsstring) : jsstring * option jsstring :=
  let (k, rest) := cut kv in
  (k, match rest with Some r => Some (fst (cut r)) | None => None end).

(** [k.replace(/^--/, '')] *)
Definition strip_dashes (k : jsstring) : jsstring :=
  match k with
  | 45%N :: 45%N :: r => r
  | _ => k
  end.

(** [[k.replace(/^--/, ''), v ?? true]] *)
Definition entry (kv : jsstring) : jsstring * value :=
  let (k, v) := split_kv kv in
  (strip_dashes k, match v with Some s => Str s | None => Flag end).

(** [args.key] on the object [Object.fromEntries] builds: of the entries
    with that key the last one counts. *)
Definition get (entries : list (jsstring * value)) (key : jsstring) : option value :=
  fold_left (fun found e => if bool_decide (fst e = key) then Some (snd e) else found)
            entries None.

(** [value || fallback] *)
Definition or_else (v : option value) (fallback : value) : value :=
  match v with
  | None => fallback
  | Some (Str []) => fallback
  | Some v => v
  end.

Record Parsed := {
  site : value;
  limit : float;
  timeoutMs : float;
  user_agent : jsstring
}.

Section Parse.

(** [Number(s)] on a string that is not empty. *)
Context (Number : jsstring -> float).

(** [Number(value || fallback)] where the fallback is a number:
    [Number(true)] is 1. *)
Definition number_or (v : option value) (fallback : float) : float :=
  match v with
  | None => fallback
  | Some (Str []) => fallback
  | Some (Str s) => Number s
  | Some Flag => 1%float
  end.

(** [parseArgs], on the whole of [process.argv]. *)
Definition parseArgs (argv : list jsstring) : Parsed :=
  let args := map entry (skipn 2 argv) in
  {| site := or_else (get args (lit "site")) (Str (lit "https://www.arcade.ai"));
     limit := number_or (get args (lit "limit")) 40%float;
     timeoutMs := number_or (get args (lit "timeoutMs")) 15000%float;
     user_agent := lit "ArcadeBotIngest/0.1 (+https://www.arcade.ai/)" |}.

End Parse.

(** The key an argument sets. *)
Definition key_of (kv : jsstring) : jsstring := fst (entry kv).

End Cli.

(** ** What a run of the ingestion asks of the site *)

Module Run.

(** The pages a run requested, in order. *)
Definition pages (events : list Ingest.event) : list jsstring :=
  flat_map (fun e => match e with Ingest.Get url => [url] | _ => [] end) events.

End Run.

(** ** Sample data *)

Module Samples.

Import Similarity Retriever.

Definition page (name : string) (e : vector) : VectorRecord :=
  {| id := lit name; url := lit name; title := []; content := lit name; embedding := e |}.

(** Scenario 1 of the specification: three vectors [1,0], [0,1], [0.9,0.1]
    (0.9 and 0.1 are the doubles JavaScript reads for them). *)
Definition three_vectors : list VectorRecord :=
  [ page "first" [1; 0]%float;
    page "second" [0; 1]%float;
    page "third" [0x1.ccccccccccccdp-1; 0x1.999999999999ap-4]%float ].

Definition three_index : option Index :=
  Some {| vectors := Some three_vectors; model := Some (lit "text-embedding-3-small") |}.

(** An index whose second record has a component so large that its product
    with the query overflows: the score of that record is NaN. *)
Definition overflow_vectors : list VectorRecord :=
  [ page "low" [0; 1]%float;
    page "huge" [0x1p1000; 0]%float;
    page "best" [1; 0]%float ].

Definition overflow_index : option Index :=
  Some {| vectors := Some overflow_vectors; model := None |}.

Definition overflow_query : vector := [0x1p40; 0]%float.

(** The three vectors of scenario 1 in a store: the records at 1, 2 and 3,
    the array [vectors] at 4. *)
Definition three_state : Store.state :=
  Store.State
    (Some {| Store.vectors_ref := Some 4%positive;
             Store.model_ref := Some (lit "text-embedding-3-small") |})
    (<[4%positive := Store.Arr [1; 2; 3]%positive]>
       (<[3%positive := Store.Obj (page "third" [0x1.ccccccccccccdp-1; 0x1.999999999999ap-4]%float) None]>
          (<[2%positive := Store.Obj (page "second" [0; 1]%float) None]>
             (<[1%positive := Store.Obj (page "first" [1; 0]%float) None]> ∅)))).

(** A stand-in for [JSON.parse], enough for the sample files: it reads
    [null], the object without properties, and nothing else. *)
Definition sample_parse (raw : jsstring) : option (option Retriever.Index) :=
  if bool_decide (raw = lit "null") then Some None
  else if bool_decide (raw = lit "{}") then
    Some (Some {| Retriever.vectors := None; Retriever.model := None |})
  else None.

(** A server whose key is set but empty, with a client library that
    refuses only a key that is not set at all. *)
Definition keyless_server : Server.World :=
  {| Server.OPENAI_API_KEY := Some [];
     Server.PORT := None;
     Server.sdk_rejects := fun key => match key with None => true | Some _ => false end;
     Server.JSON_parse := sample_parse;
     Server.embedText := fun _ => None;
     Server.complete := fun _ _ => None |}.

Definition no_index_file : Server.Files :=
  {| Server.pathExists := Some false; Server.readFile := None |}.

Definition empty_object_file : Server.Files :=
  {| Server.pathExists := Some true; Server.readFile := Some (lit "{}") |}.

(** A stand-in for the URL parser of the platform, enough for the sample
    URLs: it reads [scheme://host] and [scheme://host/path]. *)
Fixpoint split_at (c : N) (s : jsstring) : option (jsstring * jsstring) :=
  match s with
  | [] => None
  | x :: r =>
      if (x =? c)%N then Some ([], r)
      else match split_at c r with
           | Some (a, b) => Some (x :: a, b)
           | None => None
           end
  end.

Definition sample_url (s : jsstring) : option Ingest.URL :=
  match split_at 58 s with
  | Some (c :: scheme, 47%N :: 47%N :: rest) =>
      match (match split_at 47 rest with Some (h, _) => h | None => rest end) with
      | [] => None
      | h => Some {| Ingest.protocol := (c :: scheme) ++ [58%N]; Ingest.host := h |}
      end
  | _ => None
  end.

Definition docs_url : jsstring := lit "https://www.arcade.ai/docs".

(** A site whose sitemap lists one page twice; the text of the page is 250
    code units long. *)
Definition twice_listed : Ingest.World :=
  {| Ingest.OPENAI_API_KEY := Some (lit "sk-test");
     Ingest.EMBEDDING_MODEL := None;
     Ingest.sdk_rejects := fun _ => false;
     Ingest.parse_url := sample_url;
     Ingest.resolve := fun href _ => Some href;
     Ingest.sitemap := fun _ => Some [Some docs_url; Some docs_url];
     Ingest.anchors := fun _ => None;
     Ingest.fetch := fun _ => Some (lit "<html>");
     Ingest.extractTitleAndText := fun _ => (lit "Docs", repeat 97%N 250);
     Ingest.embedBatch := fun chunks => Some (map (fun _ => [1; 0]%float) chunks);
     Ingest.clock := lit "2025-01-01T00:00:00.000Z";
     Ingest.disk_error := None |}.

End Samples.

(** ** Several queries on one store *)

Module Session.

(** Calls of [selectTopK] one after the other, each with its query and its
    [k], on the store the calls before it left. *)
Definition rank_all (queries : list (Similarity.vector * Z)) : Store.M (list Store.loc) :=
  Store.for_each (fun qk => Store.selectTopK (fst qk) (snd qk)) queries.

End Session.

(** ** More sample data *)

Module Scenarios.

(** A site without sitemap whose homepage links to its page /docs twice,
    to a page of another host, and has an anchor with an empty [href]; the
    embedding service gives one embedding for each batch, however many
    chunks it holds. *)
Definition linked_site : Ingest.World :=
  {| Ingest.OPENAI_API_KEY := Some (lit "sk-test");
     Ingest.EMBEDDING_MODEL := None;
     Ingest.sdk_rejects := fun _ => false;
     Ingest.parse_url := Samples.sample_url;
     Ingest.resolve := fun href site =>
       Some (match href with 47%N :: _ => site ++ href | _ => href end);
     Ingest.sitemap := fun _ => None;
     Ingest.anchors := fun _ =>
       Some [lit "/docs"; lit "/docs"; lit "https://other.example/x"; []];
     Ingest.fetch := fun _ => Some (lit "<html>");
     Ingest.extractTitleAndText := fun _ => (lit "Docs", repeat 97%N 2500);
     Ingest.embedBatch := fun _ => Some [[1; 0]%float];
     Ingest.clock := lit "2025-01-01T00:00:00.000Z";
     Ingest.disk_error := None |}.

(** A site whose sitemap is served, with an entry padded with spaces, one
    without [loc] and one of another host, and none of whose pages is. *)
Definition unreachable_site : Ingest.World :=
  {| Ingest.OPENAI_API_KEY := Some (lit "sk-test");
     Ingest.EMBEDDING_MODEL := Some (lit "text-embedding-3-large");
     Ingest.sdk_rejects := fun _ => false;
     Ingest.parse_url := Samples.sample_url;
     Ingest.resolve := fun _ _ => None;
     Ingest.sitemap := fun _ => Some [Some (lit " https://www.arcade.ai/a "); None;
                                      Some (lit "https://elsewhere.example/b")];
     Ingest.anchors := fun _ => None;
     Ingest.fetch := fun _ => None;
     Ingest.extractTitleAndText := fun _ => ([], []);
     Ingest.embedBatch := fun _ => None;
     Ingest.clock := lit "2025-01-01T00:00:00.000Z";
     Ingest.disk_error := None |}.

(** A server with its key set whose services answer: the completion comes
    with white space around it. *)
Definition helpful_server : Server.World :=
  {| Server.OPENAI_API_KEY := Some (lit "sk-test");
     Server.PORT := None;
     Server.sdk_rejects := fun _ => false;
     Server.JSON_parse := Samples.sample_parse;
     Server.embedText := fun _ => Some [1; 0]%float;
     Server.complete := fun _ _ => Some (Some (lit "  Arcade builds tools.  ")) |}.


(** A server with its key set that reaches no service. *)
Definition offline_server : Server.World :=
  {| Server.OPENAI_API_KEY := Some (lit "sk-test");
     Server.PORT := None;
     Server.sdk_rejects := fun _ => false;
     Server.JSON_parse := Samples.sample_parse;
     Server.embedText := fun _ => None;
     Server.complete := fun _ _ => None |}.

End Scenarios.

(** * Properties *)

(** ** Strings *)

Section StringFacts.

Import JsString.

Lemma len_nonneg {A} (s : list A) : 0 <= len s.
Proof. unfold len. lia. Qed.

Lemma len_nil_iff {A} (s : list A) : len s = 0 <-> s = [].
Proof.
  unfold len. destruct s; simpl; split; intros H; try reflexivity; try discriminate; lia.
Qed.

Lemma len_app {A} (s t : list A) : len (s ++ t) = len s + len t.
Proof. unfold len. rewrite length_app. lia. Qed.

Lemma slice_length_le {A} (s : list A) (a b d : Z) :
  0 <= a -> 0 <= b -> b - a <= d -> 0 <= d -> len (slice s a b) <= d.
Proof.
  intros Ha Hb Hd Hd0. unfold slice, rel_index.
  assert (Hl := len_nonneg s).
  destruct (Z.ltb_spec a 0); [lia|]. destruct (Z.ltb_spec b 0); [lia|].
  unfold len at 1. rewrite length_firstn. lia.
Qed.

Lemma slice_whole {A} (s : list A) (b : Z) : len s <= b -> slice s 0 b = s.
Proof.
  intros Hb. unfold slice, rel_index. assert (Hl := len_nonneg s).
  destruct (Z.ltb_spec 0 0); [lia|]. destruct (Z.ltb_spec b 0); [lia|].
  rewrite Z.min_r by lia. rewrite Z.min_l by lia. simpl skipn.
  rewrite Z.sub_0_r, Z.max_l by lia. unfold len. rewrite Nat2Z.id.
  apply firstn_all.
Qed.

Lemma trimStart_length (s : jsstring) : (length (trimStart s) <= length s)%nat.
Proof.
  induction s as [|c r IH]; simpl; [lia|]. destruct (is_ws c); simpl; lia.
Qed.

Lemma trim_len_le (s : jsstring) : len (trim s) <= len s.
Proof.
  unfold trim, trimEnd, len. rewrite length_rev.
  assert (H1 := trimStart_length (rev (trimStart s))).
  assert (H2 := trimStart_length s). rewrite length_rev in H1. lia.
Qed.

(** What [trimStart] returns is empty or starts with a code unit that is
    not white space. *)
Lemma trimStart_head (s : jsstring) :
  match trimStart s with [] => True | c :: _ => is_ws c = false end.
Proof.
  induction s as [|c r IH]; simpl; [exact I|].
  destruct (is_ws c) eqn:E; [exact IH|exact E].
Qed.

Lemma trimStart_blank (s : jsstring) : trimStart s = [] <-> blank s = true.
Proof.
  unfold blank. induction s as [|c r IH]; simpl; [tauto|].
  destruct (is_ws c); simpl; [exact IH|]. split; discriminate.
Qed.

Lemma blank_rev (s : jsstring) : blank (rev s) = blank s.
Proof.
  unfold blank. induction s as [|c r IH]; simpl; [reflexivity|].
  rewrite forallb_app, IH. simpl. rewrite andb_true_r. apply andb_comm.
Qed.

Lemma trimStart_suffix (s : jsstring) : exists p, s = p ++ trimStart s /\ blank p = true.
Proof.
  induction s as [|c r [p [Hp Hb]]]; simpl.
  - exists []. split; reflexivity.
  - destruct (is_ws c) eqn:E.
    + exists (c :: p). simpl. rewrite E, Hb. split; [now f_equal|reflexivity].
    + exists []. split; reflexivity.
Qed.

Lemma blank_app (s t : jsstring) : blank (s ++ t) = blank s && blank t.
Proof. apply forallb_app. Qed.

(** [trim] gives the empty string exactly on blank strings, and a string it
    returns is blank only if it is empty. *)
Lemma trim_nil_iff (s : jsstring) : trim s = [] <-> blank s = true.
Proof.
  unfold trim, trimEnd. destruct (trimStart_suffix s) as [p [Hp Hb]].
  split.
  - intros H. assert (H' : trimStart (rev (trimStart s)) = []).
    { destruct (trimStart (rev (trimStart s))) as [|c r]; [reflexivity|].
      simpl in H. destruct (rev r); discriminate. }
    apply trimStart_blank in H'. rewrite blank_rev in H'.
    rewrite Hp, blank_app, Hb, H'. reflexivity.
  - intros H. rewrite Hp, blank_app, Hb in H. simpl in H.
    rewrite <- blank_rev in H. apply trimStart_blank in H. now rewrite H.
Qed.

Lemma trim_not_blank (s : jsstring) : trim s <> [] -> blank (trim s) = false.
Proof.
  unfold trim, trimEnd. intros H.
  assert (Hh := trimStart_head (rev (trimStart s))).
  destruct (trimStart (rev (trimStart s))) as [|c r] eqn:E; [now elim H|].
  rewrite blank_rev. unfold blank. simpl. now rewrite Hh.
Qed.

End StringFacts.

(** ** Binary64 facts *)

Section FloatFacts.

Import FloatOrder.
Local Abbreviation fexp := (SpecFloat.fexp prec emax).

Lemma SFcompare_key s1 s2 :
  s1 <> S754_nan -> s2 <> S754_nan ->
  SFcompare s1 s2 = Some (lexcmp (key s1) (key s2)).
Proof.
  intros H1 H2.
  destruct s1 as [b1|b1| |b1 m1 e1], s2 as [b2|b2| |b2 m2 e2]; try congruence;
    try destruct b1; try destruct b2; try reflexivity.
  - cbn [SFcompare key lexcmp]. change (-1 ?= -1) with Eq. cbv iota.
    rewrite Z.compare_opp. rewrite (Z.compare_antisym e1 e2).
    destruct (e1 ?= e2); reflexivity.
Qed.

Lemma lexcmp_Lt a b : lexcmp a b = Lt <-> lexlt a b.
Proof.
  destruct a as [[a1 a2] a3], b as [[b1 b2] b3]. unfold lexcmp, lexlt. cbn [fst snd].
  destruct (Z.compare_spec a1 b1); [destruct (Z.compare_spec a2 b2);
    [destruct (Z.compare_spec a3 b3)|..]|..]; split; intros; try discriminate; try reflexivity; lia.
Qed.

Lemma lexcmp_Eq a b : lexcmp a b = Eq <-> a = b.
Proof.
  destruct a as [[a1 a2] a3], b as [[b1 b2] b3]. unfold lexcmp.
  destruct (Z.compare_spec a1 b1); [destruct (Z.compare_spec a2 b2);
    [destruct (Z.compare_spec a3 b3)|..]|..]; split; intros H'; try discriminate;
    try reflexivity; try (injection H'; lia); congruence.
Qed.

Lemma lexcmp_Gt a b : lexcmp a b = Gt <-> lexlt b a.
Proof.
  destruct a as [[a1 a2] a3], b as [[b1 b2] b3]. unfold lexcmp, lexlt. cbn [fst snd].
  destruct (Z.compare_spec a1 b1); [destruct (Z.compare_spec a2 b2);
    [destruct (Z.compare_spec a3 b3)|..]|..]; split; intros; try discriminate; try reflexivity; lia.
Qed.


Lemma number_spec x : number x <-> Prim2SF x <> S754_nan.
Proof.
  unfold number, Prim2SF. destruct (is_nan x); [split; [discriminate|congruence]|].
  split; [intros _|reflexivity].
  destruct (is_zero x); [discriminate|]. destruct (is_infinity x); [discriminate|].
  destruct (Z.frexp x) as [r e].
  destruct (shr_fexp prec emax _ _ _) as [m e']. destruct (shr_m m); discriminate.
Qed.

Lemma ltb_key x y :
  number x -> number y -> ((x <? y)%float = true <-> lexlt (fkey x) (fkey y)).
Proof.
  intros Hx Hy. apply number_spec in Hx, Hy. rewrite ltb_spec. unfold SFltb. rewrite SFcompare_key by assumption.
  rewrite <- lexcmp_Lt. fold (fkey x) (fkey y).
  destruct (lexcmp (fkey x) (fkey y)); split; intros; try discriminate; reflexivity.
Qed.

Lemma leb_key x y :
  number x -> number y -> ((x <=? y)%float = true <-> ~ lexlt (fkey y) (fkey x)).
Proof.
  intros Hx Hy. apply number_spec in Hx, Hy. rewrite leb_spec. unfold SFleb. rewrite SFcompare_key by assumption.
  fold (fkey x) (fkey y).
  destruct (lexcmp (fkey x) (fkey y)) eqn:E.
  - apply lexcmp_Eq in E. rewrite E. split; [|reflexivity].
    intros _ H. unfold lexlt in H. lia.
  - apply lexcmp_Lt in E. split; [|reflexivity]. intros _ H.
    unfold lexlt in *. lia.
  - apply lexcmp_Gt in E. split; [discriminate|]. intros H. now elim H.
Qed.

Lemma eqb_key x y :
  number x -> number y -> ((x =? y)%float = true <-> fkey x = fkey y).
Proof.
  intros Hx Hy. apply number_spec in Hx, Hy. rewrite eqb_spec. unfold SFeqb. rewrite SFcompare_key by assumption.
  fold (fkey x) (fkey y). rewrite <- lexcmp_Eq.
  destruct (lexcmp (fkey x) (fkey y)); split; intros; try discriminate; reflexivity.
Qed.

Lemma digits2_size m : Zpos (digits2_pos m) = Zpos (Pos.size m).
Proof. induction m; simpl; congruence. Qed.

Lemma digits2_bounds m :
  2 ^ (Zpos (digits2_pos m) - 1) <= Zpos m < 2 ^ Zpos (digits2_pos m).
Proof.
  rewrite digits2_size. split.
  - assert (H : Zpos (2 ^ Pos.size m) <= Zpos m~0) by exact (Pos.size_le m).
    rewrite Pos2Z.inj_pow in H.
    replace (Zpos (Pos.size m)) with (Z.succ (Zpos (Pos.size m) - 1)) in H by lia.
    rewrite Z.pow_succ_r in H by lia. lia.
  - assert (H : Zpos m < Zpos (2 ^ Pos.size m)) by exact (Pos.size_gt m).
    now rewrite Pos2Z.inj_pow in H.
Qed.

Lemma shr_1_m mrs : 0 <= shr_m mrs -> shr_m (shr_1 mrs) = Z.div2 (shr_m mrs).
Proof.
  destruct mrs as [m r s]. simpl. destruct m as [|p|p]; [reflexivity| |lia].
  destruct p; reflexivity.
Qed.

Lemma iter_shr_m p : forall mrs,
  0 <= shr_m mrs -> shr_m (SpecFloat.iter_pos shr_1 p mrs) = shr_m mrs / 2 ^ Zpos p.
Proof.
  assert (Hdiv : forall z, 0 <= z -> 0 <= Z.div2 z).
  { intros z Hz. rewrite Z.div2_div. apply Z.div_pos; lia. }
  assert (Hpow : forall q, 0 < 2 ^ Zpos q) by (intros q; apply Z.pow_pos_nonneg; lia).
  induction p as [p IH|p IH|]; intros mrs Hm; cbn [SpecFloat.iter_pos]; try specialize (Hpow p).
  - assert (H1 : 0 <= shr_m (shr_1 mrs)) by (rewrite shr_1_m by lia; auto).
    assert (H2 : 0 <= shr_m (SpecFloat.iter_pos shr_1 p (shr_1 mrs))).
    { rewrite IH by lia. apply Z.div_pos; lia. }
    assert (E : 2 ^ Zpos p~1 = 2 * 2 ^ Zpos p * 2 ^ Zpos p).
    { replace (Zpos p~1) with (Z.succ (Zpos p + Zpos p)) by lia.
      rewrite Z.pow_succ_r, Z.pow_add_r by lia. ring. }
    rewrite IH by lia. rewrite IH by lia. rewrite shr_1_m by lia.
    rewrite Z.div2_div. rewrite (Z.div_div _ 2) by lia. rewrite Z.div_div by lia.
    now rewrite E.
  - assert (H2 : 0 <= shr_m (SpecFloat.iter_pos shr_1 p mrs)).
    { rewrite IH by lia. apply Z.div_pos; lia. }
    assert (E : 2 ^ Zpos p~0 = 2 ^ Zpos p * 2 ^ Zpos p).
    { replace (Zpos p~0) with (Zpos p + Zpos p) by lia.
      rewrite Z.pow_add_r by lia. ring. }
    rewrite IH by lia. rewrite IH by lia. rewrite Z.div_div by lia. now rewrite E.
  - rewrite shr_1_m by lia. now rewrite Z.div2_div.
Qed.

Lemma shr_record_m m l : shr_m (shr_record_of_loc m l) = m.
Proof. destruct l as [|[]]; reflexivity. Qed.


Lemma shr_fexp_pos m e l :
  0 < m -> emin <= e ->
  0 < shr_m (fst (shr_fexp prec emax m e l)) /\ emin <= snd (shr_fexp prec emax m e l).
Proof.
  intros Hm He. unfold shr_fexp, shr.
  destruct m as [|p|p]; try lia. cbn [Zdigits2].
  destruct (fexp (Zpos (digits2_pos p) + e) - e) as [|n|n] eqn:En; cbn [fst snd];
    rewrite ?shr_record_m; try (split; lia).
  rewrite iter_shr_m by (rewrite shr_record_m; lia). rewrite shr_record_m.
  assert (Hd := digits2_bounds p).
  unfold SpecFloat.fexp in En. unfold prec, emax, SpecFloat.emin in *.
  split; [|lia].
  apply Z.div_str_pos. split; [lia|].
  etransitivity; [|apply Hd]. apply Z.pow_le_mono_r; lia.
Qed.

Lemma round_nearest_even_pos m l : 0 < m -> 0 < round_nearest_even m l.
Proof. intros Hm. destruct l as [|[]]; simpl; try lia. destruct (Z.even m); lia. Qed.

Lemma binary_round_aux_sign s m e l :
  0 < m -> emin <= e ->
  (exists m' e', binary_round_aux prec emax s m e l = S754_finite s m' e')
  \/ binary_round_aux prec emax s m e l = S754_infinity s.
Proof.
  intros Hm He. unfold binary_round_aux.
  destruct (shr_fexp_pos m e l Hm He) as [H1 H2].
  destruct (shr_fexp prec emax m e l) as [mrs' e']. cbn [fst snd] in *.
  assert (H3 := round_nearest_even_pos (shr_m mrs') (loc_of_shr_record mrs') H1).
  destruct (shr_fexp_pos _ e' loc_Exact H3 H2) as [H4 H5].
  destruct (shr_fexp prec emax _ e' loc_Exact) as [mrs'' e'']. cbn [fst snd] in *.
  destruct (shr_m mrs'') as [|p|p]; try lia.
  destruct (e'' <=? emax - prec); [left; eauto|now right].
Qed.

Lemma fexp_ge_emin z : emin <= fexp z.
Proof. unfold SpecFloat.fexp. lia. Qed.

Lemma binary_round_sign s m e :
  emin <= e ->
  (exists m' e', binary_round prec emax s m e = S754_finite s m' e')
  \/ binary_round prec emax s m e = S754_infinity s.
Proof.
  intros He. unfold binary_round, shl_align.
  destruct (fexp (Zpos (digits2_pos m) + e) - e) as [|d|d] eqn:Ed;
    apply binary_round_aux_sign; try lia.
  apply fexp_ge_emin.
Qed.

Lemma binary_normalize_sign M e :
  emin <= e ->
  SFltb (S754_zero false) (binary_normalize prec emax M e false) = (0 <? M).
Proof.
  intros He. unfold binary_normalize. destruct M as [|p|p].
  - reflexivity.
  - destruct (binary_round_sign false p e He) as [[m' [e' ->]]| ->]; reflexivity.
  - destruct (binary_round_sign true p e He) as [[m' [e' ->]]| ->]; reflexivity.
Qed.

Lemma shl_align_val m e e' :
  e' <= e -> Zpos (fst (shl_align m e e')) = Zpos m * 2 ^ (e - e').
Proof.
  intros H. unfold shl_align. destruct (e' - e) as [|d|d] eqn:Ed; cbn [fst]; try lia.
  - replace (e - e') with 0 by lia. lia.
  - replace (e - e') with (Zpos d) by lia. clear.
    induction d as [|d IH] using Pos.peano_ind.
    + simpl. lia.
    + rewrite Pos.iter_succ. rewrite Pos2Z.inj_xO, IH, Pos2Z.inj_succ, Z.pow_succ_r by lia. lia.
Qed.

(** Canonical mantissas *)
Lemma bounded_canonical m e :
  SpecFloat.bounded prec emax m e = true ->
  emin <= e /\ Zpos (digits2_pos m) <= prec /\ (emin < e -> Zpos (digits2_pos m) = prec).
Proof.
  unfold SpecFloat.bounded, canonical_mantissa, SpecFloat.fexp. intros H.
  apply andb_prop in H. destruct H as [H _]. apply Z.eqb_eq in H. lia.
Qed.

Lemma magnitude_lt mx ex my ey :
  SpecFloat.bounded prec emax mx ex = true -> SpecFloat.bounded prec emax my ey = true ->
  (Zpos (fst (shl_align mx ex (Z.min ex ey))) < Zpos (fst (shl_align my ey (Z.min ex ey)))
   <-> ex < ey \/ (ex = ey /\ Zpos mx < Zpos my)).
Proof.
  intros Hx Hy. apply bounded_canonical in Hx, Hy.
  destruct Hx as [Hx1 [Hx2 Hx3]], Hy as [Hy1 [Hy2 Hy3]].
  rewrite !shl_align_val by lia.
  assert (Bx := digits2_bounds mx). assert (By := digits2_bounds my).
  assert (Hp : forall m, Zpos (digits2_pos m) <= prec -> Zpos m < 2 ^ prec).
  { intros m Hd. assert (B := digits2_bounds m).
    eapply Z.lt_le_trans; [apply B|]. apply Z.pow_le_mono_r; lia. }
  assert (Hbig : forall m m' e e', e < e' -> Zpos (digits2_pos m) <= prec ->
             Zpos (digits2_pos m') = prec -> Zpos m * 2 ^ 0 < Zpos m' * 2 ^ (e' - e)).
  { intros m m' e e' Hlt Hd Hd'. assert (B := digits2_bounds m'). rewrite Hd' in B.
    assert (Zpos m < 2 ^ prec) by (apply (Hp m); lia).
    assert (2 ^ 1 <= 2 ^ (e' - e)) by (apply Z.pow_le_mono_r; lia).
    assert (E : 2 ^ prec = 2 ^ (prec - 1) * 2 ^ 1).
    { rewrite <- Z.pow_add_r by (unfold prec; lia). f_equal; lia. }
    rewrite Z.pow_0_r, Z.mul_1_r. eapply Z.lt_le_trans; [eassumption|].
    rewrite E. apply Z.mul_le_mono_nonneg; try lia. }
  destruct (Z.lt_trichotomy ex ey) as [H|[H|H]].
  - rewrite Z.min_l by lia. rewrite Z.sub_diag.
    split; [now left|intros _]. apply Hbig; lia.
  - subst ey. rewrite Z.min_id, Z.sub_diag, Z.pow_0_r. lia.
  - rewrite Z.min_r by lia. rewrite Z.sub_diag.
    split; [|lia]. intros Hc.
    assert (Zpos my * 2 ^ 0 < Zpos mx * 2 ^ (ex - ey)) by (apply Hbig; lia). lia.
Qed.


Lemma SFsub_sign x y :
  valid_binary x = true -> valid_binary y = true ->
  x <> S754_nan -> y <> S754_nan ->
  SFltb (S754_zero false) (SF64sub y x) = SFltb x y.
Proof.
  intros Vx Vy Nx Ny.
  destruct x as [sx|sx| |sx mx ex], y as [sy|sy| |sy my ey]; try congruence;
    try (destruct sx, sy; reflexivity); try (destruct sx; reflexivity);
    try (destruct sy; reflexivity).
  unfold SF64sub, SFsub. cbn [valid_binary] in Vx, Vy.
  assert (Cx := bounded_canonical _ _ Vx). assert (Cy := bounded_canonical _ _ Vy).
  rewrite binary_normalize_sign by lia.
  assert (M := magnitude_lt mx ex my ey Vx Vy).
  assert (M' := magnitude_lt my ey mx ex Vy Vx). rewrite (Z.min_comm ey ex) in M'.
  set (X := Zpos (fst (shl_align mx ex (Z.min ex ey)))) in *.
  set (Y := Zpos (fst (shl_align my ey (Z.min ex ey)))) in *.
  rewrite (Z.min_comm ey ex). fold X Y.
  assert (HX : 0 < X) by (unfold X; lia). assert (HY : 0 < Y) by (unfold Y; lia).
  unfold SFltb, SFcompare.
  destruct sx, sy; cbn [cond_Zopp].
  - (* both negative *)
    destruct (Z.compare_spec ex ey) as [E|E|E].
    + subst ey. change (Pos.compare_cont Eq mx my) with (Zpos mx ?= Zpos my).
      destruct (Z.compare_spec (Zpos mx) (Zpos my)) as [E|E|E]; cbn [CompOpp];
        destruct (Z.ltb_spec 0 (- Y - - X)); try reflexivity; lia.
    + destruct (Z.ltb_spec 0 (- Y - - X)); try reflexivity; lia.
    + destruct (Z.ltb_spec 0 (- Y - - X)); try reflexivity; lia.
  - destruct (Z.ltb_spec 0 (Y - - X)); try reflexivity; lia.
  - destruct (Z.ltb_spec 0 (- Y - X)); try reflexivity; lia.
  - destruct (Z.compare_spec ex ey) as [E|E|E].
    + subst ey. change (Pos.compare_cont Eq mx my) with (Zpos mx ?= Zpos my).
      destruct (Z.compare_spec (Zpos mx) (Zpos my)) as [E|E|E];
        destruct (Z.ltb_spec 0 (Y - X)); try reflexivity; lia.
    + destruct (Z.ltb_spec 0 (Y - X)); try reflexivity; lia.
    + destruct (Z.ltb_spec 0 (Y - X)); try reflexivity; lia.
Qed.

(** The sign of a difference of two numbers tells their order: the
    difference of two different doubles is never rounded to zero. *)
Lemma sub_sign (x y : float) :
  number x -> number y -> (0 <? y - x)%float = (x <? y)%float.
Proof.
  intros Hx Hy. apply number_spec in Hx, Hy. rewrite !ltb_spec, sub_spec.
  change (Prim2SF 0%float) with (S754_zero false).
  apply SFsub_sign; auto using Prim2SF_valid.
Qed.


Ltac lex_order :=
  repeat match goal with
         | x : float |- _ =>
             let k := fresh "k" in
             lazymatch goal with
             | |- context [fkey x] => remember (fkey x) as k
             | _ : context [fkey x] |- _ => remember (fkey x) as k
             end;
             match goal with H : k = fkey x |- _ => clear H end;
             destruct k as [[? ?] ?]
         end;
  unfold lexlt in *; cbn [fst snd] in *.

Lemma ltb_leb x y :
  number x -> number y -> (x <? y)%float = true -> (x <=? y)%float = true.
Proof.
  intros Hx Hy H. apply ltb_key in H; [|assumption..]. apply leb_key; [assumption..|].
  lex_order. lia.
Qed.

Lemma nltb_leb x y :
  number x -> number y -> (x <? y)%float = false -> (y <=? x)%float = true.
Proof.
  intros Hx Hy H. apply leb_key; [assumption..|]. intros Hlt.
  apply ltb_key in Hlt; [|assumption..]. congruence.
Qed.

Lemma leb_trans x y z :
  number x -> number y -> number z ->
  (x <=? y)%float = true -> (y <=? z)%float = true -> (x <=? z)%float = true.
Proof.
  intros Hx Hy Hz H1 H2.
  apply leb_key in H1, H2; [|assumption..]. apply leb_key; [assumption..|].
  lex_order. lia.
Qed.

Lemma leb_refl x : number x -> (x <=? x)%float = true.
Proof. intros Hx. apply leb_key; [assumption..|]. lex_order. lia. Qed.

Lemma eqb_number x s : (x =? s)%float = true -> number x /\ number s.
Proof.
  rewrite eqb_spec, !number_spec. unfold SFeqb.
  destruct (Prim2SF x), (Prim2SF s); simpl; try discriminate; split; discriminate.
Qed.

(** Two numbers that equal one number are not in strict order. *)
Lemma eqb_not_ltb x y s :
  number y -> (x =? s)%float = true -> (x <? y)%float = true -> (y =? s)%float = false.
Proof.
  intros Hy He Hl. destruct (eqb_number _ _ He) as [Hx Hs].
  destruct (y =? s)%float eqn:E; [|reflexivity].
  apply eqb_key in He, E; [|assumption..]. apply ltb_key in Hl; [|assumption..].
  rewrite He, E in Hl. lex_order. lia.
Qed.

Lemma eqb_refl x : number x -> (x =? x)%float = true.
Proof. intros Hx. now apply eqb_key. Qed.

Lemma leb_antisym x y :
  number x -> number y ->
  (x <=? y)%float = true -> (y <=? x)%float = true -> (y =? x)%float = true.
Proof.
  intros Hx Hy H1 H2. apply leb_key in H1, H2; [|assumption..].
  apply eqb_key; [assumption..|].
  unfold lexlt in *. destruct (fkey x) as [[x1 x2] x3], (fkey y) as [[y1 y2] y3].
  cbn [fst snd] in *. repeat f_equal; lia.
Qed.

End FloatFacts.

(** ** The chunker *)

Section ChunkerFacts.

Import Chunker.

Lemma loop_unfold fuel text cs ov st :
  loop fuel text cs ov st =
  if start st <? len text then
    match fuel with
    | O => None
    | S fuel' =>
        let (st', broke) := body text cs ov st in
        if broke then Some (chunks st') else loop fuel' text cs ov st'
    end
  else Some (chunks st).
Proof. destruct fuel; reflexivity. Qed.

(** With a positive overlap the start the body computes stays below the
    length of the text, so neither the [break] nor the loop test ever
    fires: from inside the text the loop is never left. *)
Lemma body_stays_inside text cs ov st :
  0 < ov -> 0 < len text ->
  0 <= start (fst (body text cs ov st)) < len text
  /\ snd (body text cs ov st) = false.
Proof.
  intros Hov Hlen. unfold body. cbn [fst snd start].
  destruct (Z.ltb_spec (Z.min (len text) (start st + cs) - ov) 0) as [H|H].
  - split; [lia|]. apply Z.leb_gt. lia.
  - split; [lia|]. apply Z.leb_gt. lia.
Qed.

Lemma loop_diverges text cs ov :
  0 < ov -> forall fuel st, 0 <= start st < len text ->
  loop fuel text cs ov st = None.
Proof.
  intros Hov. induction fuel as [|fuel IH]; intros st Hst; rewrite loop_unfold.
  - destruct (Z.ltb_spec (start st) (len text)); [reflexivity|lia].
  - destruct (Z.ltb_spec (start st) (len text)); [|lia].
    destruct (body_stays_inside text cs ov st Hov) as [Hin Hbr]; [lia|].
    destruct (body text cs ov st) as [st' broke]. cbn [fst snd] in *.
    subst broke. now apply IH.
Qed.

Lemma chunkText_diverges text cs ov :
  text <> [] -> 0 < ov -> forall fuel, chunkText fuel text cs ov = None.
Proof.
  intros Hne Hov fuel. apply loop_diverges; [exact Hov|]. cbn [start].
  assert (H := len_nonneg text). assert (len text <> 0) by now rewrite len_nil_iff.
  lia.
Qed.

Lemma ceil_div_gt (a b i : Z) : 0 < b -> (i < ceil_div a b <-> i * b < a).
Proof.
  intros Hb. unfold ceil_div. split; intros H.
  - assert (i + 1 <= (a + b - 1) / b) by lia.
    assert ((i + 1) * b <= a + b - 1).
    { etransitivity; [apply Z.mul_le_mono_nonneg_r; [lia|eassumption]|].
      rewrite Z.mul_comm. apply Z.mul_div_le. lia. }
    lia.
  - assert (i + 1 <= (a + b - 1) / b); [|lia].
    apply Z.div_le_lower_bound; lia.
Qed.

Lemma ceil_div_nonneg (a b : Z) : 0 <= a -> 0 < b -> 0 <= ceil_div a b.
Proof. intros. unfold ceil_div. apply Z.div_pos; lia. Qed.

Lemma kept_app (u v : list jsstring) : kept (u ++ v) = kept u ++ kept v.
Proof. unfold kept. now rewrite map_app, filter_app. Qed.

Lemma push_chunk_kept acc w : push_chunk acc w = acc ++ kept [w].
Proof.
  unfold push_chunk, kept. simpl. destruct (0 <? len (trim w)); [reflexivity|].
  now rewrite app_nil_r.
Qed.

(** Without overlap the loop visits the windows of the text in order and
    leaves after the last one. *)
Lemma loop_no_overlap text cs :
  0 < cs ->
  forall r i acc fuel,
    (i + r)%nat = Z.to_nat (ceil_div (len text) cs) -> (r <= fuel)%nat ->
    loop fuel text cs 0 (LoopState (Z.of_nat i * cs) acc)
    = Some (acc ++ kept (map (window text cs) (seq i r))).
Proof.
  intros Hcs. assert (Hl := len_nonneg text).
  assert (HN := ceil_div_nonneg (len text) cs Hl Hcs).
  induction r as [|r IH]; intros i acc fuel Hi Hf; rewrite loop_unfold; cbn [start chunks].
  - assert (~ Z.of_nat i * cs < len text) by (rewrite <- ceil_div_gt by lia; lia).
    destruct (Z.ltb_spec (Z.of_nat i * cs) (len text)); [lia|].
    simpl. now rewrite app_nil_r.
  - assert (Z.of_nat i * cs < len text) by (rewrite <- ceil_div_gt by lia; lia).
    destruct (Z.ltb_spec (Z.of_nat i * cs) (len text)); [|lia].
    destruct fuel as [|fuel]; [lia|].
    unfold body. cbn [start chunks].
    rewrite Z.sub_0_r.
    destruct (Z.ltb_spec (Z.min (len text) (Z.of_nat i * cs + cs)) 0); [lia|].
    fold (window text cs i). rewrite push_chunk_kept.
    destruct (Z.leb_spec (len text) (Z.min (len text) (Z.of_nat i * cs + cs))) as [Hb|Hb].
    + assert (~ Z.of_nat (S i) * cs < len text) by lia.
      assert (r = 0%nat) by (rewrite <- ceil_div_gt in * by lia; lia). subst r.
      reflexivity.
    + rewrite Z.min_r by lia.
      replace (Z.of_nat i * cs + cs) with (Z.of_nat (S i) * cs) by lia.
      rewrite IH by lia. simpl seq. simpl map.
      replace (window text cs i :: map (window text cs) (seq (S i) r))
        with ([window text cs i] ++ map (window text cs) (seq (S i) r)) by reflexivity.
      now rewrite kept_app, app_assoc.
Qed.

Lemma chunkText_no_overlap text cs :
  0 < cs ->
  chunkText (length text) text cs 0 = Some (kept (windows text cs)).
Proof.
  intros Hcs. unfold chunkText, windows.
  change 0 with (Z.of_nat 0 * cs) at 2.
  rewrite (loop_no_overlap text cs Hcs (Z.to_nat (ceil_div (len text) cs)) 0 []);
    [reflexivity|reflexivity|].
  assert (Hl := len_nonneg text).
  destruct (Z.eq_dec (len text) 0) as [E|E].
  - unfold ceil_div. rewrite E. rewrite Z.div_small by lia. simpl. lia.
  - assert (ceil_div (len text) cs <= len text); [|unfold len in *; lia].
    assert (~ len text < ceil_div (len text) cs); [|lia].
    rewrite ceil_div_gt by lia. nia.
Qed.

Lemma window_len text cs i : 0 < cs -> len (window text cs i) <= cs.
Proof.
  intros Hcs. unfold window. assert (Hl := len_nonneg text).
  apply slice_length_le; lia.
Qed.

Lemma kept_good cs ws :
  Forall (fun w => len w <= cs) ws -> Forall (good_chunk cs) (kept ws).
Proof.
  unfold kept. induction 1 as [|w ws Hw _ IH]; simpl; [constructor|].
  destruct (Z.ltb_spec 0 (len (trim w))) as [Hp|Hp]; [|exact IH].
  constructor; [|exact IH]. repeat split; [exact Hp| |].
  - assert (H := trim_len_le w). lia.
  - apply trim_not_blank. intros E. rewrite E in Hp. unfold len in Hp. simpl in Hp. lia.
Qed.

Lemma kept_length ws : (length (kept ws) <= length ws)%nat.
Proof.
  unfold kept. etransitivity; [apply filter_length_le|]. now rewrite length_map.
Qed.

End ChunkerFacts.

Section ChunkerClaims.

Import Chunker.

Lemma loop_fuel_mono text cs ov fuel : forall st out extra,
  loop fuel text cs ov st = Some out ->
  loop (fuel + extra) text cs ov st = Some out.
Proof.
  induction fuel as [|fuel IH]; intros st out extra; rewrite !loop_unfold.
  - destruct (start st <? len text); [discriminate|]. trivial.
  - destruct (start st <? len text); [|trivial].
    simpl Nat.add. cbv zeta.
    destruct (body text cs ov st) as [st' broke]. destruct broke; [trivial|].
    apply IH.
Qed.

(** The answer does not depend on the fuel: two runs that both return,
    return the same chunks. *)
Lemma chunkText_deterministic text cs ov f1 f2 o1 o2 :
  chunkText f1 text cs ov = Some o1 -> chunkText f2 text cs ov = Some o2 -> o1 = o2.
Proof.
  unfold chunkText. intros H1 H2.
  apply loop_fuel_mono with (extra := f2) in H1.
  apply loop_fuel_mono with (extra := f1) in H2.
  rewrite Nat.add_comm in H2. congruence.
Qed.

(** C1. For [chunkSize > overlap >= 0] the loop of [chunkText] is left, and
    the function returns, exactly when the text is empty or the overlap is
    0. With a positive overlap and a text that is not empty the start never
    reaches the end of the text (it is set back to [end - overlap]), so the
    termination the claim states fails on the code, the defaults 1200 and
    150 included. *)
Theorem chunkText_returns_iff (text : jsstring) (chunkSize overlap : Z) :
  0 <= overlap < chunkSize ->
  (exists fuel out, chunkText fuel text chunkSize overlap = Some out)
  <-> (text = [] \/ overlap = 0).
Proof.
  intros Hov. split.
  - intros [fuel [out H]]. destruct text as [|c text]; [now left|right].
    destruct (Z.eq_dec overlap 0) as [E|E]; [exact E|].
    rewrite chunkText_diverges in H; [discriminate|discriminate|lia].
  - intros [E|E].
    + subst text. exists 0%nat, []. reflexivity.
    + subst overlap. eexists _, _. apply chunkText_no_overlap. lia.
Qed.

Lemma chunkText_returns_iff_witness :
  (exists fuel out,
      chunkText fuel (lit "hello") default_chunkSize default_overlap = Some out)
  <-> (lit "hello" = [] \/ default_overlap = 0).
Proof.
  apply (chunkText_returns_iff (lit "hello") default_chunkSize default_overlap).
  unfold default_chunkSize, default_overlap. lia.
Defined.

Lemma iterate_short_text text cs ov :
  0 < len text < cs -> 0 < ov -> len text <= ov -> blank text = false ->
  forall n acc,
    iterate n text cs ov (LoopState 0 acc) = LoopState 0 (acc ++ repeat (trim text) n).
Proof.
  intros Hlen Hov Hle Hb. induction n as [|n IH]; intros acc; simpl.
  - now rewrite app_nil_r.
  - unfold body. cbn [start chunks fst].
    rewrite ?Z.add_0_l. rewrite Z.min_l by lia. rewrite slice_whole by lia.
    destruct (Z.ltb_spec (len text - ov) 0) as [H|H].
    + rewrite IH. f_equal. unfold push_chunk.
      destruct (Z.ltb_spec 0 (len (trim text))) as [Hp|Hp].
      * now rewrite <- app_assoc.
      * assert (E : trim text = []).
        { apply len_nil_iff. assert (Hn := len_nonneg (trim text)). lia. }
        apply trim_nil_iff in E. congruence.
    + replace (len text - ov) with 0 by lia. rewrite IH. f_equal. unfold push_chunk.
      destruct (Z.ltb_spec 0 (len (trim text))) as [Hp|Hp].
      * now rewrite <- app_assoc.
      * assert (E : trim text = []).
        { apply len_nil_iff. assert (Hn := len_nonneg (trim text)). lia. }
        apply trim_nil_iff in E. congruence.
Qed.

(** C4. A text that is not empty and shorter than [chunkSize]: with
    overlap 0 [chunkText] returns after one pass, with the trimmed text as
    its one chunk, or with no chunk when the text is blank; with a positive
    overlap (the default 150 included) it never returns, and when the text
    is no longer than the overlap each pass pushes the same chunk again. *)
Theorem chunkText_short_text (text : jsstring) (chunkSize overlap : Z) :
  0 < len text < chunkSize -> 0 <= overlap ->
  (overlap = 0 ->
     chunkText 1 text chunkSize overlap
     = Some (if blank text then [] else [trim text]))
  /\ (0 < overlap -> forall fuel, chunkText fuel text chunkSize overlap = None)
  /\ (0 < overlap -> len text <= overlap -> blank text = false ->
      forall n, iterate n text chunkSize overlap (LoopState 0 [])
                = LoopState 0 (repeat (trim text) n)).
Proof.
  intros Hlen Hov. split; [|split].
  - intros ->. unfold chunkText. rewrite loop_unfold. cbn [start chunks].
    destruct (Z.ltb_spec 0 (len text)); [|lia].
    unfold body. cbn [start chunks].
    rewrite ?Z.add_0_l. rewrite Z.min_l, Z.sub_0_r by lia. rewrite slice_whole by lia.
    destruct (Z.ltb_spec (len text) 0); [lia|].
    destruct (Z.leb_spec (len text) (len text)); [|lia].
    unfold push_chunk. f_equal.
    destruct (blank text) eqn:Hb.
    + apply trim_nil_iff in Hb. rewrite Hb. reflexivity.
    + destruct (Z.ltb_spec 0 (len (trim text))) as [Hp|Hp]; [reflexivity|].
      assert (E : trim text = []).
      { apply len_nil_iff. assert (Hn := len_nonneg (trim text)). lia. }
      apply trim_nil_iff in E. congruence.
  - intros Hpos fuel. apply chunkText_diverges; [|exact Hpos].
    intros E. subst text. unfold len in Hlen. simpl in Hlen. lia.
  - intros Hpos Hle Hb n. now rewrite iterate_short_text.
Qed.

Lemma chunkText_short_text_witness :
  (default_overlap = 0 ->
     chunkText 1 (lit "hello") default_chunkSize default_overlap
     = Some (if blank (lit "hello") then [] else [trim (lit "hello")]))
  /\ (0 < default_overlap ->
      forall fuel, chunkText fuel (lit "hello") default_chunkSize default_overlap = None)
  /\ (0 < default_overlap -> len (lit "hello") <= default_overlap ->
      blank (lit "hello") = false ->
      forall n, iterate n (lit "hello") default_chunkSize default_overlap (LoopState 0 [])
                = LoopState 0 (repeat (trim (lit "hello")) n)).
Proof.
  apply (chunkText_short_text (lit "hello") default_chunkSize default_overlap).
  - vm_compute. split; reflexivity.
  - vm_compute. discriminate.
Defined.

(** C2, as the code has it. Without overlap [chunkText] returns the windows
    [[i * chunkSize, min (len, (i+1) * chunkSize))] of the text, trimmed,
    the blank ones dropped: at most [ceil (len / chunkSize)] chunks, exactly
    that many when no window is blank, each chunk at most [chunkSize] long
    and none empty or blank. *)
Theorem chunkText_no_overlap_chunks (text : jsstring) (chunkSize : Z) :
  0 < chunkSize ->
  exists out,
    chunkText (length text) text chunkSize 0 = Some out
    /\ out = kept (windows text chunkSize)
    /\ len out <= ceil_div (len text - 0) (chunkSize - 0)
    /\ (Forall (fun w => blank w = false) (windows text chunkSize) ->
        len out = ceil_div (len text - 0) (chunkSize - 0))
    /\ Forall (good_chunk chunkSize) out.
Proof.
  intros Hcs. exists (kept (windows text chunkSize)).
  assert (Hl := len_nonneg text).
  assert (HN := ceil_div_nonneg (len text) chunkSize Hl Hcs).
  assert (Hw : len (windows text chunkSize) = ceil_div (len text) chunkSize).
  { unfold windows. unfold len at 1. rewrite length_map, length_seq. lia. }
  rewrite !Z.sub_0_r.
  split; [now apply chunkText_no_overlap|]. split; [reflexivity|].
  split; [|split].
  - rewrite <- Hw. unfold len. assert (H := kept_length (windows text chunkSize)). lia.
  - intros Hnb. rewrite <- Hw. unfold len. f_equal. unfold kept.
    rewrite <- (length_map trim (windows text chunkSize)).
    f_equal. apply forallb_filter_id. apply forallb_forall.
    intros c Hc. apply in_map_iff in Hc. destruct Hc as [w [<- Hin]].
    rewrite Forall_forall in Hnb. specialize (Hnb w Hin).
    apply Z.ltb_lt. destruct (Z.eq_dec (len (trim w)) 0) as [E|E].
    + apply len_nil_iff, trim_nil_iff in E. congruence.
    + assert (Hn := len_nonneg (trim w)). lia.
  - apply kept_good. unfold windows. apply Forall_forall. intros w Hin.
    apply in_map_iff in Hin. destruct Hin as [i [<- _]]. now apply window_len.
Qed.

Lemma chunkText_no_overlap_chunks_witness :
  exists out,
    chunkText (length (lit "hello world")) (lit "hello world") 4 0 = Some out
    /\ out = kept (windows (lit "hello world") 4)
    /\ len out <= ceil_div (len (lit "hello world") - 0) (4 - 0)
    /\ (Forall (fun w => blank w = false) (windows (lit "hello world") 4) ->
        len out = ceil_div (len (lit "hello world") - 0) (4 - 0))
    /\ Forall (good_chunk 4) out.
Proof.
  apply (chunkText_no_overlap_chunks (lit "hello world") 4). lia.
Defined.

(** C2 as stated fails where a window is blank: the text "a b" cut into
    windows of 1 without overlap has length 3 > 0, and [chunkText] returns
    the 2 chunks "a" and "b", not [ceil ((3 - 0) / (1 - 0)) = 3]. *)
Lemma chunkText_count_counterexample :
  chunkText 3 (lit "a b") 1 0 = Some [lit "a"; lit "b"]
  /\ ceil_div (len (lit "a b") - 0) (1 - 0) = 3
  /\ (forall fuel out, chunkText fuel (lit "a b") 1 0 = Some out -> len out = 2).
Proof.
  split; [reflexivity|]. split; [reflexivity|].
  intros fuel out H.
  assert (E : chunkText 3 (lit "a b") 1 0 = Some [lit "a"; lit "b"]) by reflexivity.
  rewrite (chunkText_deterministic _ _ _ _ _ _ _ H E). reflexivity.
Qed.

End ChunkerClaims.

(** ** Sorting by score *)

Section SortFacts.

Import FloatOrder Retriever.

Context {A : Type} (key : A -> float).

Lemma insert_perm x l : Permutation (insert (by_key_desc key) x l) (x :: l).
Proof.
  induction l as [|y l IH]; simpl; [reflexivity|].
  destruct (0 <? (by_key_desc key) x y)%float; [|reflexivity].
  rewrite IH. apply perm_swap.
Qed.

Lemma sort_perm l : Permutation (sort (by_key_desc key) l) l.
Proof.
  induction l as [|x l IH]; simpl; [reflexivity|].
  rewrite insert_perm. now constructor.
Qed.

Lemma sort_length l : length (sort (by_key_desc key) l) = length l.
Proof. apply Permutation_length, sort_perm. Qed.

Lemma insert_test x y :
  number (key x) -> number (key y) ->
  (0 <? (by_key_desc key) x y)%float = (key x <? key y)%float.
Proof. intros. unfold by_key_desc. now apply sub_sign. Qed.

Lemma insert_sorted x l :
  number (key x) -> Forall (fun y => number (key y)) l ->
  StronglySorted (ranks_above key) l -> StronglySorted (ranks_above key) (insert (by_key_desc key) x l).
Proof.
  intros Hx Hl Hs. induction Hs as [|y l Hs IH Hy]; simpl.
  - repeat constructor.
  - apply Forall_cons_iff in Hl. destruct Hl as [Hny Hl].
    rewrite insert_test by assumption.
    destruct (key x <? key y)%float eqn:E.
    + constructor; [now apply IH|].
      rewrite insert_perm. constructor; [|exact Hy].
      unfold ranks_above. now apply ltb_leb.
    + assert (Hxy : (ranks_above key) x y) by (unfold ranks_above; now apply nltb_leb).
      constructor; [now constructor|]. constructor; [exact Hxy|].
      rewrite Forall_forall in *. intros z Hz. unfold ranks_above in *.
      apply leb_trans with (y := key y); auto.
Qed.

Lemma sort_sorted l :
  Forall (fun y => number (key y)) l -> StronglySorted (ranks_above key) (sort (by_key_desc key) l).
Proof.
  induction 1 as [|x l Hx Hl IH]; simpl; [constructor|].
  apply insert_sorted; [exact Hx| |exact IH].
  now rewrite sort_perm.
Qed.

Lemma insert_tied x l s :
  Forall (fun y => number (key y)) l ->
  List.filter (tied key s) (insert (by_key_desc key) x l) = List.filter (tied key s) (x :: l).
Proof.
  intros Hl. induction Hl as [|y l Hy Hl IH]; [reflexivity|].
  cbn [insert].
  destruct (0 <? (by_key_desc key) x y)%float eqn:E; [|reflexivity].
  cbn [List.filter] in *. rewrite IH.
  destruct (tied key s x) eqn:Tx; [|reflexivity].
  unfold tied in Tx. destruct (eqb_number _ _ Tx) as [Hx _].
  rewrite (insert_test x y Hx Hy) in E.
  assert (Ty : tied key s y = false) by exact (eqb_not_ltb _ _ _ Hy Tx E).
  now rewrite Ty.
Qed.

(** The sort is stable: the elements tied at a score keep the order they
    had. *)
Lemma sort_stable l s :
  Forall (fun y => number (key y)) l ->
  List.filter (tied key s) (sort (by_key_desc key) l) = List.filter (tied key s) l.
Proof.
  induction 1 as [|x l Hx Hl IH]; [reflexivity|].
  cbn [sort fold_right]. fold (sort (by_key_desc key) l).
  rewrite insert_tied by now rewrite sort_perm.
  cbn [List.filter]. now rewrite IH.
Qed.

(** A sorted, stable arrangement of a list of numbers is unique: whatever
    stable sort an engine runs, it returns what [sort] returns. *)
Lemma stable_sorted_unique l1 : forall l2,
  Forall (fun y => number (key y)) l1 ->
  Permutation l1 l2 ->
  StronglySorted (ranks_above key) l1 -> StronglySorted (ranks_above key) l2 ->
  (forall s, List.filter (tied key s) l1 = List.filter (tied key s) l2) ->
  l1 = l2.
Proof.
  induction l1 as [|x l1 IH]; intros l2 Hn Hp S1 S2 Hf.
  - apply Permutation_nil in Hp. now subst.
  - destruct l2 as [|y l2]; [apply Permutation_sym, Permutation_nil in Hp; discriminate|].
    apply Forall_cons_iff in Hn. destruct Hn as [Hx Hn].
    apply StronglySorted_inv in S1, S2. destruct S1 as [S1 A1], S2 as [S2 A2].
    rewrite Forall_forall in A1, A2, Hn.
    assert (Hy : number (key y)).
    { assert (Hin : In y (x :: l1))
        by (eapply Permutation_in; [apply Permutation_sym, Hp|now left]).
      destruct Hin as [<-|Hin]; [exact Hx|now apply Hn]. }
    assert (Rxy : ranks_above key x y).
    { assert (Hin : In y (x :: l1))
        by (eapply Permutation_in; [apply Permutation_sym, Hp|now left]).
      destruct Hin as [<-|Hin]; [now apply leb_refl|now apply A1]. }
    assert (Ryx : ranks_above key y x).
    { assert (Hin : In x (y :: l2)) by (eapply Permutation_in; [apply Hp|now left]).
      destruct Hin as [<-|Hin]; [now apply leb_refl|now apply A2]. }
    assert (Exy : x = y).
    { assert (T1 : tied key (key x) x = true) by now apply eqb_refl.
      assert (T2 : tied key (key x) y = true) by now apply leb_antisym.
      specialize (Hf (key x)). cbn [List.filter] in Hf.
      rewrite T1, T2 in Hf. now injection Hf. }
    subst y. f_equal. apply IH; try assumption.
    + now apply Forall_forall.
    + now apply Permutation_cons_inv with x.
    + intros s. specialize (Hf s). cbn [List.filter] in Hf.
      destruct (tied key s x); [now injection Hf|exact Hf].
Qed.

Lemma sort_unique l l' :
  Forall (fun y => number (key y)) l ->
  Permutation l' l ->
  StronglySorted (ranks_above key) l' ->
  (forall s, List.filter (tied key s) l' = List.filter (tied key s) l) ->
  l' = sort (by_key_desc key) l.
Proof.
  intros Hn Hp Hs Hf. apply stable_sorted_unique.
  - now rewrite Hp.
  - rewrite Hp. symmetry. apply sort_perm.
  - exact Hs.
  - now apply sort_sorted.
  - intros s. rewrite Hf. symmetry. now apply sort_stable.
Qed.

End SortFacts.

(** ** Ranking ([selectTopK]) *)

Section RankingFacts.

Import FloatOrder Similarity Retriever.

Lemma comparator_by_score : comparator = by_key_desc score.
Proof. reflexivity. Qed.

Lemma slice_prefix {A} (l : list A) (k : Z) :
  0 <= k -> slice l 0 k = firstn (Z.to_nat k) l.
Proof.
  intros Hk. unfold slice, rel_index. assert (Hl := len_nonneg l).
  change (0 <? 0) with false. cbv iota.
  destruct (Z.ltb_spec k 0); [lia|].
  rewrite (Z.min_l 0) by lia. change (skipn (Z.to_nat 0) l) with l.
  rewrite Z.sub_0_r, Z.max_l by lia.
  destruct (Z.le_ge_cases k (len l)).
  - now rewrite Z.min_l by lia.
  - rewrite Z.min_r by lia. unfold len in *. rewrite Nat2Z.id.
    rewrite !firstn_all2; [reflexivity|lia|lia].
Qed.

Lemma slice_nil {A} (a b : Z) : slice (@nil A) a b = [].
Proof. unfold slice. now rewrite skipn_nil, firstn_nil. Qed.

Lemma selectTopK_unfold vectorIndex q k :
  selectTopK vectorIndex q k
  = slice (sort comparator (score_all q (loaded_vectors vectorIndex))) 0 k.
Proof.
  assert (E0 : slice (sort comparator (score_all q [])) 0 k = []) by apply slice_nil.
  unfold selectTopK, loaded_vectors.
  destruct vectorIndex as [index|]; [|now rewrite E0].
  destruct (vectors index) as [vs|]; [|now rewrite E0].
  destruct (Z.eqb_spec (len vs) 0) as [E|E]; [|reflexivity].
  apply len_nil_iff in E. subst vs. now rewrite E0.
Qed.

Lemma StronglySorted_app_inv {A} (R : A -> A -> Prop) (l1 l2 : list A) :
  StronglySorted R (l1 ++ l2) ->
  StronglySorted R l1 /\ Forall (fun x => Forall (R x) l2) l1.
Proof.
  induction l1 as [|x l1 IH]; simpl; intros H.
  - split; constructor.
  - apply StronglySorted_inv in H. destruct H as [H1 H2].
    destruct (IH H1) as [H3 H4]. apply Forall_app in H2. destruct H2 as [H5 H6].
    split; constructor; assumption.
Qed.

(** C5, as the code has it. When no index is loaded, or it has no vector
    array or an empty one, [selectTopK] returns the empty sequence, for
    every query and every [k]. For [k >= 0] and scores that are all numbers
    (none is NaN) it returns [min (k, n)] records, each ranking no lower than
    the records after it, the records tied at a score in the order of the
    index, and no record left out ranks above a returned one. *)
Theorem selectTopK_ranked (vectorIndex : option Index) (q : vector) (k : Z) :
  let vs := loaded_vectors vectorIndex in
  let out := selectTopK vectorIndex q k in
  (vs = [] -> out = [])
  /\ (0 <= k -> Forall (fun s => number (score s)) (score_all q vs) ->
      len out = Z.min k (len vs)
      /\ StronglySorted (ranks_above score) out
      /\ (forall s, exists rest,
            List.filter (tied score s) (score_all q vs)
            = List.filter (tied score s) out ++ rest)
      /\ (exists rest,
            Permutation (out ++ rest) (score_all q vs)
            /\ Forall (fun o => Forall (ranks_above score o) rest) out)).
Proof.
  intros vs out. subst out. rewrite selectTopK_unfold. fold vs. split.
  - intros ->. apply slice_nil.
  - intros Hk Hn. rewrite slice_prefix by exact Hk. rewrite comparator_by_score.
    set (ranked := sort (by_key_desc score) (score_all q vs)).
    assert (Hs : StronglySorted (ranks_above score) ranked) by now apply sort_sorted.
    rewrite <- (firstn_skipn (Z.to_nat k) ranked) in Hs.
    apply StronglySorted_app_inv in Hs. destruct Hs as [Hs1 Hs2].
    split; [|split; [exact Hs1|split]].
    + unfold len. rewrite length_firstn. unfold ranked.
      rewrite sort_length. unfold score_all. rewrite length_map. lia.
    + intros s. exists (List.filter (tied score s) (skipn (Z.to_nat k) ranked)).
      rewrite <- filter_app, firstn_skipn. unfold ranked.
      symmetry. now apply sort_stable.
    + exists (skipn (Z.to_nat k) ranked). split; [|exact Hs2].
      rewrite firstn_skipn. apply sort_perm.
Qed.

Lemma selectTopK_ranked_witness :
  let out := selectTopK Samples.three_index [1; 0]%float 2 in
  map (fun s => id (record s)) out = [lit "first"; lit "third"]
  /\ len out = Z.min 2 (len Samples.three_vectors)
  /\ StronglySorted (ranks_above score) out.
Proof.
  destruct (selectTopK_ranked Samples.three_index [1; 0]%float 2) as [_ H].
  destruct H as [H1 [H2 _]]; [lia|repeat constructor|].
  split; [reflexivity|]. split; [exact H1|exact H2].
Defined.

(** C5 as stated fails for a negative [k] and where a score is NaN.
    [selectTopK (q, -1)] on three vectors returns two records
    ([slice (0, -1)] drops the last one), not [min (-1, 3)]; and with the
    record "huge" scored NaN the three records come back in index order,
    the record "low" (score 0) before the record "best" (score 1). *)
Lemma selectTopK_counterexample :
  (len (selectTopK Samples.three_index [1; 0]%float (-1)) = 2
   /\ Z.min (-1) (len Samples.three_vectors) = -1)
  /\ (let out := selectTopK Samples.overflow_index Samples.overflow_query 3 in
      map (fun s => id (record s)) out = [lit "low"; lit "huge"; lit "best"]
      /\ map (fun s => is_nan (score s)) out = [false; true; false]
      /\ match out with
         | [low; _; best] => (score low <? score best)%float = true
         | _ => False
         end).
Proof. vm_compute. repeat split. Qed.

End RankingFacts.

(** ** Cosine similarity *)

Section CosineFacts.

Import FloatOrder Similarity.



Section Generic.

Context {num : Type} (ar : arith num).

Hypothesis mul_comm : forall x y, mul ar x y = mul ar y x.



End Generic.









End CosineFacts.

(** ** The store: what [selectTopK] leaves untouched *)

Section StoreFacts.

Import Similarity Retriever Store.

Lemma extends_refl st : extends st st.
Proof. split; reflexivity. Qed.

Lemma extends_trans st1 st2 st3 : extends st1 st2 -> extends st2 st3 -> extends st1 st3.
Proof. intros [E1 H1] [E2 H2]. split; [congruence|]. now transitivity (heap st2). Qed.

Lemma extends_lookup st st' l c :
  extends st st' -> heap st !! l = Some c -> heap st' !! l = Some c.
Proof. intros [_ H] Hl. eapply lookup_weaken; eassumption. Qed.

Lemma extends_fresh st st' l :
  extends st st' -> heap st' !! l = None -> heap st !! l = None.
Proof.
  intros [_ H] Hl. destruct (heap st !! l) as [c|] eqn:E; [|reflexivity].
  rewrite (lookup_weaken _ _ _ _ E H) in Hl. discriminate.
Qed.

Lemma alloc_spec c st l st' :
  alloc c st = Some (l, st') ->
  extends st st' /\ heap st !! l = None /\ heap st' !! l = Some c.
Proof.
  unfold alloc. intros H. injection H as <- <-. cbn [heap vectorIndex].
  assert (Hf : heap st !! fresh (dom (heap st)) = None).
  { apply not_elem_of_dom. apply is_fresh. }
  split; [split; [reflexivity|now apply insert_subseteq]|].
  split; [exact Hf|apply lookup_insert_eq].
Qed.

Lemma read_spec l st c st' :
  read l st = Some (c, st') -> st' = st /\ heap st !! l = Some c.
Proof.
  unfold read. destruct (heap st !! l) as [c'|]; [|discriminate].
  intros H. injection H as <- <-. split; reflexivity.
Qed.

(** Writing a cell that [st0] does not have keeps an extension of [st0]. *)
Lemma write_extends st0 st l c u st' :
  extends st0 st -> heap st0 !! l = None -> write l c st = Some (u, st') ->
  extends st0 st'.
Proof.
  intros [E H] Hl Hw. unfold write in Hw. injection Hw as _ <-.
  split; [exact E|]. cbn [heap]. now apply insert_subseteq_r.
Qed.

Lemma with_score_spec q v st l st' :
  with_score q v st = Some (l, st') ->
  extends st st' /\ heap st !! l = None.
Proof.
  unfold with_score, bind. destruct (read v st) as [[c st1]|] eqn:R; [|discriminate].
  apply read_spec in R. destruct R as [-> _].
  destruct c as [elems|fields s]; [discriminate|].
  intros H. apply alloc_spec in H. tauto.
Qed.

Lemma for_each_with_score_spec q elems : forall st ls st',
  for_each (with_score q) elems st = Some (ls, st') ->
  extends st st' /\ Forall (fun l => heap st !! l = None) ls.
Proof.
  induction elems as [|e elems IH]; intros st ls st'; cbn [for_each].
  - unfold ret. intros H. injection H as <- <-. split; [apply extends_refl|constructor].
  - unfold bind at 1. destruct (with_score q e st) as [[l st1]|] eqn:W; [|discriminate].
    unfold bind at 1. destruct (for_each (with_score q) elems st1) as [[ls1 st2]|] eqn:F;
      [|discriminate].
    unfold ret. intros H. injection H as <- <-.
    apply with_score_spec in W. destruct W as [X1 N1].
    apply IH in F. destruct F as [X2 N2].
    split; [now apply extends_trans with st1|].
    constructor; [exact N1|].
    eapply Forall_impl; [|exact N2]. intros l0 Hl0. now apply extends_fresh with st1.
Qed.

Lemma array_map_spec q arr st out st' :
  array_map (with_score q) arr st = Some (out, st') ->
  extends st st' /\ heap st !! out = None.
Proof.
  unfold array_map, bind. destruct (read arr st) as [[c st1]|] eqn:R; [|discriminate].
  apply read_spec in R. destruct R as [-> _].
  destruct c as [elems|fields s]; [|discriminate].
  destruct (for_each (with_score q) elems st) as [[ls st1]|] eqn:F; [|discriminate].
  apply for_each_with_score_spec in F. destruct F as [X1 _].
  intros H. apply alloc_spec in H. destruct H as [X2 [N _]].
  split; [now apply extends_trans with st1|now apply extends_fresh with st1].
Qed.

Lemma array_slice_spec arr a b st out st' :
  array_slice arr a b st = Some (out, st') ->
  extends st st' /\ heap st !! out = None.
Proof.
  unfold array_slice, bind. destruct (read arr st) as [[c st1]|] eqn:R; [|discriminate].
  apply read_spec in R. destruct R as [-> _].
  destruct c as [elems|fields s]; [|discriminate].
  intros H. apply alloc_spec in H. tauto.
Qed.

(** [sort] rewrites the array [map] returned, a cell the state did not
    have before the call: the cells of the index are out of its reach. *)
Lemma selectTopK_extends q k st out st' :
  Store.selectTopK q k st = Some (out, st') ->
  extends st st' /\ heap st !! out = None.
Proof.
  unfold Store.selectTopK, bind at 1, get_vectorIndex.
  assert (Ha : forall c, alloc c st = Some (out, st') ->
                         extends st st' /\ heap st !! out = None).
  { intros c H. apply alloc_spec in H. tauto. }
  destruct (vectorIndex st) as [index|]; [|apply Ha].
  destruct (vectors_ref index) as [vs|]; [|apply Ha].
  unfold bind at 1. destruct (read vs st) as [[c st1]|] eqn:R; [|discriminate].
  apply read_spec in R. destruct R as [-> _].
  destruct c as [elems|fields s]; [|apply Ha].
  destruct (len elems =? 0); [apply Ha|].
  unfold bind at 1.
  destruct (array_map (with_score q) vs st) as [[scored st1]|] eqn:Hm; [|discriminate].
  apply array_map_spec in Hm. destruct Hm as [X1 N1].
  unfold bind at 1. destruct (array_sort scored st1) as [[u st2]|] eqn:Hs; [|discriminate].
  unfold array_sort in Hs. destruct (heap st1 !! scored) as [[es|]|]; try discriminate.
  pose proof (write_extends st st1 scored _ u st2 X1 N1 Hs) as X2.
  intros H. apply array_slice_spec in H. destruct H as [X3 N3].
  split; [now apply extends_trans with st2|].
  eapply extends_fresh; eassumption.
Qed.

(** *** The store computes what the value model computes *)

Lemma view_weaken h h' l sc : h ⊆ h' -> view h l = Some sc -> view h' l = Some sc.
Proof.
  unfold view. intros Hsub. destruct (h !! l) as [c|] eqn:E; [|discriminate].
  now rewrite (lookup_weaken _ _ _ _ E Hsub).
Qed.

Lemma view_insert_arr h a es es' l sc :
  h !! a = Some (Arr es) -> view h l = Some sc -> view (<[a := Arr es']> h) l = Some sc.
Proof.
  unfold view. intros Ha Hv. destruct (decide (l = a)) as [->|Hne].
  - rewrite Ha in Hv. discriminate.
  - now rewrite lookup_insert_ne.
Qed.

Lemma view_score h l sc : view h l = Some sc -> score_of h l = score sc.
Proof.
  unfold view, score_of. destruct (h !! l) as [[es|fields [s|]]|]; try discriminate.
  intros H. now injection H as <-.
Qed.

Lemma holds_extends st st' index : extends st st' -> holds st index -> holds st' index.
Proof.
  intros [E Hsub]. unfold holds. rewrite E.
  destruct (vectorIndex st) as [r|], index as [i|]; try tauto.
  intros [Hm Hv]. split; [exact Hm|]. unfold holds_vectors in *.
  destruct (vectors_ref r) as [arr|], (vectors i) as [vs|]; try tauto.
  - destruct Hv as [elems [Ha Hf]]. exists elems.
    split; [eapply lookup_weaken; eassumption|].
    eapply Forall2_impl; [|exact Hf]. intros e v He. cbv beta in He.
    exact (lookup_weaken _ _ _ _ He Hsub).
  - destruct Hv as [fields [sc Ha]]. exists fields, sc. eapply lookup_weaken; eassumption.
Qed.

Lemma insert_Forall2 {A B} (R : A -> B -> Prop) cmp1 cmp2 :
  (forall a b sa sb, R a sa -> R b sb -> cmp1 a b = cmp2 sa sb) ->
  forall x y l1 l2, R x y -> Forall2 R l1 l2 ->
  Forall2 R (insert cmp1 x l1) (insert cmp2 y l2).
Proof.
  intros Hc x y l1 l2 Hxy Hl. induction Hl as [|a b l1 l2 Hab Hl IH]; cbn [insert].
  - repeat constructor. exact Hxy.
  - rewrite (Hc x a y b Hxy Hab). destruct (0 <? cmp2 y b)%float.
    + constructor; assumption.
    + repeat constructor; assumption.
Qed.

Lemma sort_Forall2 {A B} (R : A -> B -> Prop) cmp1 cmp2 :
  (forall a b sa sb, R a sa -> R b sb -> cmp1 a b = cmp2 sa sb) ->
  forall l1 l2, Forall2 R l1 l2 -> Forall2 R (sort cmp1 l1) (sort cmp2 l2).
Proof.
  intros Hc l1 l2 Hl. induction Hl as [|a b l1 l2 Hab Hl IH]; [constructor|].
  cbn [sort fold_right]. now apply insert_Forall2.
Qed.

Lemma slice_Forall2 {A B} (R : A -> B -> Prop) l1 l2 a b :
  Forall2 R l1 l2 -> Forall2 R (slice l1 a b) (slice l2 a b).
Proof.
  intros Hl. unfold slice, len. rewrite (Forall2_length Hl).
  now apply Forall2_take, Forall2_drop.
Qed.

Lemma with_score_total q v fields s st :
  heap st !! v = Some (Obj fields s) ->
  exists l st',
    with_score q v st = Some (l, st')
    /\ extends st st'
    /\ view (heap st') l
       = Some {| record := fields; score := cosineSimilarity q (embedding fields) |}.
Proof.
  intros Hv. unfold with_score, bind, read. rewrite Hv.
  destruct (alloc (Obj fields (Some (cosineSimilarity q (embedding fields)))) st)
    as [[l st1]|] eqn:Ea; [|discriminate Ea].
  apply alloc_spec in Ea. destruct Ea as [X1 [N1 L1]].
  exists l, st1. split; [reflexivity|]. split; [exact X1|].
  unfold view. now rewrite L1.
Qed.

Lemma for_each_with_score_total q st0 elems vs :
  Forall2 (fun e v => heap st0 !! e = Some (Obj v None)) elems vs ->
  forall st, extends st0 st ->
  exists ls st',
    for_each (with_score q) elems st = Some (ls, st')
    /\ extends st st'
    /\ Forall2 (fun l sc => view (heap st') l = Some sc) ls (score_all q vs).
Proof.
  induction 1 as [|e v elems vs He Hf IH]; intros st X.
  - exists [], st. split; [reflexivity|]. split; [apply extends_refl|constructor].
  - destruct (with_score_total q e v None st (extends_lookup _ _ _ _ X He))
      as [l [st1 [Ew [X1 V1]]]].
    destruct (IH st1 (extends_trans _ _ _ X X1)) as [ls [st2 [Ef [X2 Hv]]]].
    exists (l :: ls), st2. split; [|split].
    + cbn [for_each]. unfold bind at 1. rewrite Ew. unfold bind at 1. now rewrite Ef.
    + now apply extends_trans with st1.
    + cbn [score_all map]. constructor; [|exact Hv].
      eapply view_weaken; [apply X2|exact V1].
Qed.

Lemma selectTopK_refines q k st index :
  holds st index ->
  exists out st',
    Store.selectTopK q k st = Some (out, st')
    /\ read_scored st' out = Some (Retriever.selectTopK index q k).
Proof.
  intros Hh.
  assert (Hempty : forall st1, exists out st',
             alloc (Arr []) st1 = Some (out, st') /\ read_scored st' out = Some []).
  { intros st1. destruct (alloc (Arr []) st1) as [[out st']|] eqn:Ea; [|discriminate Ea].
    exists out, st'. split; [reflexivity|]. apply alloc_spec in Ea.
    destruct Ea as [_ [_ L]]. unfold read_scored. now rewrite L. }
  unfold holds in Hh. unfold Store.selectTopK, bind at 1, get_vectorIndex.
  destruct (vectorIndex st) as [r|], index as [i|]; try tauto; [|apply Hempty].
  destruct Hh as [_ Hv]. unfold holds_vectors in Hv. cbn [Retriever.selectTopK].
  destruct (vectors_ref r) as [arr|], (vectors i) as [vs|]; try tauto; [| |apply Hempty].
  2:{ destruct Hv as [fields [sc Ha]]. unfold bind at 1, read. rewrite Ha. apply Hempty. }
  destruct Hv as [elems [Ha Hf]].
  unfold bind at 1, read. rewrite Ha.
  assert (El : len elems = len vs) by (unfold len; now rewrite (Forall2_length Hf)).
  rewrite El. destruct (len vs =? 0); [apply Hempty|].
  (* map *)
  unfold bind at 1, array_map, bind at 1, read. rewrite Ha.
  destruct (for_each_with_score_total q st elems vs Hf st (extends_refl st))
    as [ls [st1 [Ef [X1 V1]]]].
  unfold bind at 1. rewrite Ef.
  destruct (alloc (Arr ls) st1) as [[scored st2]|] eqn:Ea; [|discriminate Ea].
  apply alloc_spec in Ea. destruct Ea as [X2 [N2 L2]].
  (* sort *)
  unfold bind at 1, array_sort. rewrite L2. unfold write.
  set (sorted := sort (fun a b => (score_of (heap st2) b - score_of (heap st2) a)%float) ls).
  set (st3 := State (vectorIndex st2) (<[scored := Arr sorted]> (heap st2))).
  assert (V2 : Forall2 (fun l sc => view (heap st2) l = Some sc) ls (score_all q vs)).
  { eapply Forall2_impl; [|exact V1]. intros l sc Hl.
    eapply view_weaken; [apply X2|exact Hl]. }
  assert (V3 : Forall2 (fun l sc => view (heap st2) l = Some sc) sorted
                       (sort comparator (score_all q vs))).
  { apply sort_Forall2; [|exact V2]. intros a b sa sb Hsa Hsb.
    unfold comparator. now rewrite (view_score _ _ _ Hsa), (view_score _ _ _ Hsb). }
  (* slice *)
  assert (L3 : heap st3 !! scored = Some (Arr sorted))
    by (unfold st3; cbn [heap]; apply lookup_insert_eq).
  unfold array_slice, bind at 1, read. rewrite L3.
  destruct (alloc (Arr (slice sorted 0 k)) st3) as [[out st4]|] eqn:Eb; [|discriminate Eb].
  apply alloc_spec in Eb. destruct Eb as [X4 [N4 L4]].
  exists out, st4. split; [reflexivity|].
  unfold read_scored. rewrite L4. apply mapM_Some_2.
  apply slice_Forall2. eapply Forall2_impl; [|exact V3].
  intros l sc Hl. eapply view_weaken; [apply X4|].
  unfold st3. cbn [heap]. eapply view_insert_arr; eassumption.
Qed.

(** C10. A call of [selectTopK] that returns leaves the variable
    [vectorIndex] and every cell the state had as they were (the array of
    the index and each of its records among them), and the array it returns
    is a new one; so the state holds the same index after the call as
    before. On a state that holds an index the call does return, with the
    records the value model of [selectTopK] computes. *)
Theorem selectTopK_preserves_index (q : vector) (k : Z) (st : state) :
  (forall out st',
      Store.selectTopK q k st = Some (out, st') ->
      vectorIndex st' = vectorIndex st
      /\ (forall l c, heap st !! l = Some c -> heap st' !! l = Some c)
      /\ heap st !! out = None
      /\ (forall index, holds st index -> holds st' index))
  /\ (forall index, holds st index ->
      exists out st',
        Store.selectTopK q k st = Some (out, st')
        /\ read_scored st' out = Some (Retriever.selectTopK index q k)
        /\ holds st' index).
Proof.
  split.
  - intros out st' H. apply selectTopK_extends in H. destruct H as [X N].
    split; [apply X|]. split; [|split; [exact N|]].
    + intros l c Hl. now apply extends_lookup with st.
    + intros index. now apply holds_extends.
  - intros index Hh. destruct (selectTopK_refines q k st index Hh) as [out [st' [E R]]].
    exists out, st'. split; [exact E|]. split; [exact R|].
    apply selectTopK_extends in E. destruct E as [X _]. now apply holds_extends with st.
Qed.

Lemma three_state_holds : holds Samples.three_state Samples.three_index.
Proof.
  split; [reflexivity|]. exists [1; 2; 3]%positive. split; [reflexivity|].
  repeat constructor.
Qed.

Lemma selectTopK_preserves_index_witness :
  exists out st',
    Store.selectTopK [1; 0]%float 2 Samples.three_state = Some (out, st')
    /\ read_scored st' out
       = Some (Retriever.selectTopK Samples.three_index [1; 0]%float 2)
    /\ holds st' Samples.three_index.
Proof.
  apply (proj2 (selectTopK_preserves_index [1; 0]%float 2 Samples.three_state)).
  exact three_state_holds.
Defined.

End StoreFacts.


(** ** Reloading the index *)

Section ReloadFacts.

Import Retriever Server.

Context (w : World).

Lemma after_readFile_value answer old :
  fst (after_readFile w answer old) = old \/ parsed w (fst (after_readFile w answer old)).
Proof.
  unfold after_readFile. destruct answer as [raw|]; [|now left].
  destruct (JSON_parse w raw) as [[index|]|] eqn:E; cbn [fst];
    [right; now exists raw|right; now exists raw|now left].
Qed.

Lemma loadIndex_value files old :
  fst (loadIndex w files old) = old \/ parsed w (fst (loadIndex w files old)).
Proof.
  unfold loadIndex. destruct (after_pathExists (pathExists files)) as [[] logs];
    [now left|apply after_readFile_value|now left].
Qed.

Lemma step_whole v0 s s' :
  step w s s' ->
  whole w v0 (index_var s) /\ Forall (whole w v0) (seen s) ->
  whole w v0 (index_var s') /\ Forall (whole w v0) (seen s').
Proof.
  intros Hstep [Hv Hs].
  destruct Hstep as [s|s i answer Hi|s i answer Hi|s]; cbn [index_var seen];
    try (split; assumption).
  - split; [|exact Hs]. unfold whole in *.
    destruct (after_readFile_value answer (index_var s)) as [E|P]; [|now right].
    now rewrite E.
  - split; [exact Hv|]. now constructor.
Qed.

Lemma reachable_whole v0 s :
  rtc (step w) (System v0 [] []) s ->
  whole w v0 (index_var s) /\ Forall (whole w v0) (seen s).
Proof.
  revert s. apply rtc_ind_r.
  - split; [now left|constructor].
  - intros s s' _ Hstep Hs. eapply step_whole; eassumption.
Qed.

End ReloadFacts.

(** C7. One call of [loadIndex] leaves [vectorIndex] as it was when the
    file is missing, cannot be read or does not parse, and otherwise sets it
    to the value [JSON.parse] returned. With any number of calls in flight
    and request handlers reading the variable in between, in any order, the
    variable holds at every moment, and every handler has read, the value
    the variable had at the start or a value [JSON.parse] returned whole:
    the one assignment comes after the parse, so no reader meets an index in
    the making. *)
Theorem loadIndex_atomic (w : Server.World) :
  (forall files old,
      let new := fst (Server.loadIndex w files old) in
      (Server.pathExists files <> Some true -> new = old)
      /\ (Server.readFile files = None -> new = old)
      /\ (forall raw, Server.readFile files = Some raw ->
                      Server.JSON_parse w raw = None -> new = old)
      /\ (forall raw v, Server.pathExists files = Some true ->
                        Server.readFile files = Some raw ->
                        Server.JSON_parse w raw = Some v -> new = v)
      /\ (new = old \/ Server.parsed w new))
  /\ (forall v0 s,
        rtc (Server.step w) (Server.System v0 [] []) s ->
        (Server.index_var s = v0 \/ Server.parsed w (Server.index_var s))
        /\ Forall (fun v => v = v0 \/ Server.parsed w v) (Server.seen s)).
Proof.
  split.
  - intros files old new. subst new. unfold Server.loadIndex, Server.after_pathExists.
    destruct files as [[[|]|] rd]; cbn [Server.pathExists Server.readFile fst].
    + unfold Server.after_readFile. destruct rd as [raw|]; cbn [fst].
      * destruct (Server.JSON_parse w raw) as [[index|]|] eqn:E; cbn [fst];
          repeat split; try congruence; try (now left);
          try (intros raw' v Hp Hr Hv; injection Hr as <-; congruence);
          try (right; now exists raw).
      * repeat split; try congruence; now left.
    + repeat split; try congruence; now left.
    + repeat split; try congruence; now left.
  - intros v0 s H. now apply reachable_whole.
Qed.

Lemma loadIndex_atomic_witness :
  fst (Server.loadIndex Samples.keyless_server Samples.empty_object_file None)
  = Some {| Retriever.vectors := None; Retriever.model := None |}
  /\ fst (Server.loadIndex Samples.keyless_server Samples.no_index_file
                           (Some {| Retriever.vectors := None; Retriever.model := None |}))
     = Some {| Retriever.vectors := None; Retriever.model := None |}.
Proof.
  split.
  - destruct (proj1 (loadIndex_atomic Samples.keyless_server)
                Samples.empty_object_file None) as [_ [_ [_ [H _]]]].
    apply (H (lit "{}")); reflexivity.
  - destruct (proj1 (loadIndex_atomic Samples.keyless_server) Samples.no_index_file
                (Some {| Retriever.vectors := None; Retriever.model := None |}))
      as [H _].
    apply H. discriminate.
Defined.


(** ** A missing credential *)

Section MissingKey.

Import Server.

Lemma handle_answer_without_key w vectorIndex q :
  unset (OPENAI_API_KEY w) = true ->
  handle w vectorIndex (POST_bot_answer q)
  = ({| status := 500; payload := Error (lit "Missing OPENAI_API_KEY") |}, [], vectorIndex).
Proof. intros H. unfold handle. now rewrite H. Qed.

Lemma ingest_without_key w max_length fuel args :
  Ingest.unset (Ingest.OPENAI_API_KEY w) = true ->
  exists events,
    Ingest.main w max_length fuel args = Some events
    /\ last events (Ingest.Exit 0) = Ingest.Exit 1
    /\ Ingest.fetched events = []
    /\ Ingest.written events = None.
Proof.
  intros H. unfold Ingest.main. rewrite H.
  destruct (Ingest.sdk_rejects w (Ingest.OPENAI_API_KEY w)); eexists;
    (split; [reflexivity|]); repeat split.
Qed.

End MissingKey.

(** C3, as the code has it. Without the credential (not set, or set to
    the empty string) the ingestion script ends with exit code 1 before it
    sends a request to the site or writes an index. The server has no check
    of its own at startup: it ends there only when the client library
    refuses the key, as it does for a key that is not set; with a key it
    takes, the empty string for one, the server loads the index and listens,
    answers the health check, and answers every [POST /bot/answer] that
    comes to its handler with status 500 and no call to the embedding or
    completion service, with "Missing OPENAI_API_KEY", or with "Internal
    error" when the question could not be read. *)
Theorem missing_key (max_length : Z) (fuel : nat) (args : Ingest.Args) :
  (forall w : Ingest.World,
      Ingest.unset (Ingest.OPENAI_API_KEY w) = true ->
      exists events,
        Ingest.main w max_length fuel args = Some events
        /\ last events (Ingest.Exit 0) = Ingest.Exit 1
        /\ Ingest.fetched events = []
        /\ Ingest.written events = None)
  /\ (forall (w : Server.World) files,
        Server.unset (Server.OPENAI_API_KEY w) = true ->
        (Server.sdk_rejects w (Server.OPENAI_API_KEY w) = true ->
         Server.start w files = Server.Aborted)
        /\ (Server.sdk_rejects w (Server.OPENAI_API_KEY w) = false ->
            (exists port vectorIndex, Server.start w files = Server.Listening port vectorIndex)
            /\ (forall vectorIndex,
                   Server.handle w vectorIndex Server.GET_health
                   = ({| Server.status := 200; Server.payload := Server.Ok |}, [], vectorIndex))
            /\ (forall vectorIndex q,
                   Wire.bot_answer w vectorIndex q
                   = ({| Server.status := 500;
                         Server.payload :=
                           Server.Error
                             match q with
                             | Wire.Unprintable => lit "Internal error"
                             | _ => lit "Missing OPENAI_API_KEY"
                             end |},
                      [], vectorIndex)))).
Proof.
  split.
  - intros w H. now apply ingest_without_key.
  - intros w files H. split.
    + intros Hr. unfold Server.start. now rewrite Hr.
    + intros Hr. split; [|split].
      * unfold Server.start. rewrite Hr. eauto.
      * reflexivity.
      * intros vectorIndex [|text|]; cbn [Wire.bot_answer];
          [now apply handle_answer_without_key..|reflexivity].
Qed.

Lemma missing_key_witness :
  Wire.bot_answer Samples.keyless_server None (Wire.Printable (lit "hello"))
  = ({| Server.status := 500;
        Server.payload := Server.Error (lit "Missing OPENAI_API_KEY") |}, [], None).
Proof.
  destruct (missing_key 4294967295 0 Ingest.default_args) as [_ H].
  destruct (H Samples.keyless_server Samples.no_index_file eq_refl) as [_ H'].
  destruct (H' eq_refl) as [_ [_ H'']]. apply (H'' None (Wire.Printable (lit "hello"))).
Defined.

(** C3 as stated fails on the server. With the key set to the empty
    string, which the client library takes, the process does not end at
    startup: it listens on port 8787 and answers the health check with
    status 200. *)
Lemma missing_key_counterexample :
  Server.unset (Server.OPENAI_API_KEY Samples.keyless_server) = true
  /\ Server.sdk_rejects Samples.keyless_server
       (Server.OPENAI_API_KEY Samples.keyless_server) = false
  /\ Server.start Samples.keyless_server Samples.no_index_file = Server.Listening 8787 None
  /\ Server.run Samples.keyless_server Samples.no_index_file [Server.GET_health]
     = Some [({| Server.status := 200; Server.payload := Server.Ok |}, [])].
Proof. repeat split. Qed.


(** ** The same-host filter *)

(** C9. [sameHost] answers [true] exactly when both the URL and the site
    parse and their hosts and their protocols are equal; a URL that does not
    parse, and one of another host or protocol, gets [false]. The function
    has a value on every input: an exception of the parser is caught. *)
Theorem sameHost_spec (w : Ingest.World) (url site : jsstring) :
  (Ingest.sameHost w url site = true
   <-> exists a b,
         Ingest.parse_url w url = Some a /\ Ingest.parse_url w site = Some b
         /\ Ingest.host a = Ingest.host b /\ Ingest.protocol a = Ingest.protocol b)
  /\ (Ingest.parse_url w url = None -> Ingest.sameHost w url site = false)
  /\ (forall a b,
         Ingest.parse_url w url = Some a -> Ingest.parse_url w site = Some b ->
         Ingest.host a <> Ingest.host b \/ Ingest.protocol a <> Ingest.protocol b ->
         Ingest.sameHost w url site = false).
Proof.
  unfold Ingest.sameHost, Ingest.same. split; [|split].
  - destruct (Ingest.parse_url w url) as [a|]; [destruct (Ingest.parse_url w site) as [b|]|].
    + rewrite andb_true_iff, !bool_decide_eq_true. split.
      * intros [H1 H2]. now exists a, b.
      * intros [a' [b' [Ea [Eb [H1 H2]]]]]. injection Ea as <-. injection Eb as <-.
        now split.
    + split; [discriminate|]. intros [a' [b' [_ [Eb _]]]]. discriminate.
    + split; [discriminate|]. intros [a' [b' [Ea _]]]. discriminate.
  - now intros ->.
  - intros a b -> -> [H|H]; apply andb_false_iff; [left|right];
      now apply bool_decide_eq_false.
Qed.

Lemma sameHost_spec_witness :
  Ingest.sameHost Samples.twice_listed (lit "http://www.arcade.ai/docs")
                  (lit "https://www.arcade.ai") = false
  /\ Ingest.sameHost Samples.twice_listed (lit "not a url") (lit "https://www.arcade.ai")
     = false.
Proof.
  split.
  - destruct (sameHost_spec Samples.twice_listed (lit "http://www.arcade.ai/docs")
                (lit "https://www.arcade.ai")) as [_ [_ H]].
    eapply H; [reflexivity|reflexivity|]. right. discriminate.
  - destruct (sameHost_spec Samples.twice_listed (lit "not a url")
                (lit "https://www.arcade.ai")) as [_ [H _]].
    apply H. reflexivity.
Defined.

(** ** The ids of an index *)

Section IdFacts.

Import Numeral Ingest.

Lemma units_no_hash d : ~ In 35%N (units d).
Proof.
  induction d; simpl; [tauto|..]; intros [H|H]; try discriminate; auto.
Qed.

Lemma units_inj d1 : forall d2, units d1 = units d2 -> d1 = d2.
Proof.
  induction d1; intros d2; destruct d2; simpl; intros H;
    try discriminate; try reflexivity; injection H as H; f_equal; auto.
Qed.

Lemma decimal_inj i j : decimal i = decimal j -> i = j.
Proof. intros H. apply DecimalNat.Unsigned.to_uint_inj, units_inj, H. Qed.

(** A string is cut at its last '#' in one way only. *)
Lemma hash_split (u : jsstring) : forall u' d d',
  ~ In 35%N d -> ~ In 35%N d' ->
  u ++ 35%N :: d = u' ++ 35%N :: d' -> u = u' /\ d = d'.
Proof.
  induction u as [|x u IH]; intros u' d d' Hd Hd' H; destruct u' as [|x' u']; simpl in H.
  - injection H as H. now split.
  - injection H as Hx H. subst d. elim Hd. apply in_or_app. right. now left.
  - injection H as Hx H. subst d'. elim Hd'. apply in_or_app. right. now left.
  - injection H as Hx H. subst x'. destruct (IH u' d d' Hd Hd' H) as [-> ->]. now split.
Qed.

Lemma make_id_inj u i u' j : make_id u i = make_id u' j -> u = u' /\ i = j.
Proof.
  unfold make_id. simpl. intros H.
  apply hash_split in H; [|apply units_no_hash..].
  destruct H as [-> H]. split; [reflexivity|now apply decimal_inj].
Qed.

Lemma NoDup_app_iff {A} (l k : list A) :
  NoDup (l ++ k) <-> NoDup l /\ (forall x, In x l -> ~ In x k) /\ NoDup k.
Proof.
  induction l as [|a l IH]; simpl.
  - split; [intros H; repeat split; [constructor|tauto|exact H]|tauto].
  - rewrite !NoDup_cons_iff, IH, in_app_iff. split.
    + intros [Ha [Hl [Hd Hk]]]. repeat split; try tauto.
      intros x [->|Hx]; [tauto|now apply Hd].
    + intros [[Ha Hl] [Hd Hk]]. repeat split; try tauto.
      * intros [H|H]; [tauto|]. apply (Hd a); [now left|exact H].
      * intros x Hx. apply Hd. now right.
Qed.



Lemma written_last es index : written (es ++ [WriteIndex index]) = Some index.
Proof. unfold written. now rewrite last_last. Qed.

End IdFacts.

(** ** How the call [chunkText(text)] ends *)

Section ChunkerEngine.

Import Chunker.

Lemma call_loop_unfold m fuel text cs ov st :
  call_loop m fuel text cs ov st =
  if start st <? len text then
    match fuel with
    | O => None
    | S fuel' =>
        let (st', broke) := body text cs ov st in
        if m <? len (chunks st') then Some RangeError
        else if broke then Some (Returned (chunks st'))
        else call_loop m fuel' text cs ov st'
    end
  else Some (Returned (chunks st)).
Proof. destruct fuel; reflexivity. Qed.

(** A call that returns on an engine returns what the loop returns. *)
Lemma call_loop_returned m text cs ov out : forall fuel st,
  call_loop m fuel text cs ov st = Some (Returned out) ->
  loop fuel text cs ov st = Some out.
Proof.
  induction fuel as [|fuel IH]; intros st; rewrite call_loop_unfold, loop_unfold.
  - destruct (start st <? len text); [discriminate|]. intros H. now injection H as <-.
  - destruct (start st <? len text); [|intros H; now injection H as <-].
    destruct (body text cs ov st) as [st' broke].
    destruct (m <? len (chunks st')); [discriminate|].
    destruct broke; [intros H; now injection H as <-|apply IH].
Qed.

Lemma push_chunk_length acc c :
  len (push_chunk acc c) = len acc \/ len (push_chunk acc c) = len acc + 1.
Proof.
  unfold push_chunk. destruct (0 <? len (trim c)); [right|now left].
  rewrite len_app. reflexivity.
Qed.

Lemma loop_grows text cs ov out : forall fuel st,
  loop fuel text cs ov st = Some out -> len (chunks st) <= len out.
Proof.
  induction fuel as [|fuel IH]; intros st; rewrite loop_unfold.
  - destruct (start st <? len text); [discriminate|]. intros H. injection H as <-. lia.
  - destruct (start st <? len text); [|intros H; injection H as <-; lia].
    assert (Hg : len (chunks st) <= len (chunks (fst (body text cs ov st)))).
    { unfold body. cbn [fst chunks].
      destruct (push_chunk_length (chunks st)
                  (slice text (start st) (Z.min (len text) (start st + cs)))); lia. }
    destruct (body text cs ov st) as [st' broke]. cbn [fst] in Hg.
    destruct broke; [intros H; injection H as <-; exact Hg|].
    intros H. apply IH in H. lia.
Qed.

(** What the loop returns, the call returns on every engine with room for
    it. *)
Lemma call_loop_value m text cs ov out : forall fuel st,
  loop fuel text cs ov st = Some out -> len out <= m ->
  call_loop m fuel text cs ov st = Some (Returned out).
Proof.
  induction fuel as [|fuel IH]; intros st; rewrite call_loop_unfold, loop_unfold.
  - destruct (start st <? len text); [discriminate|]. intros H _. now injection H as <-.
  - destruct (start st <? len text); [|intros H _; now injection H as <-].
    destruct (body text cs ov st) as [st' broke]. destruct broke.
    + intros H Hm. injection H as <-. destruct (Z.ltb_spec m (len (chunks st'))); [lia|].
      reflexivity.
    + intros H Hm. assert (Hg := loop_grows text cs ov out fuel st' H).
      destruct (Z.ltb_spec m (len (chunks st'))); [lia|]. now apply IH.
Qed.

(** With a positive overlap no call on a text that is not empty returns a
    value, on any engine. *)
Lemma chunkText_call_no_value m fuel text cs ov out :
  text <> [] -> 0 < ov -> chunkText_call m fuel text cs ov <> Some (Returned out).
Proof.
  intros Hne Hov H. apply call_loop_returned in H.
  unfold chunkText_call in H. fold (chunkText fuel text cs ov) in H.
  rewrite chunkText_diverges in H by assumption. discriminate.
Qed.

(** A range inside a sequence. *)
Lemma slice_inside {A} (s : list A) (a b : Z) :
  0 <= a -> a <= b -> b <= len s ->
  slice s a b = firstn (Z.to_nat (b - a)) (skipn (Z.to_nat a) s).
Proof.
  intros Ha Hab Hb. unfold slice, rel_index.
  destruct (Z.ltb_spec a 0); [lia|]. destruct (Z.ltb_spec b 0); [lia|].
  now rewrite !Z.min_l, Z.max_l by lia.
Qed.

(** A text that [trim] leaves as it is ends with a code unit that is not
    white space. *)
Lemma trimmed_last text :
  trim text = text -> text <> [] -> exists pre c, text = pre ++ [c] /\ is_ws c = false.
Proof.
  unfold trim, trimEnd. intros E Hne.
  assert (Hh := trimStart_head (rev (trimStart text))).
  destruct (trimStart (rev (trimStart text))) as [|c r]; [now elim Hne|].
  exists (rev r), c. split; [now rewrite <- E|exact Hh].
Qed.

(** The window the loop comes to rest on is not blank when the text ends
    with a code unit that is not white space. *)
Lemma rest_window text ov pre c :
  text = pre ++ [c] -> is_ws c = false -> 0 < ov ->
  0 < len (trim (slice text (rest_start text ov) (len text))).
Proof.
  intros E Hc Hov. assert (Hl := len_nonneg text).
  assert (Hlen : len text = len pre + 1) by (rewrite E, len_app; reflexivity).
  assert (Hp := len_nonneg pre).
  unfold rest_start.
  rewrite slice_inside by lia.
  set (s := Z.max 0 (len text - ov)).
  assert (Hb : blank (firstn (Z.to_nat (len text - s)) (skipn (Z.to_nat s) text)) = false).
  { rewrite firstn_all2 by (rewrite length_skipn; unfold len in *; lia).
    rewrite E, skipn_app.
    replace (Z.to_nat s - length pre)%nat with 0%nat by (unfold s, len in *; lia).
    cbn [skipn]. rewrite blank_app. unfold blank at 2. simpl. rewrite Hc.
    now rewrite andb_false_r. }
  destruct (Z.eq_dec (len (trim (firstn (Z.to_nat (len text - s))
                                   (skipn (Z.to_nat s) text)))) 0) as [E0|E0].
  - apply len_nil_iff, trim_nil_iff in E0. congruence.
  - assert (Hn := len_nonneg (trim (firstn (Z.to_nat (len text - s))
                                      (skipn (Z.to_nat s) text)))). lia.
Qed.

(** With [0 < overlap < chunkSize], on a text that ends with a code unit
    that is not white space, the loop comes to rest on its last window and
    pushes it pass after pass, until the array is full and [push] throws. *)
Lemma call_loop_throws m text cs ov pre c :
  text = pre ++ [c] -> is_ws c = false -> 0 < ov < cs ->
  forall fuel st,
    0 <= start st < len text -> len (chunks st) <= m ->
    to_go m text ov st <= Z.of_nat fuel ->
    call_loop m fuel text cs ov st = Some RangeError.
Proof.
  intros E Hc Hov.
  assert (Hw := rest_window text ov pre c E Hc (proj1 Hov)).
  induction fuel as [|fuel IH]; intros st Hst Hm Hf; unfold to_go in Hf.
  - destruct (start st =? rest_start text ov); lia.
  - rewrite call_loop_unfold. destruct (Z.ltb_spec (start st) (len text)); [|lia].
    destruct (body_stays_inside text cs ov st (proj1 Hov)) as [Hin Hbr]; [lia|].
    assert (Hstart :
              start (fst (body text cs ov st)) = rest_start text ov
              \/ (start st + cs < len text
                  /\ start (fst (body text cs ov st)) = start st + cs - ov)).
    { unfold body, rest_start. cbn [fst start].
      destruct (Z.ltb_spec (Z.min (len text) (start st + cs) - ov) 0); lia. }
    assert (Hchunks :
              (start st = rest_start text ov ->
               len (chunks (fst (body text cs ov st))) = len (chunks st) + 1)
              /\ len (chunks st) <= len (chunks (fst (body text cs ov st)))).
    { unfold body. cbn [fst chunks]. split.
      - intros Es. rewrite Es. unfold rest_start at 2.
        rewrite Z.min_l by (unfold rest_start; lia).
        unfold push_chunk. apply Z.ltb_lt in Hw. rewrite Hw.
        rewrite len_app. reflexivity.
      - destruct (push_chunk_length (chunks st)
                    (slice text (start st) (Z.min (len text) (start st + cs)))); lia. }
    destruct (body text cs ov st) as [st' broke]. cbn [fst snd] in *. subst broke.
    destruct (Z.ltb_spec m (len (chunks st'))) as [Hfull|Hroom]; [reflexivity|].
    apply IH; [exact Hin|exact Hroom|]. unfold to_go.
    destruct Hchunks as [Hc1 Hc2].
    destruct (Z.eqb_spec (start st) (rest_start text ov)) as [Es|Es].
    + specialize (Hc1 Es).
      destruct (Z.eqb_spec (start st') (rest_start text ov)); unfold rest_start in *; lia.
    + destruct (Z.eqb_spec (start st') (rest_start text ov)); unfold rest_start in *; lia.
Qed.

Lemma chunkText_call_throws m text cs ov fuel :
  trim text = text -> text <> [] -> 0 < ov < cs -> 0 <= m ->
  (Z.to_nat (len text + m + 1) <= fuel)%nat ->
  chunkText_call m fuel text cs ov = Some RangeError.
Proof.
  intros Et Hne Hov Hm Hf. destruct (trimmed_last text Et Hne) as [pre [c [E Hc]]].
  assert (Hl := len_nonneg text). assert (len text <> 0) by now rewrite len_nil_iff.
  apply (call_loop_throws m text cs ov pre c E Hc Hov); cbn [start chunks].
  - lia.
  - unfold len. simpl. lia.
  - unfold to_go. cbn [start chunks].
    change (len (@nil jsstring)) with 0.
    destruct (0 =? rest_start text ov); lia.
Qed.

End ChunkerEngine.

(** ** No record is ever pushed *)

Section NoRecord.

Import Ingest.

Context (w : World) (max_length : Z).

Lemma long_text_call (text : jsstring) : 200 <= len text -> text <> [].
Proof. intros H E. subst text. unfold len in H. simpl in H. lia. Qed.

(** A pass of the loop that ends pushed nothing: the call [chunkText(text)]
    returns no value. *)
Lemma ingest_page_no_record fuel u vs es :
  ingest_page w max_length fuel u = Some (vs, es) -> vs = [].
Proof.
  unfold ingest_page. destruct (fetch w u) as [data|]; [|intros H; now injection H as <- _].
  destruct (extractTitleAndText w data) as [title text].
  destruct (Z.ltb_spec (len text) 200) as [Hl|Hl]; [intros H; now injection H as <- _|].
  destruct (Chunker.chunkText_call max_length fuel text _ _) as [[chunks|]|] eqn:Ec;
    [|intros H; now injection H as <- _|discriminate].
  exfalso. revert Ec. apply chunkText_call_no_value; [now apply long_text_call|].
  unfold Chunker.default_overlap. lia.
Qed.

Lemma ingest_pages_no_record fuel urls : forall vs es,
  ingest_pages w max_length fuel urls = Some (vs, es) -> vs = [].
Proof.
  induction urls as [|u urls IH]; intros vs es; cbn [ingest_pages].
  - intros H. now injection H as <- _.
  - destruct (ingest_page w max_length fuel u) as [[vs1 es1]|] eqn:E1; [|discriminate].
    destruct (ingest_pages w max_length fuel urls) as [[vs2 es2]|] eqn:E2; [|discriminate].
    intros H. injection H as <- _.
    now rewrite (ingest_page_no_record _ _ _ _ E1), (IH _ _ eq_refl).
Qed.

(** A run that ends either stopped before the discovery, or went through
    every discovered page and wrote the index, with no vector in it. *)
Lemma main_ends fuel args events :
  main w max_length fuel args = Some events ->
  (written events = None /\ Run.pages events = [])
  \/ (exists es,
        ingest_pages w max_length fuel (discover w args) = Some ([], es)
        /\ events = discovery w args ++ es
                    ++ [WriteIndex {| site := arg_site args;
                                      generatedAt := clock w;
                                      model := embedding_model w;
                                      vectors := [] |}]).
Proof.
  unfold main. intros H.
  destruct (sdk_rejects w (OPENAI_API_KEY w)); [injection H as <-; now left|].
  destruct (unset (OPENAI_API_KEY w)); [injection H as <-; now left|].
  destruct (disk_error w); [injection H as <-; now left|].
  destruct (ingest_pages w max_length fuel (discover w args)) as [[vs es]|] eqn:E;
    [|discriminate].
  injection H as <-. right. rewrite (ingest_pages_no_record _ _ _ _ E) in *.
  now exists es.
Qed.

Lemma written_index args vs es :
  written (discovery w args ++ es
           ++ [WriteIndex {| site := arg_site args; generatedAt := clock w;
                             model := embedding_model w; vectors := vs |}])
  = Some {| site := arg_site args; generatedAt := clock w;
            model := embedding_model w; vectors := vs |}.
Proof. rewrite app_assoc. apply written_last. Qed.

(** *** The script ends *)

Hypothesis engine : 0 <= max_length.

(** The text of every page is trimmed, as [extractTitleAndText] leaves
    it. *)
Hypothesis trimmed :
  forall data, trim (snd (extractTitleAndText w data)) = snd (extractTitleAndText w data).

Lemma ingest_page_ends u :
  exists fuel0, forall fuel, (fuel0 <= fuel)%nat ->
    exists es, ingest_page w max_length fuel u = Some ([], es).
Proof.
  unfold ingest_page. destruct (fetch w u) as [data|]; [|exists 0%nat; now eexists].
  specialize (trimmed data).
  destruct (extractTitleAndText w data) as [title text]. cbn [snd] in trimmed.
  destruct (Z.ltb_spec (len text) 200) as [Hl|Hl]; [exists 0%nat; now eexists|].
  exists (Z.to_nat (len text + max_length + 1)). intros fuel Hf.
  rewrite chunkText_call_throws;
    [now eexists|exact trimmed|now apply long_text_call| |exact engine|exact Hf].
  unfold Chunker.default_overlap, Chunker.default_chunkSize. lia.
Qed.

Lemma ingest_pages_ends urls :
  exists fuel0, forall fuel, (fuel0 <= fuel)%nat ->
    exists es, ingest_pages w max_length fuel urls = Some ([], es).
Proof.
  induction urls as [|u urls [f2 IH]]; [exists 0%nat; now eexists|].
  destruct (ingest_page_ends u) as [f1 H1].
  exists (Nat.max f1 f2). intros fuel Hf. cbn [ingest_pages].
  destruct (H1 fuel) as [es1 ->]; [lia|]. destruct (IH fuel) as [es2 ->]; [lia|].
  now eexists.
Qed.

End NoRecord.



(** * Further properties of the code *)

(** ** The chunker on every pair of sizes *)

Section ChunkerSizes.

Import Chunker.

(** With an overlap that is not positive and below [chunkSize] each pass
    moves the start forward by at least one, so the loop is left after at
    most [len text] passes. *)
Lemma loop_advances text cs ov :
  ov <= 0 -> ov < cs ->
  forall fuel st,
    0 <= start st -> len text - start st <= Z.of_nat fuel ->
    exists out, loop fuel text cs ov st = Some out.
Proof.
  intros Hov Hcs. induction fuel as [|fuel IH]; intros st Hst Hf; rewrite loop_unfold.
  - destruct (Z.ltb_spec (start st) (len text)); [lia|]. now eexists.
  - destruct (Z.ltb_spec (start st) (len text)) as [Hlt|Hge]; [|now eexists].
    unfold body. cbv zeta.
    set (stop := Z.min (len text) (start st + cs)).
    set (start2 := if stop - ov <? 0 then 0 else stop - ov).
    destruct (Z.leb_spec (len text) start2) as [Hb|Hb]; [now eexists|].
    apply IH; cbn [start].
    + unfold start2. destruct (Z.ltb_spec (stop - ov) 0); lia.
    + unfold start2, stop in *. destruct (Z.ltb_spec (Z.min (len text) (start st + cs) - ov) 0); lia.
Qed.

(** With [chunkSize <= overlap <= 0] the start computed at 0 is 0 again. *)
Lemma loop_stuck text cs ov :
  0 < len text -> cs <= ov -> ov <= 0 ->
  forall fuel acc, loop fuel text cs ov (LoopState 0 acc) = None.
Proof.
  intros Hlen Hcs Hov. induction fuel as [|fuel IH]; intros acc; rewrite loop_unfold;
    cbn [start]; destruct (Z.ltb_spec 0 (len text)); try lia; [reflexivity|].
  unfold body. cbn [start chunks]. rewrite Z.add_0_l.
  rewrite Z.min_r by lia.
  assert (E : (if cs - ov <? 0 then 0 else cs - ov) = 0)
    by (destruct (Z.ltb_spec (cs - ov) 0); lia).
  rewrite E. destruct (Z.leb_spec (len text) 0); [lia|]. apply IH.
Qed.

End ChunkerSizes.

(** X1. For every text and every pair of integers [chunkSize], [overlap],
    [chunkText] returns exactly when the text is empty, or the overlap is not
    positive and is below [chunkSize]. In every other case (a positive
    overlap; a [chunkSize] of 0 or below with an overlap that is not smaller)
    the call returns no value: the loop is left by the [RangeError] of a
    [push], if at all. *)
Theorem chunkText_returns_on (text : jsstring) (chunkSize overlap : Z) :
  (exists fuel out, Chunker.chunkText fuel text chunkSize overlap = Some out)
  <-> (text = [] \/ (overlap <= 0 /\ overlap < chunkSize)).
Proof.
  assert (Hl := len_nonneg text). split.
  - intros [fuel [out H]]. destruct text as [|c text]; [now left|right].
    destruct (Z.le_gt_cases overlap 0) as [Hov|Hov].
    + split; [exact Hov|]. destruct (Z.lt_ge_cases overlap chunkSize) as [Hc|Hc]; [exact Hc|].
      unfold Chunker.chunkText in H. rewrite loop_stuck in H; [discriminate| |lia|lia].
      unfold len. simpl. lia.
    + rewrite chunkText_diverges in H; [discriminate|discriminate|lia].
  - intros [->|[Hov Hc]].
    + exists 0%nat, []. reflexivity.
    + exists (length text).
      apply (loop_advances text chunkSize overlap Hov Hc); cbn [Chunker.start]; [lia|].
      unfold len. lia.
Qed.

(** ** What the chunks keep of the text *)

Section ChunkerContent.

Import Chunker Content.

Lemma visible_app s t : visible (s ++ t) = visible s ++ visible t.
Proof. apply filter_app. Qed.

Lemma visible_blank s : blank s = true -> visible s = [].
Proof.
  unfold blank, visible. induction s as [|c r IH]; [reflexivity|]. simpl.
  destruct (is_ws c); [exact IH|discriminate].
Qed.

Lemma visible_rev s : visible (rev s) = rev (visible s).
Proof.
  unfold visible. induction s as [|c r IH]; [reflexivity|]. simpl.
  rewrite filter_app, IH. simpl. destruct (negb (is_ws c)); simpl; [reflexivity|].
  now rewrite app_nil_r.
Qed.

Lemma visible_trimStart s : visible (trimStart s) = visible s.
Proof.
  destruct (trimStart_suffix s) as [p [Hp Hb]]. rewrite Hp at 2.
  now rewrite visible_app, (visible_blank p Hb).
Qed.

(** [trim] removes white space only. *)
Lemma visible_trim s : visible (trim s) = visible s.
Proof.
  unfold trim, trimEnd.
  now rewrite visible_rev, visible_trimStart, visible_rev, rev_involutive, visible_trimStart.
Qed.

Lemma trimStart_id s : Forall (fun c => is_ws c = false) s -> trimStart s = s.
Proof. intros H. destruct H as [|c r Hc _]; [reflexivity|]. simpl. now rewrite Hc. Qed.

Lemma trim_id s : Forall (fun c => is_ws c = false) s -> trim s = s.
Proof.
  intros H. unfold trim, trimEnd. rewrite (trimStart_id s H).
  rewrite trimStart_id; [apply rev_involutive|].
  apply Forall_forall. intros c Hc. apply in_rev in Hc. revert c Hc. now apply Forall_forall.
Qed.

Lemma concat_kept ws : visible (concat (kept ws)) = visible (concat ws).
Proof.
  unfold kept. induction ws as [|w ws IH]; [reflexivity|]. simpl.
  rewrite visible_app, <- IH, <- (visible_trim w).
  destruct (Z.ltb_spec 0 (len (trim w))) as [Hp|Hp].
  - simpl. now rewrite visible_app.
  - assert (E : trim w = []).
    { apply len_nil_iff. assert (Hn := len_nonneg (trim w)). lia. }
    now rewrite E.
Qed.

Lemma concat_kept_id ws :
  Forall (Forall (fun c => is_ws c = false)) ws -> concat (kept ws) = concat ws.
Proof.
  unfold kept. induction 1 as [|w ws Hw _ IH]; [reflexivity|]. simpl.
  rewrite (trim_id w Hw). destruct w as [|c w]; simpl; [exact IH|].
  destruct (Z.ltb_spec 0 (len (c :: w))) as [Hp|Hp]; [simpl; now rewrite IH|].
  unfold len in Hp. simpl in Hp. lia.
Qed.

(** The windows, one after the other, are the text. *)
Lemma concat_windows_from text cs :
  0 < cs ->
  forall r i,
    (i + r)%nat = Z.to_nat (ceil_div (len text) cs) ->
    concat (map (window text cs) (seq i r)) = skipn (Z.to_nat (Z.of_nat i * cs)) text.
Proof.
  intros Hcs. assert (Hl := len_nonneg text).
  assert (HN := ceil_div_nonneg (len text) cs Hl Hcs).
  induction r as [|r IH]; intros i Hi.
  - assert (~ Z.of_nat i * cs < len text) by (rewrite <- ceil_div_gt by lia; lia).
    simpl. symmetry. apply skipn_all2. unfold len in *. lia.
  - assert (Hin : Z.of_nat i * cs < len text) by (rewrite <- ceil_div_gt by lia; lia).
    cbn [seq map concat]. rewrite IH by lia.
    unfold window. rewrite slice_inside by lia.
    set (a := Z.of_nat i * cs) in *.
    destruct (Z.le_gt_cases (len text) (a + cs)) as [Hend|Hend].
    + rewrite Z.min_l by lia.
      rewrite (skipn_all2 text (n := Z.to_nat (Z.of_nat (S i) * cs))) by (unfold len in *; lia).
      rewrite app_nil_r. apply firstn_all2. rewrite length_skipn. unfold len in *. lia.
    + rewrite Z.min_r by lia.
      replace (Z.to_nat (Z.of_nat (S i) * cs)) with (Z.to_nat (a + cs - a) + Z.to_nat a)%nat by lia.
      rewrite <- skipn_skipn. apply firstn_skipn.
Qed.

Lemma concat_windows text cs : 0 < cs -> concat (windows text cs) = text.
Proof.
  intros Hcs. unfold windows.
  now rewrite (concat_windows_from text cs Hcs _ 0%nat) by reflexivity.
Qed.

Lemma window_units text cs i c : 0 < cs -> In c (window text cs i) -> In c text.
Proof.
  intros Hcs Hin. rewrite <- (concat_windows text cs Hcs). apply in_concat.
  destruct (Nat.lt_ge_cases i (Z.to_nat (ceil_div (len text) cs))) as [Hi|Hi].
  - exists (window text cs i). split; [|exact Hin]. unfold windows.
    apply in_map, in_seq. lia.
  - exfalso. assert (Hl := len_nonneg text).
    assert (HN := ceil_div_nonneg (len text) cs Hl Hcs).
    assert (~ Z.of_nat i * cs < len text) by (rewrite <- ceil_div_gt by lia; lia).
    unfold window, slice, rel_index in Hin.
    destruct (Z.ltb_spec (Z.of_nat i * cs) 0); [lia|].
    rewrite (Z.min_r (Z.of_nat i * cs)) in Hin by lia.
    rewrite skipn_all2, firstn_nil in Hin by (unfold len; lia). exact Hin.
Qed.

End ChunkerContent.

(** X2. Without overlap the chunks keep the text: read one after the other
    they show every code unit of the text that is not white space, once and
    in order; and a text that holds no white space is cut into pieces that,
    joined, are the text again. *)
Theorem chunkText_keeps_text (text : jsstring) (chunkSize : Z) :
  0 < chunkSize ->
  exists out,
    Chunker.chunkText (length text) text chunkSize 0 = Some out
    /\ Content.visible (concat out) = Content.visible text
    /\ (Forall (fun c => is_ws c = false) text -> concat out = text).
Proof.
  intros Hcs. exists (Chunker.kept (Chunker.windows text chunkSize)).
  split; [now apply chunkText_no_overlap|]. split.
  - now rewrite concat_kept, concat_windows.
  - intros Hws. rewrite concat_kept_id; [now apply concat_windows|].
    unfold Chunker.windows. apply Forall_forall. intros w Hw.
    apply in_map_iff in Hw. destruct Hw as [i [<- _]].
    apply Forall_forall. intros c Hc. apply (window_units text chunkSize i c Hcs) in Hc.
    revert c Hc. now apply Forall_forall.
Qed.

Lemma chunkText_keeps_text_witness :
  exists out,
    Chunker.chunkText 11 (lit "hello world") 4 0 = Some out
    /\ Content.visible (concat out) = lit "helloworld".
Proof.
  destruct (chunkText_keeps_text (lit "hello world") 4) as [out [H1 [H2 _]]]; [lia|].
  exists out. split; [exact H1|exact H2].
Defined.

(** ** The text taken from a page *)

Section ExtractFacts.

Import Content Extract.

Lemma trimStart_idem s : trimStart (trimStart s) = trimStart s.
Proof.
  assert (H := trimStart_head s). destruct (trimStart s) as [|c r]; [reflexivity|].
  simpl. now rewrite H.
Qed.

Lemma trimStart_snoc l c : is_ws c = false -> trimStart (l ++ [c]) = trimStart l ++ [c].
Proof.
  intros Hc. induction l as [|x l IH]; simpl; [now rewrite Hc|].
  destruct (is_ws x); [exact IH|reflexivity].
Qed.

Lemma trimEnd_cons c r : is_ws c = false -> trimEnd (c :: r) = c :: trimEnd r.
Proof.
  intros Hc. unfold trimEnd. simpl. rewrite trimStart_snoc by exact Hc.
  now rewrite rev_app_distr.
Qed.

Lemma trimEnd_idem s : trimEnd (trimEnd s) = trimEnd s.
Proof. unfold trimEnd. now rewrite rev_involutive, trimStart_idem. Qed.

Lemma trimStart_trim s : trimStart (trim s) = trim s.
Proof.
  unfold trim. assert (H := trimStart_head s).
  destruct (trimStart s) as [|c r]; [reflexivity|].
  rewrite trimEnd_cons by exact H. simpl. now rewrite H.
Qed.

(** [trim] changes nothing in what it returned. *)
Lemma trim_idem s : trim (trim s) = trim s.
Proof.
  unfold trim at 1. rewrite trimStart_trim. unfold trim. apply trimEnd_idem.
Qed.

(** What [trim] returns is a piece of its argument, between two blank
    ends. *)
Lemma trim_infix s : exists p q, s = p ++ trim s ++ q /\ blank p = true /\ blank q = true.
Proof.
  destruct (trimStart_suffix s) as [p [Hp Hbp]].
  destruct (trimStart_suffix (rev (trimStart s))) as [q [Hq Hbq]].
  exists p, (rev q). unfold trim, trimEnd. split; [|split; [exact Hbp|now rewrite blank_rev]].
  rewrite <- rev_app_distr, <- Hq, rev_involutive. exact Hp.
Qed.

Lemma blank_squeeze b s : blank (squeeze_from b s) = blank s.
Proof.
  revert b. unfold blank. induction s as [|c r IH]; intros b; [reflexivity|]. simpl.
  destruct (is_ws c) eqn:E.
  - destruct b; simpl; now rewrite IH.
  - simpl. now rewrite E.
Qed.

Lemma visible_squeeze b s : visible (squeeze_from b s) = visible s.
Proof.
  revert b. unfold visible. induction s as [|c r IH]; intros b; [reflexivity|]. simpl.
  destruct (is_ws c) eqn:E; simpl.
  - destruct b; simpl; now rewrite IH.
  - rewrite E. simpl. now rewrite IH.
Qed.

Lemma squeeze_spaces b s :
  Forall (fun c => is_ws c = true -> c = 32%N) (squeeze_from b s).
Proof.
  revert b. induction s as [|c r IH]; intros b; simpl; [constructor|].
  destruct (is_ws c) eqn:E.
  - destruct b; [apply IH|]. constructor; [reflexivity|apply IH].
  - constructor; [congruence|apply IH].
Qed.

Lemma squeeze_spaced b s : spaced b (squeeze_from b s).
Proof.
  revert b. induction s as [|c r IH]; intros b; simpl; [exact I|].
  destruct (is_ws c) eqn:E.
  - destruct b; [apply IH|]. simpl. split; [discriminate|apply IH].
  - simpl. rewrite E. split; [reflexivity|apply IH].
Qed.

Lemma spaced_weaken b s : spaced b s -> spaced false s.
Proof. destruct s as [|c r]; [trivial|]. simpl. intros [_ H]. split; [discriminate|exact H]. Qed.

Lemma spaced_app b p t : spaced b (p ++ t) -> spaced b p /\ spaced false t.
Proof.
  revert b. induction p as [|c p IH]; intros b; simpl.
  - intros H. split; [exact I|now apply spaced_weaken with b].
  - intros [Hc H]. destruct (IH _ H) as [H1 H2]. repeat split; assumption.
Qed.

Lemma spaced_adjacent s c d :
  spaced false s -> adjacent s c d -> is_ws c = true -> is_ws d = false.
Proof.
  intros Hs [p [q ->]] Hc. apply spaced_app in Hs. destruct Hs as [_ Hs].
  simpl in Hs. destruct Hs as [_ [Hd _]]. now apply Hd.
Qed.

(** A text that is spaced already, with spaces for its white space, is
    what [squeeze] makes of it. *)
Lemma squeeze_id b s :
  spaced b s -> Forall (fun c => is_ws c = true -> c = 32%N) s -> squeeze_from b s = s.
Proof.
  revert b. induction s as [|c r IH]; intros b Hs Hf; [reflexivity|]. simpl in *.
  destruct Hs as [Hb Hs]. apply Forall_cons_iff in Hf. destruct Hf as [Hc Hf].
  destruct (is_ws c) eqn:E.
  - destruct b; [specialize (Hb eq_refl); discriminate|].
    rewrite (Hc eq_refl). f_equal. now apply IH.
  - f_equal. now apply IH.
Qed.

End ExtractFacts.

(** X3. The title and the text [extractTitleAndText] returns are trimmed.
    In the text every white-space code unit is a space and no two spaces
    stand side by side; the text shows the code units of the body that are
    not white space, all of them and in order; it is empty exactly when the
    body is blank; and it is a fixed point of the normalisation. *)
Theorem extractTitleAndText_normal (title_of body_of : jsstring -> jsstring)
  (html : jsstring) :
  let title := fst (Extract.extractTitleAndText title_of body_of html) in
  let text := snd (Extract.extractTitleAndText title_of body_of html) in
  trim title = title
  /\ trim text = text
  /\ Forall (fun c => is_ws c = true -> c = 32%N) text
  /\ (forall c d, Extract.adjacent text c d -> is_ws c = true -> is_ws d = false)
  /\ Content.visible text = Content.visible (body_of html)
  /\ (text = [] <-> blank (body_of html) = true)
  /\ trim (Extract.squeeze text) = text.
Proof.
  cbn [Extract.extractTitleAndText fst snd]. unfold Extract.squeeze.
  set (body := body_of html).
  destruct (trim_infix (Extract.squeeze_from false body)) as [p [q [Hpq [Hp Hq]]]].
  set (text := trim (Extract.squeeze_from false body)) in *.
  assert (Hsp : Extract.spaced false text).
  { assert (H := squeeze_spaced false body). rewrite Hpq in H.
    apply spaced_app in H. destruct H as [_ H].
    apply spaced_app in H. destruct H as [H _]. exact H. }
  assert (Hf : Forall (fun c => is_ws c = true -> c = 32%N) text).
  { assert (H := squeeze_spaces false body). rewrite Hpq in H.
    apply Forall_app in H. destruct H as [_ H].
    apply Forall_app in H. destruct H as [H _]. exact H. }
  split; [apply trim_idem|]. split; [apply trim_idem|]. split; [exact Hf|].
  split; [intros c d; now apply spaced_adjacent|].
  split; [unfold text; now rewrite visible_trim, visible_squeeze|].
  split; [unfold text; now rewrite trim_nil_iff, blank_squeeze|].
  rewrite squeeze_id by assumption. apply trim_idem.
Qed.

(** ** The discovery of the pages *)

Section DiscoveryFacts.

Import Ingest.

Context (w : World).

Lemma same_eq (a b : jsstring) : same a b = true <-> a = b.
Proof. unfold same. apply bool_decide_eq_true. Qed.

Lemma set_add_NoDup urls abs : NoDup urls -> NoDup (set_add urls abs).
Proof.
  intros H. unfold set_add. destruct (existsb (same abs) urls) eqn:E; [exact H|].
  apply NoDup_app_iff. repeat split; [exact H| |repeat constructor; intros []].
  intros x Hx [Ex|[]]. subst x.
  assert (Ea : existsb (same abs) urls = true)
    by (apply existsb_exists; exists abs; split; [exact Hx|now apply same_eq]).
  congruence.
Qed.

Lemma set_add_In urls abs x : In x (set_add urls abs) -> In x urls \/ x = abs.
Proof.
  unfold set_add. destruct (existsb (same abs) urls); [now left|].
  intros H. apply in_app_or in H. destruct H as [H|[<-|[]]]; [now left|now right].
Qed.

(** What the loop over the anchors keeps true of the set [urls]. *)
Lemma anchors_loop site (P : jsstring -> Prop) hrefs :
  (forall href abs, In href hrefs -> href <> [] -> resolve w href site = Some abs ->
                    sameHost w abs site = true -> P abs) ->
  forall urls,
    NoDup urls -> Forall P urls ->
    let out :=
      fold_left
        (fun urls href =>
           if nonempty href then
             match resolve w href site with
             | Some abs => if sameHost w abs site then set_add urls abs else urls
             | None => urls
             end
           else urls)
        hrefs urls in
    NoDup out /\ Forall P out.
Proof.
  induction hrefs as [|href hrefs IH]; intros HP urls Hn Hf; cbn [fold_left]; [now split|].
  apply IH.
  - intros h abs Hh. apply HP. now right.
  - destruct (nonempty href); [|exact Hn].
    destruct (resolve w href site) as [abs|]; [|exact Hn].
    destruct (sameHost w abs site); [now apply set_add_NoDup|exact Hn].
  - destruct href as [|c href]; [exact Hf|]. cbn [nonempty].
    destruct (resolve w (c :: href) site) as [abs|] eqn:Er; [|exact Hf].
    destruct (sameHost w abs site) eqn:Es; [|exact Hf].
    apply Forall_forall. intros x Hx. apply set_add_In in Hx. destruct Hx as [Hx| ->].
    + revert x Hx. now apply Forall_forall.
    + apply (HP (c :: href) abs); [now left|discriminate|exact Er|exact Es].
Qed.

Lemma slice_from_start {A} (l : list A) (k : Z) : exists n, slice l 0 k = firstn n l.
Proof.
  unfold slice. exists (Z.to_nat (Z.max (rel_index (len l) k - rel_index (len l) 0) 0)).
  assert (E : rel_index (len l) 0 = 0).
  { unfold rel_index. assert (Hl := len_nonneg l). change (0 <? 0) with false. cbv iota. lia. }
  rewrite E. reflexivity.
Qed.

Lemma firstn_Forall {A} (P : A -> Prop) n (l : list A) : Forall P l -> Forall P (firstn n l).
Proof.
  intros H. rewrite <- (firstn_skipn n l) in H. apply Forall_app in H. tauto.
Qed.

Lemma discover_sameHost args :
  Forall (fun u => sameHost w u (arg_site args) = true) (discover w args).
Proof.
  unfold discover. cbv zeta.
  destruct (slice_from_start
              (List.filter (fun u => sameHost w u (arg_site args))
                 (if len (fetchSitemapUrls w (arg_site args)) =? 0
                  then fetchHomepageUrls w (arg_site args)
                  else fetchSitemapUrls w (arg_site args))) (limit args)) as [n ->].
  apply firstn_Forall. apply Forall_forall. intros u Hu. apply filter_In in Hu. tauto.
Qed.

Lemma discover_limit args : 0 <= limit args -> len (discover w args) <= limit args.
Proof.
  intros Hk. unfold discover. cbv zeta. rewrite slice_prefix by exact Hk.
  unfold len. rewrite length_firstn. lia.
Qed.

End DiscoveryFacts.

(** X4. Every URL [fetchSitemapUrls] returns is not empty and is trimmed;
    an entry without [loc], or with a blank one, gives none, so there are at
    most as many URLs as entries; and a sitemap that cannot be fetched or
    read gives no URL. *)
Theorem fetchSitemapUrls_entries (w : Ingest.World) (site : jsstring) :
  Forall (fun u => u <> [] /\ trim u = u) (Ingest.fetchSitemapUrls w site)
  /\ (forall entries, Ingest.sitemap w site = Some entries ->
        len (Ingest.fetchSitemapUrls w site) <= len entries)
  /\ (Ingest.sitemap w site = None -> Ingest.fetchSitemapUrls w site = []).
Proof.
  unfold Ingest.fetchSitemapUrls. split; [|split].
  - destruct (Ingest.sitemap w site) as [entries|]; [|constructor].
    apply Forall_forall. intros u Hu. apply filter_In in Hu. destruct Hu as [Hu Hne].
    apply in_map_iff in Hu. destruct Hu as [loc [<- _]].
    split; [|apply trim_idem]. intros E. rewrite E in Hne. discriminate.
  - intros entries ->. unfold len.
    assert (H := filter_length_le Ingest.nonempty
                   (map (fun loc => trim (match loc with Some s => s | None => [] end)) entries)).
    rewrite length_map in H. lia.
  - now intros ->.
Qed.

Lemma fetchSitemapUrls_entries_witness :
  Ingest.fetchSitemapUrls Scenarios.unreachable_site (lit "https://www.arcade.ai")
  = [lit "https://www.arcade.ai/a"; lit "https://elsewhere.example/b"]
  /\ Forall (fun u => u <> [] /\ trim u = u)
            (Ingest.fetchSitemapUrls Scenarios.unreachable_site (lit "https://www.arcade.ai")).
Proof.
  split; [reflexivity|].
  apply (fetchSitemapUrls_entries Scenarios.unreachable_site (lit "https://www.arcade.ai")).
Defined.

(** X5. The URLs [fetchHomepageUrls] returns are pairwise distinct, each is
    of the host and the protocol of the site, and each is what an [href] of
    the homepage resolves to; a homepage that cannot be fetched gives none. *)
Theorem fetchHomepageUrls_set (w : Ingest.World) (site : jsstring) :
  NoDup (Ingest.fetchHomepageUrls w site)
  /\ Forall (fun u => Ingest.sameHost w u site = true
                      /\ exists hrefs href,
                           Ingest.anchors w site = Some hrefs /\ In href hrefs
                           /\ Ingest.resolve w href site = Some u)
            (Ingest.fetchHomepageUrls w site)
  /\ (Ingest.anchors w site = None -> Ingest.fetchHomepageUrls w site = []).
Proof.
  unfold Ingest.fetchHomepageUrls.
  destruct (Ingest.anchors w site) as [hrefs|] eqn:E.
  - destruct (anchors_loop w site
                (fun u => Ingest.sameHost w u site = true
                          /\ exists hs href,
                               Some hrefs = Some hs /\ In href hs
                               /\ Ingest.resolve w href site = Some u)
                hrefs) with (urls := @nil jsstring) as [H1 H2].
    + intros href abs Hin _ Hr Hs. split; [exact Hs|]. now exists hrefs, href.
    + constructor.
    + constructor.
    + split; [exact H1|]. split; [exact H2|discriminate].
  - split; [constructor|]. split; [constructor|reflexivity].
Qed.

Lemma fetchHomepageUrls_set_witness :
  Ingest.fetchHomepageUrls Scenarios.linked_site (lit "https://www.arcade.ai")
  = [lit "https://www.arcade.ai/docs"]
  /\ NoDup (Ingest.fetchHomepageUrls Scenarios.linked_site (lit "https://www.arcade.ai")).
Proof.
  split; [reflexivity|].
  apply (fetchHomepageUrls_set Scenarios.linked_site (lit "https://www.arcade.ai")).
Defined.

(** ** A run of the ingestion *)

Section RunFacts.

Import Ingest.

Context (w : World) (max_length : Z).

Lemma pages_app es es' : Run.pages (es ++ es') = Run.pages es ++ Run.pages es'.
Proof. unfold Run.pages. apply flat_map_app. Qed.

Lemma pages_discovery args : Run.pages (discovery w args) = [].
Proof.
  unfold discovery. simpl.
  now destruct (len (fetchSitemapUrls w (arg_site args)) =? 0).
Qed.

(** Each pass of the loop requests its page, once, and warns when it gives
    up a page whose text has 200 code units or more. *)
Lemma ingest_page_events fuel u vs es :
  ingest_page w max_length fuel u = Some (vs, es) ->
  Run.pages es = [u]
  /\ (forall data, fetch w u = Some data ->
        200 <= len (snd (extractTitleAndText w data)) -> In (Warn u) es).
Proof.
  unfold ingest_page. destruct (fetch w u) as [data|];
    [|intros H; injection H as _ <-; split; [reflexivity|discriminate]].
  destruct (extractTitleAndText w data) as [title text] eqn:Et.
  destruct (Z.ltb_spec (len text) 200) as [Hl|Hl].
  - intros H. injection H as _ <-. split; [reflexivity|].
    intros data' Hd. injection Hd as <-. rewrite Et. cbn [snd]. lia.
  - destruct (Chunker.chunkText_call max_length fuel text _ _) as [[chunks|]|] eqn:Ec;
      [|intros H; injection H as _ <-; split; [reflexivity|intros; right; now left]
       |discriminate].
    exfalso. revert Ec. apply chunkText_call_no_value; [now apply long_text_call|].
    unfold Chunker.default_overlap. lia.
Qed.

Lemma ingest_pages_events fuel urls : forall vs es,
  ingest_pages w max_length fuel urls = Some (vs, es) ->
  Run.pages es = urls
  /\ (forall u data, In u urls -> fetch w u = Some data ->
        200 <= len (snd (extractTitleAndText w data)) -> In (Warn u) es).
Proof.
  induction urls as [|u urls IH]; intros vs es; cbn [ingest_pages].
  - intros H. injection H as _ <-. split; [reflexivity|]. intros u data [].
  - destruct (ingest_page w max_length fuel u) as [[vs1 es1]|] eqn:E1; [|discriminate].
    destruct (ingest_pages w max_length fuel urls) as [[vs2 es2]|] eqn:E2; [|discriminate].
    intros H. injection H as _ <-.
    destruct (ingest_page_events fuel u vs1 es1 E1) as [P1 W1].
    destruct (IH vs2 es2 eq_refl) as [P2 W2].
    split; [now rewrite pages_app, P1, P2|].
    intros u' data [<-|Hin] Hf Hl; apply in_or_app; [left|right].
    + now apply W1 with data.
    + now apply W2 with data.
Qed.

Lemma pages_run fuel args vs es index :
  ingest_pages w max_length fuel (discover w args) = Some (vs, es) ->
  Run.pages (discovery w args ++ es ++ [WriteIndex index]) = discover w args.
Proof.
  intros H. destruct (ingest_pages_events fuel _ _ _ H) as [P _].
  rewrite !pages_app, pages_discovery, P. simpl. apply app_nil_r.
Qed.

(** With the credential set and the output directory in place, on an
    engine whose arrays have a largest length and on pages whose text is
    trimmed, a run ends once the fuel lets every call of [chunkText] come to
    its [RangeError]. *)
Lemma main_runs args :
  sdk_rejects w (OPENAI_API_KEY w) = false ->
  unset (OPENAI_API_KEY w) = false ->
  disk_error w = None ->
  0 <= max_length ->
  (forall data, trim (snd (extractTitleAndText w data)) = snd (extractTitleAndText w data)) ->
  exists fuel0, forall fuel, (fuel0 <= fuel)%nat ->
    exists es,
      ingest_pages w max_length fuel (discover w args) = Some ([], es)
      /\ main w max_length fuel args
         = Some (discovery w args ++ es
                 ++ [WriteIndex {| site := arg_site args;
                                   generatedAt := clock w;
                                   model := embedding_model w;
                                   vectors := [] |}]).
Proof.
  intros Hs Hk Hd Hm Ht.
  destruct (ingest_pages_ends w max_length Hm Ht (discover w args)) as [fuel0 H].
  exists fuel0. intros fuel Hf. destruct (H fuel Hf) as [es Hes]. exists es.
  split; [exact Hes|]. unfold main. now rewrite Hs, Hk, Hd, Hes.
Qed.

End RunFacts.

(** X6. A run of the script that ends has requested only pages of the
    host and the protocol of the site, at most [limit] of them when [limit]
    is not negative; when it wrote an index, it requested the discovered
    URLs, each once for each time it is listed, in their order. *)
Theorem main_requests (w : Ingest.World) (max_length : Z) (fuel : nat)
  (args : Ingest.Args) (events : list Ingest.event) :
  Ingest.main w max_length fuel args = Some events ->
  Forall (fun u => Ingest.sameHost w u (Ingest.arg_site args) = true) (Run.pages events)
  /\ (0 <= Ingest.limit args -> len (Run.pages events) <= Ingest.limit args)
  /\ (forall index, Ingest.written events = Some index ->
        Run.pages events = Ingest.discover w args).
Proof.
  intros H. apply main_ends in H. destruct H as [[Hw Hp]|[es [Hi ->]]].
  - rewrite Hp. split; [constructor|]. split; [|congruence].
    intros Hk. unfold len. simpl. exact Hk.
  - rewrite (pages_run w max_length fuel args [] es _ Hi).
    split; [apply discover_sameHost|]. split; [apply discover_limit|reflexivity].
Qed.

Lemma main_requests_witness :
  exists fuel events,
    Ingest.main Samples.twice_listed 4294967295 fuel Ingest.default_args = Some events
    /\ Run.pages events = [Samples.docs_url; Samples.docs_url].
Proof.
  destruct (main_runs Samples.twice_listed 4294967295 Ingest.default_args)
    as [fuel H]; [reflexivity|reflexivity|reflexivity|lia|intros data; reflexivity|].
  destruct (H fuel (Nat.le_refl fuel)) as [es [_ Hm]].
  exists fuel. eexists. split; [exact Hm|].
  eapply (main_requests Samples.twice_listed 4294967295 fuel Ingest.default_args);
    [exact Hm|]. rewrite app_assoc. apply written_last.
Defined.

(** X8. With the credential set and the output directory in place, on an
    engine whose arrays have a largest length and on pages whose text is
    trimmed, as [extractTitleAndText] leaves it, the script always ends:
    given fuel enough for every call of [chunkText] to come to its
    [RangeError], it requests every discovered page, warns for every page
    whose text has 200 code units or more, and writes an index that names
    the site, the time and the embedding model and holds no vector. *)
Theorem main_writes_index (w : Ingest.World) (max_length : Z) (args : Ingest.Args) :
  Ingest.sdk_rejects w (Ingest.OPENAI_API_KEY w) = false ->
  Ingest.unset (Ingest.OPENAI_API_KEY w) = false ->
  Ingest.disk_error w = None ->
  0 <= max_length ->
  (forall data,
      trim (snd (Ingest.extractTitleAndText w data))
      = snd (Ingest.extractTitleAndText w data)) ->
  exists fuel0, forall fuel, (fuel0 <= fuel)%nat ->
    exists events index,
      Ingest.main w max_length fuel args = Some events
      /\ Ingest.written events = Some index
      /\ Run.pages events = Ingest.discover w args
      /\ (forall u data,
            In u (Ingest.discover w args) -> Ingest.fetch w u = Some data ->
            200 <= len (snd (Ingest.extractTitleAndText w data)) ->
            In (Ingest.Warn u) events)
      /\ Ingest.site index = Ingest.arg_site args
      /\ Ingest.generatedAt index = Ingest.clock w
      /\ Ingest.model index = Ingest.embedding_model w
      /\ Ingest.vectors index = [].
Proof.
  intros Hs Hk Hd Hm Ht.
  destruct (main_runs w max_length args Hs Hk Hd Hm Ht) as [fuel0 H].
  exists fuel0. intros fuel Hf. destruct (H fuel Hf) as [es [Hi Hmain]].
  eexists _, _. split; [exact Hmain|]. split; [apply written_index|].
  split; [now apply (pages_run w max_length fuel args [] es)|].
  split; [|repeat split].
  intros u data Hin Hfetch Hl.
  destruct (ingest_pages_events w max_length fuel _ _ _ Hi) as [_ W].
  apply in_or_app. right. apply in_or_app. left. now apply W with data.
Qed.

Lemma main_writes_index_witness :
  exists fuel events index,
    Ingest.main Samples.twice_listed 4294967295 fuel Ingest.default_args = Some events
    /\ Ingest.written events = Some index
    /\ Run.pages events = [Samples.docs_url; Samples.docs_url]
    /\ In (Ingest.Warn Samples.docs_url) events
    /\ Ingest.vectors index = [].
Proof.
  destruct (main_writes_index Samples.twice_listed 4294967295 Ingest.default_args)
    as [fuel H]; [reflexivity|reflexivity|reflexivity|lia|intros data; reflexivity|].
  destruct (H fuel (Nat.le_refl fuel)) as [events [index [H1 [H2 [H3 [H4 [_ [_ [_ H5]]]]]]]]].
  exists fuel, events, index. split; [exact H1|]. split; [exact H2|].
  split; [exact H3|]. split; [|exact H5].
  apply (H4 Samples.docs_url (lit "<html>")); [now left|reflexivity|].
  vm_compute. discriminate.
Defined.

(** X9. An id names its page and its chunk: two ids are equal only for
    the same URL and the same chunk number, whatever the URL holds, a '#'
    included. *)
Theorem make_id_decodes (u u' : jsstring) (i j : nat) :
  Ingest.make_id u i = Ingest.make_id u' j <-> u = u' /\ i = j.
Proof.
  split; [apply make_id_inj|]. now intros [-> ->].
Qed.

(** ** The command line *)

Section CliFacts.

Import Cli.

Lemma cut_at_eq k r : ~ In 61%N k -> cut (k ++ 61%N :: r) = (k, Some r).
Proof.
  induction k as [|c k IH]; intros Hk; simpl; [reflexivity|].
  destruct (N.eqb_spec c 61) as [E|E]; [elim Hk; now left|].
  rewrite IH; [reflexivity|]. intros H. apply Hk. now right.
Qed.

Lemma cut_no_eq k : ~ In 61%N k -> cut k = (k, None).
Proof.
  induction k as [|c k IH]; intros Hk; simpl; [reflexivity|].
  destruct (N.eqb_spec c 61) as [E|E]; [elim Hk; now left|].
  rewrite IH; [reflexivity|]. intros H. apply Hk. now right.
Qed.

(** An argument [key=value]: the value ends where a second '=' stands. *)
Lemma entry_with_value k v rest :
  ~ In 61%N k -> ~ In 61%N v ->
  entry (k ++ 61%N :: v) = (strip_dashes k, Str v)
  /\ entry (k ++ 61%N :: v ++ 61%N :: rest) = (strip_dashes k, Str v).
Proof.
  intros Hk Hv. unfold entry, split_kv. rewrite !cut_at_eq by assumption.
  now rewrite cut_no_eq by assumption.
Qed.

Lemma entry_bare k : ~ In 61%N k -> entry k = (strip_dashes k, Flag).
Proof. intros Hk. unfold entry, split_kv. now rewrite cut_no_eq. Qed.

Lemma get_from entries key : forall found,
  fold_left (fun found e => if bool_decide (fst e = key) then Some (snd e) else found)
            entries found
  = match get entries key with Some v => Some v | None => found end.
Proof.
  unfold get. induction entries as [|e entries IH]; intros found; [reflexivity|].
  cbn [fold_left]. rewrite IH, (IH (if bool_decide (fst e = key) then _ else None)).
  destruct (fold_left _ entries None); [reflexivity|].
  now destruct (bool_decide (fst e = key)).
Qed.

Lemma get_last entries k v key :
  get (entries ++ [(k, v)]) key = if bool_decide (k = key) then Some v else get entries key.
Proof.
  unfold get at 1. rewrite fold_left_app. cbn [fold_left fst snd].
  fold (get entries key). reflexivity.
Qed.

Lemma get_absent entries key :
  Forall (fun e => fst e <> key) entries -> get entries key = None.
Proof.
  unfold get. induction 1 as [|e entries He _ IH]; [reflexivity|].
  cbn [fold_left]. now rewrite bool_decide_eq_false_2.
Qed.

Lemma args_last argv kv :
  (2 <= length argv)%nat ->
  map entry (skipn 2 (argv ++ [kv])) = map entry (skipn 2 argv) ++ [entry kv].
Proof.
  intros H. rewrite skipn_app, map_app.
  now replace (2 - length argv)%nat with 0%nat by lia.
Qed.

End CliFacts.

(** X11. [parseArgs] gives the site https://www.arcade.ai, the limit 40
    and the timeout 15000 for each of them that no argument names, whatever
    else the command line holds; the first two entries of [process.argv] (the
    program and the script) are never read as arguments. *)
Theorem parseArgs_defaults (Number : jsstring -> float) (argv : list jsstring) :
  (Forall (fun kv => Cli.key_of kv <> lit "site") (skipn 2 argv) ->
   Cli.site (Cli.parseArgs Number argv) = Cli.Str (lit "https://www.arcade.ai"))
  /\ (Forall (fun kv => Cli.key_of kv <> lit "limit") (skipn 2 argv) ->
      Cli.limit (Cli.parseArgs Number argv) = 40%float)
  /\ (Forall (fun kv => Cli.key_of kv <> lit "timeoutMs") (skipn 2 argv) ->
      Cli.timeoutMs (Cli.parseArgs Number argv) = 15000%float)
  /\ (forall node script node' script' rest,
        argv = node :: script :: rest ->
        Cli.parseArgs Number argv = Cli.parseArgs Number (node' :: script' :: rest)).
Proof.
  assert (Habs : forall key,
             Forall (fun kv => Cli.key_of kv <> key) (skipn 2 argv) ->
             Cli.get (map Cli.entry (skipn 2 argv)) key = None).
  { intros key H. apply get_absent. apply Forall_map. exact H. }
  unfold Cli.parseArgs. cbn [Cli.site Cli.limit Cli.timeoutMs].
  split; [|split; [|split]].
  - intros H. now rewrite (Habs _ H).
  - intros H. now rewrite (Habs _ H).
  - intros H. now rewrite (Habs _ H).
  - now intros node script node' script' rest ->.
Qed.

Lemma parseArgs_defaults_witness :
  Cli.site (Cli.parseArgs (fun _ => 7%float) [lit "node"; lit "ingest.js"; lit "--limit=7"])
  = Cli.Str (lit "https://www.arcade.ai")
  /\ Cli.limit (Cli.parseArgs (fun _ => 7%float) [lit "node"; lit "ingest.js"; lit "--limit=7"])
     = 7%float.
Proof.
  split; [|reflexivity].
  apply (parseArgs_defaults (fun _ => 7%float) [lit "node"; lit "ingest.js"; lit "--limit=7"]).
  repeat constructor. vm_compute. discriminate.
Defined.

(** X12. Of several arguments for one key the last decides, with or
    without the leading dashes. Its value is the text between the first '='
    and the second, if there is a second: what follows a second '=' is
    dropped. An empty value gives the default; an argument without '=' gives
    [true] for the site and 1 for the limit. *)
Theorem parseArgs_last_argument (Number : jsstring -> float) (argv : list jsstring)
  (v rest : jsstring) :
  (2 <= length argv)%nat -> ~ In 61%N v ->
  let site_of kv := Cli.site (Cli.parseArgs Number (argv ++ [kv])) in
  let limit_of kv := Cli.limit (Cli.parseArgs Number (argv ++ [kv])) in
  site_of (lit "--site=" ++ v)
  = match v with [] => Cli.Str (lit "https://www.arcade.ai") | _ => Cli.Str v end
  /\ site_of (lit "--site=" ++ v ++ 61%N :: rest) = site_of (lit "--site=" ++ v)
  /\ site_of (lit "site=" ++ v) = site_of (lit "--site=" ++ v)
  /\ site_of (lit "--site") = Cli.Flag
  /\ limit_of (lit "--limit=" ++ v)
     = match v with [] => 40%float | _ => Number v end
  /\ limit_of (lit "--limit") = 1%float.
Proof.
  intros Hlen Hv site_of limit_of. subst site_of limit_of.
  unfold Cli.parseArgs. cbn [Cli.site Cli.limit]. rewrite !args_last by exact Hlen.
  assert (Hs : ~ In 61%N (lit "--site")) by (vm_compute; intuition discriminate).
  assert (Hs' : ~ In 61%N (lit "site")) by (vm_compute; intuition discriminate).
  assert (Hl : ~ In 61%N (lit "--limit")) by (vm_compute; intuition discriminate).
  change (lit "--site=" ++ v ++ 61%N :: rest) with (lit "--site" ++ 61%N :: v ++ 61%N :: rest).
  change (lit "--site=" ++ v) with (lit "--site" ++ 61%N :: v).
  change (lit "site=" ++ v) with (lit "site" ++ 61%N :: v).
  change (lit "--limit=" ++ v) with (lit "--limit" ++ 61%N :: v).
  destruct (entry_with_value (lit "--site") v rest Hs Hv) as [E1 E2].
  destruct (entry_with_value (lit "site") v rest Hs' Hv) as [E3 _].
  destruct (entry_with_value (lit "--limit") v rest Hl Hv) as [E4 _].
  rewrite E1, E2, E3, E4, (entry_bare (lit "--site") Hs), (entry_bare (lit "--limit") Hl).
  rewrite !get_last.
  change (Cli.strip_dashes (lit "--site")) with (lit "site").
  change (Cli.strip_dashes (lit "site")) with (lit "site").
  change (Cli.strip_dashes (lit "--limit")) with (lit "limit").
  rewrite !bool_decide_eq_true_2 by reflexivity.
  repeat split; now destruct v.
Qed.

Lemma parseArgs_last_argument_witness :
  Cli.site (Cli.parseArgs (fun _ => 0%float)
              [lit "node"; lit "ingest.js"; lit "--site=https://a.example";
               lit "--site=https://b.example/?page=2"])
  = Cli.Str (lit "https://b.example/?page").
Proof.
  destruct (parseArgs_last_argument (fun _ => 0%float)
              [lit "node"; lit "ingest.js"; lit "--site=https://a.example"]
              (lit "https://b.example/?page") (lit "2")) as [H1 [H2 _]].
  - simpl. lia.
  - vm_compute. intuition discriminate.
  - etransitivity; [exact H2|exact H1].
Defined.

(** ** Ranking, whatever the scores are *)

Section RankingAnyScore.

Import Similarity Retriever.

Lemma slice_from_start_length {A} (l : list A) (k : Z) :
  len (slice l 0 k) = if k <? 0 then Z.max 0 (len l + k) else Z.min k (len l).
Proof.
  unfold slice, rel_index. assert (Hl := len_nonneg l).
  change (0 <? 0) with false. cbv iota. rewrite (Z.min_l 0) by lia.
  change (skipn (Z.to_nat 0) l) with l. unfold len at 1. rewrite length_firstn.
  destruct (Z.ltb_spec k 0); unfold len in *; lia.
Qed.

Lemma selectTopK_length vectorIndex q k :
  len (selectTopK vectorIndex q k)
  = if k <? 0 then Z.max 0 (len (loaded_vectors vectorIndex) + k)
    else Z.min k (len (loaded_vectors vectorIndex)).
Proof.
  rewrite selectTopK_unfold, slice_from_start_length.
  unfold len. rewrite comparator_by_score, sort_length. unfold score_all.
  now rewrite length_map.
Qed.

(** What [selectTopK] returns is the front of a rearrangement of the
    scored records. *)
Lemma selectTopK_front vectorIndex q k :
  exists rest,
    Permutation (selectTopK vectorIndex q k ++ rest)
                (score_all q (loaded_vectors vectorIndex)).
Proof.
  rewrite selectTopK_unfold.
  destruct (slice_from_start
              (sort comparator (score_all q (loaded_vectors vectorIndex))) k) as [n ->].
  exists (skipn n (sort comparator (score_all q (loaded_vectors vectorIndex)))).
  rewrite firstn_skipn, comparator_by_score. apply sort_perm.
Qed.

Lemma selectTopK_from_index vectorIndex q k :
  Forall (fun s => In (record s) (loaded_vectors vectorIndex)
                   /\ score s = cosineSimilarity q (embedding (record s)))
         (selectTopK vectorIndex q k).
Proof.
  destruct (selectTopK_front vectorIndex q k) as [rest Hp].
  apply Forall_forall. intros s Hs.
  assert (Hin : In s (score_all q (loaded_vectors vectorIndex))).
  { eapply Permutation_in; [exact Hp|]. apply in_or_app. now left. }
  unfold score_all in Hin. apply in_map_iff in Hin. destruct Hin as [v [<- Hv]].
  now split.
Qed.

End RankingAnyScore.

(** X13. For every index, query and [k], NaN scores and negative [k]
    included, [selectTopK] returns [min (k, n)] records when [k >= 0] and
    [max (0, n + k)] when [k < 0]; what it returns is the front of a
    rearrangement of the records of the index, so no record comes back twice
    and none is made up; and each comes with its own similarity to the
    query. *)
Theorem selectTopK_records (vectorIndex : option Retriever.Index)
  (q : Similarity.vector) (k : Z) :
  let vs := Retriever.loaded_vectors vectorIndex in
  let out := Retriever.selectTopK vectorIndex q k in
  len out = (if k <? 0 then Z.max 0 (len vs + k) else Z.min k (len vs))
  /\ (exists rest, Permutation (out ++ rest) (Retriever.score_all q vs))
  /\ Forall (fun s => In (Retriever.record s) vs
                      /\ Retriever.score s
                         = Similarity.cosineSimilarity q (Retriever.embedding (Retriever.record s)))
            out.
Proof.
  intros vs out. split; [apply selectTopK_length|].
  split; [apply selectTopK_front|apply selectTopK_from_index].
Qed.

(** ** Vectors of different lengths *)

Section DimensionFacts.

Import FloatOrder Similarity.

Lemma nan_spec x : is_nan x = true <-> Prim2SF x = S754_nan.
Proof.
  assert (H := number_spec x). unfold number in H.
  destruct (is_nan x).
  - split; [intros _|reflexivity].
    destruct (Prim2SF x) eqn:E; try reflexivity;
      (assert (Hf : true = false) by (apply H; discriminate)); discriminate.
  - split; [discriminate|]. intros E. destruct H as [H _]. now elim (H eq_refl).
Qed.

Lemma add_nan_l x y : is_nan x = true -> is_nan (x + y)%float = true.
Proof. rewrite !nan_spec, add_spec. now intros ->. Qed.

Lemma add_nan_r x y : is_nan y = true -> is_nan (x + y)%float = true.
Proof. rewrite !nan_spec, add_spec. intros ->. now destruct (Prim2SF x). Qed.

Lemma mul_nan_r x y : is_nan y = true -> is_nan (x * y)%float = true.
Proof. rewrite !nan_spec, mul_spec. intros ->. now destruct (Prim2SF x). Qed.

Lemma div_nan_l x y : is_nan x = true -> is_nan (x / y)%float = true.
Proof. rewrite !nan_spec, div_spec. now intros ->. Qed.

(** Once the dot product is NaN it stays NaN. *)
Lemma loop_nan n : forall i a b s,
  is_nan (dot s) = true -> is_nan (dot (loop binary64 n i a b s)) = true.
Proof.
  induction n as [|n IH]; intros i a b s H; [exact H|].
  cbn [loop]. apply IH. cbn [dot]. now apply add_nan_l.
Qed.

(** The pass that reads [b] past its end makes the dot product NaN. *)
Lemma loop_short n : forall i a b s,
  (length b < i + n)%nat -> (i <= length b)%nat ->
  is_nan (dot (loop binary64 n i a b s)) = true.
Proof.
  induction n as [|n IH]; intros i a b s Hn Hi; [lia|].
  cbn [loop]. destruct (Nat.eq_dec i (length b)) as [E|E].
  - apply loop_nan. cbn [dot binary64 add mul undef].
    apply add_nan_r, mul_nan_r. rewrite nth_overflow by lia. reflexivity.
  - apply IH; lia.
Qed.

Section AnyArithmetic.

Context {num : Type} (ar : arith num).

(** The loop reads [b] at the places of [a] only. *)
Lemma loop_reads n : forall i a b b' s,
  (forall j, (i <= j < i + n)%nat -> nth j b (undef ar) = nth j b' (undef ar)) ->
  loop ar n i a b s = loop ar n i a b' s.
Proof.
  induction n as [|n IH]; intros i a b b' s H; [reflexivity|].
  cbn [loop]. rewrite (H i) by lia. apply IH. intros j Hj. apply H. lia.
Qed.

Lemma nth_firstn_inside {A} (l : list A) n j d :
  (j < n)%nat -> nth j (firstn n l) d = nth j l d.
Proof.
  revert l j. induction n as [|n IH]; intros l j Hj; [lia|].
  destruct l as [|x l]; [reflexivity|]. destruct j as [|j]; [reflexivity|].
  simpl. apply IH. lia.
Qed.

Lemma cosine_reads a b : cosine ar a b = cosine ar a (firstn (length a) b).
Proof.
  unfold cosine.
  rewrite (loop_reads (length a) 0 a b (firstn (length a) b)); [reflexivity|].
  intros j Hj. symmetry. apply nth_firstn_inside. lia.
Qed.

End AnyArithmetic.

End DimensionFacts.

(** X14. [cosineSimilarity (a, b)] reads [b] at the places of [a] only:
    components of [b] past the length of [a] do not count. When [b] is
    shorter than [a] the result is NaN, whatever the components are. *)
Theorem cosineSimilarity_lengths (a b : Similarity.vector) :
  Similarity.cosineSimilarity a b = Similarity.cosineSimilarity a (firstn (length a) b)
  /\ ((length b < length a)%nat -> is_nan (Similarity.cosineSimilarity a b) = true).
Proof.
  split; [apply (cosine_reads Similarity.binary64)|].
  intros H. unfold Similarity.cosineSimilarity, Similarity.cosine.
  cbn [Similarity.div Similarity.binary64]. apply div_nan_l.
  apply loop_short; lia.
Qed.

Lemma cosineSimilarity_lengths_witness :
  is_nan (Similarity.cosineSimilarity [1; 2]%float [1]%float) = true
  /\ Similarity.cosineSimilarity [1]%float [1; 2]%float
     = Similarity.cosineSimilarity [1]%float [1]%float.
Proof.
  split.
  - apply (cosineSimilarity_lengths [1; 2]%float [1]%float). simpl. lia.
  - apply (cosineSimilarity_lengths [1]%float [1; 2]%float).
Defined.

(** ** Answering a question *)

Section AnswerFacts.

Import Similarity Retriever Server.

Lemma fallback_reply_trimmed : trim fallback_reply = fallback_reply.
Proof. reflexivity. Qed.



End AnswerFacts.





(** ** Requests *)

Section RequestFacts.

Import Similarity Retriever Server.

(** What [answerQuestion] does, whatever the services answer. *)
Lemma answerQuestion_cases w vectorIndex question :
  (exists a e content,
      embedText w question = Some e
      /\ complete w buildSystemPrompt (buildUserPrompt question (selectTopK vectorIndex e 6))
         = Some content
      /\ answerQuestion w vectorIndex question
         = (Some a, [Embedding question;
                     Completion buildSystemPrompt
                       (buildUserPrompt question (selectTopK vectorIndex e 6))]))
  \/ (exists e,
        embedText w question = Some e
        /\ complete w buildSystemPrompt (buildUserPrompt question (selectTopK vectorIndex e 6))
           = None
        /\ answerQuestion w vectorIndex question
           = (None, [Embedding question;
                     Completion buildSystemPrompt
                       (buildUserPrompt question (selectTopK vectorIndex e 6))]))
  \/ (embedText w question = None
      /\ answerQuestion w vectorIndex question = (None, [Embedding question])).
Proof.
  unfold answerQuestion. destruct (embedText w question) as [e|]; [|now right; right].
  cbv zeta.
  destruct (complete w buildSystemPrompt
              (buildUserPrompt question (selectTopK vectorIndex e 6))) as [content|] eqn:Ec.
  - left. eexists _, e, content. repeat split. exact Ec.
  - right. left. exists e. repeat split. exact Ec.
Qed.

Lemma text_of_trimmed q : trim (text_of q) = text_of q.
Proof. unfold text_of. apply trim_idem. Qed.

Lemma text_of_nil q :
  text_of q = [] <-> q = None \/ exists s, q = Some s /\ blank s = true.
Proof.
  unfold text_of. rewrite trim_nil_iff. destruct q as [s|]; split.
  - intros H. right. exists s. split; [reflexivity|exact H].
  - intros [H|[s' [H Hb]]]; [discriminate|]. injection H as ->. exact Hb.
  - intros _. now left.
  - intros _. reflexivity.
Qed.

End RequestFacts.

(** X17. What a request can do. Only [POST /admin/reload] changes
    [vectorIndex]. A response with an error has status 400 or 500, every
    other one status 200. A request calls the services not at all, or the
    embedding service once, on the trimmed question, and after it, at most
    once, the completion service; a request answered with 400 called none,
    and one answered with a reply called both. *)
Theorem handle_outcome (w : Server.World) (vectorIndex : option Retriever.Index)
  (r : Server.request) :
  let res := fst (fst (Server.handle w vectorIndex r)) in
  let made := snd (fst (Server.handle w vectorIndex r)) in
  let vectorIndex' := snd (Server.handle w vectorIndex r) in
  ((forall files, r <> Server.POST_admin_reload files) -> vectorIndex' = vectorIndex)
  /\ match Server.payload res with
     | Server.Error _ => Server.status res = 400 \/ Server.status res = 500
     | _ => Server.status res = 200
     end
  /\ (made = []
      \/ exists question,
           question <> [] /\ trim question = question
           /\ (made = [Server.Embedding question]
               \/ exists user,
                    made = [Server.Embedding question;
                            Server.Completion Server.buildSystemPrompt user]))
  /\ (Server.status res = 400 -> made = [])
  /\ (forall a, Server.payload res = Server.Answered a ->
        exists question user,
          made = [Server.Embedding question;
                  Server.Completion Server.buildSystemPrompt user]).
Proof.
  assert (Hroute : forall q,
            Server.text_of q <> [] ->
            let out :=
              match Server.answerQuestion w vectorIndex (Server.text_of q) with
              | (Some a, made) =>
                  ({| Server.status := 200; Server.payload := Server.Answered a |},
                   made, vectorIndex)
              | (None, made) =>
                  ({| Server.status := 500;
                      Server.payload := Server.Error (lit "Internal error") |},
                   made, vectorIndex)
              end in
            snd out = vectorIndex
            /\ match Server.payload (fst (fst out)) with
               | Server.Error _ =>
                   Server.status (fst (fst out)) = 400 \/ Server.status (fst (fst out)) = 500
               | _ => Server.status (fst (fst out)) = 200
               end
            /\ (snd (fst out) = []
                \/ exists question,
                     question <> [] /\ trim question = question
                     /\ (snd (fst out) = [Server.Embedding question]
                         \/ exists user,
                              snd (fst out) = [Server.Embedding question;
                                               Server.Completion Server.buildSystemPrompt user]))
            /\ (Server.status (fst (fst out)) = 400 -> snd (fst out) = [])
            /\ (forall a, Server.payload (fst (fst out)) = Server.Answered a ->
                  exists question user,
                    snd (fst out) = [Server.Embedding question;
                                     Server.Completion Server.buildSystemPrompt user])).
  { intros q Hq.
    destruct (answerQuestion_cases w vectorIndex (Server.text_of q))
      as [[a [e [content [_ [_ E]]]]]|[[e [_ [_ E]]]|[_ E]]]; rewrite E; cbn.
    - split; [reflexivity|]. split; [reflexivity|]. split.
      + right. exists (Server.text_of q). split; [exact Hq|].
        split; [apply text_of_trimmed|]. right. now eexists.
      + split; [discriminate|]. intros _ _. now eexists _, _.
    - split; [reflexivity|]. split; [now right|]. split.
      + right. exists (Server.text_of q). split; [exact Hq|].
        split; [apply text_of_trimmed|]. right. now eexists.
      + split; [discriminate|]. discriminate.
    - split; [reflexivity|]. split; [now right|]. split.
      + right. exists (Server.text_of q). split; [exact Hq|].
        split; [apply text_of_trimmed|]. now left.
      + split; [discriminate|]. discriminate. }
  destruct r as [|q|q|files]; cbn [Server.handle].
  - cbn. repeat split; try discriminate; now left.
  - destruct (Server.unset (Server.OPENAI_API_KEY w)).
    + cbn. repeat split; try discriminate; try (now left); now right.
    + destruct (Server.text_of q) as [|c t] eqn:Et.
      * cbn. repeat split; try discriminate; now left.
      * rewrite <- Et. assert (Hq : Server.text_of q <> []) by (rewrite Et; discriminate).
        destruct (Hroute q Hq) as [H1 [H2 [H3 [H4 H5]]]].
        split; [intros _; exact H1|]. repeat split; assumption.
  - destruct (Server.text_of q) as [|c t] eqn:Et.
    + cbn. repeat split; try discriminate; now left.
    + rewrite <- Et. assert (Hq : Server.text_of q <> []) by (rewrite Et; discriminate).
      destruct (Hroute q Hq) as [H1 [H2 [H3 [H4 H5]]]].
      split; [intros _; exact H1|]. repeat split; assumption.
  - cbn. split; [intros H; now elim (H files)|].
    repeat split; try discriminate; now left.
Qed.

Lemma handle_outcome_witness :
  snd (Server.handle Scenarios.helpful_server Samples.three_index
         (Server.POST_bot_answer (Some (lit " What is Arcade? "))))
  = Samples.three_index
  /\ Server.status
       (fst (fst (Server.handle Scenarios.helpful_server Samples.three_index
                    (Server.POST_bot_answer (Some (lit " What is Arcade? ")))))) = 200.
Proof.
  split; [|reflexivity].
  apply (handle_outcome Scenarios.helpful_server Samples.three_index
           (Server.POST_bot_answer (Some (lit " What is Arcade? ")))).
  intros files. discriminate.
Defined.

(** X18. [GET /test] has no check of the credential: with the key unset
    and a question that is not blank it calls the embedding service on the
    trimmed question, where [POST /bot/answer] on the same question calls
    nothing. *)
Theorem test_route_unguarded (w : Server.World) (vectorIndex : option Retriever.Index)
  (q : option jsstring) :
  Server.unset (Server.OPENAI_API_KEY w) = true ->
  Server.text_of q <> [] ->
  (exists rest,
      snd (fst (Server.handle w vectorIndex (Server.GET_test q)))
      = Server.Embedding (Server.text_of q) :: rest)
  /\ snd (fst (Server.handle w vectorIndex (Server.POST_bot_answer q))) = [].
Proof.
  intros Hk Hq. split.
  - cbn [Server.handle]. destruct (Server.text_of q) as [|c t] eqn:Et; [now elim Hq|].
    destruct (answerQuestion_cases w vectorIndex (c :: t))
      as [[a [e [content [_ [_ E]]]]]|[[e [_ [_ E]]]|[_ E]]]; rewrite E;
      cbn [fst snd]; now eexists.
  - cbn [Server.handle]. now rewrite Hk.
Qed.

Lemma test_route_unguarded_witness :
  snd (fst (Server.handle Samples.keyless_server None (Server.GET_test (Some (lit " hi ")))))
  = [Server.Embedding (lit "hi")]
  /\ snd (fst (Server.handle Samples.keyless_server None
                 (Server.POST_bot_answer (Some (lit " hi "))))) = [].
Proof.
  split; [reflexivity|].
  apply (test_route_unguarded Samples.keyless_server None (Some (lit " hi ")));
    [reflexivity|discriminate].
Defined.

(** X19. A question that is missing, empty or blank is answered with
    status 400 and no call to a service, on [GET /test] always and on
    [POST /bot/answer] when the key is set; with the key unset
    [POST /bot/answer] answers 500 "Missing OPENAI_API_KEY" first. *)
Theorem blank_question_rejected (w : Server.World) (vectorIndex : option Retriever.Index)
  (q : option jsstring) :
  (q = None \/ exists s, q = Some s /\ blank s = true) ->
  Server.handle w vectorIndex (Server.GET_test q)
  = ({| Server.status := 400; Server.payload := Server.Error (lit "Missing q") |},
     [], vectorIndex)
  /\ Server.handle w vectorIndex (Server.POST_bot_answer q)
     = (if Server.unset (Server.OPENAI_API_KEY w)
        then {| Server.status := 500;
                Server.payload := Server.Error (lit "Missing OPENAI_API_KEY") |}
        else {| Server.status := 400;
                Server.payload := Server.Error (lit "Missing `question`") |},
        [], vectorIndex).
Proof.
  intros Hq. apply text_of_nil in Hq. cbn [Server.handle]. rewrite Hq.
  split; [reflexivity|]. now destruct (Server.unset (Server.OPENAI_API_KEY w)).
Qed.

Lemma blank_question_rejected_witness :
  Server.handle Scenarios.helpful_server Samples.three_index
    (Server.POST_bot_answer (Some (lit "   ")))
  = ({| Server.status := 400; Server.payload := Server.Error (lit "Missing `question`") |},
     [], Samples.three_index).
Proof.
  apply (blank_question_rejected Scenarios.helpful_server Samples.three_index
           (Some (lit "   "))).
  right. exists (lit "   "). split; reflexivity.
Defined.

(** X20. With the key set and a question that is not blank,
    [POST /bot/answer] replies exactly when the embedding service and then
    the completion service answer; when either fails the response is 500
    "Internal error", and after a failed embedding the completion service
    is not called. [GET /test] does the same, key or no key. *)
Theorem answer_needs_services (w : Server.World) (vectorIndex : option Retriever.Index)
  (q : option jsstring) :
  Server.unset (Server.OPENAI_API_KEY w) = false ->
  Server.text_of q <> [] ->
  let question := Server.text_of q in
  let res := fst (fst (Server.handle w vectorIndex (Server.POST_bot_answer q))) in
  let made := snd (fst (Server.handle w vectorIndex (Server.POST_bot_answer q))) in
  ((exists a, res = {| Server.status := 200; Server.payload := Server.Answered a |})
   <-> exists e content,
         Server.embedText w question = Some e
         /\ Server.complete w Server.buildSystemPrompt
              (Server.buildUserPrompt question (Retriever.selectTopK vectorIndex e 6))
            = Some content)
  /\ ((forall a, res <> {| Server.status := 200; Server.payload := Server.Answered a |}) ->
      res = {| Server.status := 500; Server.payload := Server.Error (lit "Internal error") |})
  /\ (Server.embedText w question = None -> made = [Server.Embedding question])
  /\ Server.handle w vectorIndex (Server.GET_test q)
     = Server.handle w vectorIndex (Server.POST_bot_answer q).
Proof.
  intros Hk Hq question res made. subst res made.
  cbn [Server.handle]. rewrite Hk. fold question.
  destruct question as [|c t] eqn:Et; [now elim Hq|]. rewrite <- Et. clear Hq.
  destruct (answerQuestion_cases w vectorIndex question)
    as [[a [e [content [He [Hc E]]]]]|[[e [He [Hc E]]]|[He E]]]; rewrite E; cbn [fst snd].
  - split; [split; [intros _; now exists e, content|intros _; now exists a]|].
    split; [intros H; now elim (H a)|]. split; [congruence|reflexivity].
  - split; [split; [intros [a H]; discriminate|intros [e' [c' [He' Hc']]]]|].
    + rewrite He in He'. injection He' as <-. congruence.
    + split; [reflexivity|]. split; [congruence|reflexivity].
  - split; [split; [intros [a H]; discriminate|intros [e [c' [He' _]]]; congruence]|].
    split; [reflexivity|]. split; reflexivity.
Qed.

Lemma answer_needs_services_witness :
  fst (Server.handle Scenarios.offline_server Samples.three_index
         (Server.POST_bot_answer (Some (lit "What is Arcade?"))))
  = ({| Server.status := 500; Server.payload := Server.Error (lit "Internal error") |},
     [Server.Embedding (lit "What is Arcade?")]).
Proof.
  destruct (answer_needs_services Scenarios.offline_server Samples.three_index
              (Some (lit "What is Arcade?"))) as [_ [H1 [H2 _]]];
    [reflexivity|discriminate|].
  apply injective_projections.
  - apply H1. intros a. discriminate.
  - apply H2. reflexivity.
Defined.

(** ** Reloading twice *)

(** X21. Loading the index again from the same files changes nothing: a
    second call of [loadIndex] leaves [vectorIndex] as the first one left it
    and logs what the first one logged; and every call logs once. *)
Theorem loadIndex_idempotent (w : Server.World) (files : Server.Files)
  (vectorIndex : option Retriever.Index) :
  let once := Server.loadIndex w files vectorIndex in
  Server.loadIndex w files (fst once) = once
  /\ length (snd once) = 1%nat.
Proof.
  unfold Server.loadIndex, Server.after_pathExists.
  destruct (Server.pathExists files) as [[|]|]; cbn; [|now split..].
  unfold Server.after_readFile. destruct (Server.readFile files) as [raw|]; [|now split].
  destruct (Server.JSON_parse w raw) as [[index|]|]; now split.
Qed.

(** ** The same-host filter, as a relation *)

(** X23. [sameHost] does not depend on the order of its arguments, it
    carries over from one pair to the next, and a URL is of its own host
    exactly when it parses. *)
Theorem sameHost_equivalence (w : Ingest.World) (a b c : jsstring) :
  Ingest.sameHost w a b = Ingest.sameHost w b a
  /\ (Ingest.sameHost w a b = true -> Ingest.sameHost w b c = true ->
      Ingest.sameHost w a c = true)
  /\ (Ingest.sameHost w a a = true <-> Ingest.parse_url w a <> None).
Proof.
  assert (Hsym : forall x y : Ingest.URL,
             Ingest.same (Ingest.host x) (Ingest.host y)
             && Ingest.same (Ingest.protocol x) (Ingest.protocol y)
             = Ingest.same (Ingest.host y) (Ingest.host x)
               && Ingest.same (Ingest.protocol y) (Ingest.protocol x)).
  { intros x y. apply eq_true_iff_eq. rewrite !andb_true_iff, !same_eq.
    split; intros [E1 E2]; now split. }
  unfold Ingest.sameHost. split; [|split].
  - destruct (Ingest.parse_url w a) as [ua|], (Ingest.parse_url w b) as [ub|];
      try reflexivity. apply Hsym.
  - destruct (Ingest.parse_url w a) as [ua|]; [|discriminate].
    destruct (Ingest.parse_url w b) as [ub|]; [|discriminate].
    destruct (Ingest.parse_url w c) as [uc|]; [|intros _ H; discriminate].
    rewrite !andb_true_iff, !same_eq. intros [E1 E2] [E3 E4]. split; congruence.
  - destruct (Ingest.parse_url w a) as [ua|].
    + rewrite andb_true_iff, !same_eq. split; [discriminate|now split].
    + split; [discriminate|]. intros H. now elim H.
Qed.

Lemma sameHost_equivalence_witness :
  Ingest.sameHost Samples.twice_listed (lit "https://www.arcade.ai/a")
                  (lit "https://www.arcade.ai/b") = true.
Proof.
  destruct (sameHost_equivalence Samples.twice_listed (lit "https://www.arcade.ai/a")
              (lit "https://www.arcade.ai") (lit "https://www.arcade.ai/b")) as [_ [H _]].
  apply H; reflexivity.
Defined.

(** ** Query after query *)

Section SessionFacts.

Import Similarity Retriever Store.

Lemma read_scored_extends st st' arr l :
  extends st st' -> read_scored st arr = Some l -> read_scored st' arr = Some l.
Proof.
  intros X. unfold read_scored.
  destruct (heap st !! arr) as [[elems|fields s]|] eqn:E; try discriminate.
  rewrite (extends_lookup st st' arr _ X E). rewrite !mapM_Some.
  intros H. eapply Forall2_impl; [|exact H]. intros e sc He. cbv beta in *.
  destruct X as [_ Hsub]. now apply view_weaken with (heap st).
Qed.

Lemma rank_all_extends queries : forall st outs st',
  Session.rank_all queries st = Some (outs, st') -> extends st st'.
Proof.
  unfold Session.rank_all.
  induction queries as [|qk queries IH]; intros st outs st'; cbn [for_each].
  - unfold ret. intros H. injection H as _ <-. apply extends_refl.
  - unfold bind at 1.
    destruct (Store.selectTopK (fst qk) (snd qk) st) as [[out st1]|] eqn:E1; [|discriminate].
    unfold bind at 1.
    destruct (for_each _ queries st1) as [[outs1 st2]|] eqn:E2; [|discriminate].
    unfold ret. intros H. injection H as _ <-.
    apply selectTopK_extends in E1. destruct E1 as [X1 _].
    apply extends_trans with st1; [exact X1|]. now apply IH with outs1.
Qed.

End SessionFacts.

(** X24. Queries served one after the other on the one store: every call
    of [selectTopK] returns, each result holds the records the value model
    ranks for its query on the index the store held at the start, the
    results of earlier calls are still that when the later calls are done,
    and the store holds the same index at the end. *)
Theorem selectTopK_repeated (queries : list (Similarity.vector * Z)) (st : Store.state)
  (index : option Retriever.Index) :
  Store.holds st index ->
  exists outs st',
    Session.rank_all queries st = Some (outs, st')
    /\ Forall2 (fun out qk =>
                  Store.read_scored st' out
                  = Some (Retriever.selectTopK index (fst qk) (snd qk)))
               outs queries
    /\ Store.holds st' index.
Proof.
  revert st. induction queries as [|qk queries IH]; intros st Hh.
  - exists [], st. split; [reflexivity|]. split; [constructor|exact Hh].
  - destruct (selectTopK_refines (fst qk) (snd qk) st index Hh) as [out [st1 [E1 R1]]].
    assert (X1 : Store.extends st st1) by (apply selectTopK_extends in E1; tauto).
    destruct (IH st1 (holds_extends st st1 index X1 Hh)) as [outs [st' [E2 [R2 Hh']]]].
    exists (out :: outs), st'. split; [|split; [|exact Hh']].
    + unfold Session.rank_all in *. cbn [Store.for_each]. unfold Store.bind at 1.
      rewrite E1. unfold Store.bind at 1. rewrite E2. reflexivity.
    + constructor; [|exact R2].
      apply read_scored_extends with st1; [|exact R1].
      now apply rank_all_extends with queries outs.
Qed.

Lemma selectTopK_repeated_witness :
  exists outs st',
    Session.rank_all [([1; 0]%float, 2); ([0; 1]%float, 1)] Samples.three_state
    = Some (outs, st')
    /\ Forall2 (fun out qk =>
                  Store.read_scored st' out
                  = Some (Retriever.selectTopK Samples.three_index (fst qk) (snd qk)))
               outs [([1; 0]%float, 2); ([0; 1]%float, 1)]
    /\ Store.holds st' Samples.three_index.
Proof.
  apply (selectTopK_repeated [([1; 0]%float, 2); ([0; 1]%float, 1)] Samples.three_state
           Samples.three_index).
  exact three_state_holds.
Defined.
